(** * makepanda: the dependency-driven build scheduler

    A shallow embedding of the "Dependency-Based Distributed Build System"
    at the end of [makepanda/makepanda.py]: [BuildWorker], [AllSourcesReady],
    [ParallelMake], [SequentialMake], [RunDependencyQueue] and the
    [try ... finally: SaveDependencyCache()] block that drives them.

    The scheduler thread and the worker threads are modelled as an
    interleaving transition system over the two queues.  Calls that leave the
    file ([NeedsBuild], [JustBuilt], the task's action, [SaveDependencyCache],
    which live in makepandacore or in the per-toolchain code) are parameters
    of the development and are logged in a trace of events. *)

From stdpp Require Import gmap strings list fin_maps.
From Stdlib Require Import ZArith Ascii.

Local Open Scope Z_scope.

(** ** Data *)

(** A task is the five-element list
    [[CompileAnything, [name, inputs, opts], [name], deps, []]]:
    [task[0]] the callable (kept by name), [task[1]] its argument list,
    [task[2]] the outputs, [task[3]] the explicit deps, [task[4]] the
    alternate deps. *)
Record task := mkTask {
  t_fn     : string;
  t_name   : string;
  t_inputs : list string;
  t_opts   : list string;
  t_outs   : list string;
  t_deps   : list string;
  t_alts   : list string
}.

#[global] Instance task_eq_dec : EqDecision task.
Proof. solve_decision. Defined.

(** An entry of TARGET_LIST, as far as the scheduler reads it. *)
Record Target := mkTarget {
  name   : string;
  inputs : list string;
  opts   : list string;
  deps   : list string
}.

(** [for target in TARGET_LIST: DEPENDENCYQUEUE.append(
      [CompileAnything, [name, inputs, opts], [name], deps, []])] *)
Definition DEPENDENCYQUEUE (TARGET_LIST : list Target) : list task :=
  map (fun target =>
         mkTask "CompileAnything" (name target) (inputs target) (opts target)
                [name target] (deps target) [])
      TARGET_LIST.

(** What travels on [taskqueue]: a task, or the integer 0 that stops a worker. *)
Inductive qitem := Stop | Job (t : task).

(** What travels on [donequeue]: the finished task, or the integer 0 that
    signals a failure. *)
Inductive ditem := Failed | Done (t : task).

(** The two [exit(...)] calls of [ParallelMake]. *)
Inductive exit_msg :=
| BuildAborting
| DependencyProblems (unfinished : nat) (first : list string).

(** The text given to [exit]; for the second one, the part before the
    formatted numbers. *)
Definition exit_text (m : exit_msg) : string :=
  match m with
  | BuildAborting => "Build process aborting."
  | DependencyProblems _ _ => "Dependency problems"
  end.

(** How [RunDependencyQueue] is left. *)
Inductive outcome :=
| Returns
| SystemExit (m : exit_msg)
| KeyError (key : string)
| ActionRaised (t : task).

(** Exit status of the interpreter for each way out: [exit] with a string
    argument and an uncaught exception both give status 1. *)
Definition exit_status (o : outcome) : Z :=
  match o with
  | Returns => 0
  | SystemExit _ | KeyError _ | ActionRaised _ => 1
  end.

(** The optional [progress] argument of the action.  The source passes the
    float [(i * 100.0) / len(tasklist)]; it is carried as the pair
    [(i, len(tasklist))]. *)
Definition progress := option (nat * nat).

Inductive event :=
| EvNeedsBuild (files others : list string) (r : bool)
| EvJustBuilt (files others : list string)
| EvPut (t : task) (pend : gmap string nat) (* taskqueue.put(task) *)
| EvDelSkipped (t : task) (target : string) (* del pending[target], skip branch *)
| EvGet (d : ditem)                         (* donequeue.get() *)
| EvDelDone (t : task) (target : string)    (* del pending[target], after get *)
| EvCall (t : task) (p : progress) (ok : bool) (* the call of task[0] on task[1] *)
| EvDonePut (d : ditem)                     (* donequeue.put(...) *)
| EvPutStop                                 (* taskqueue.put(0) *)
| EvExit (m : exit_msg)
| EvSave.                                   (* SaveDependencyCache() *)

Inductive wstate :=
| WIdle               (* blocked in taskqueue.get *)
| WBusy (t : task)    (* inside the call of task[0] on task[1] *)
| WReturned.          (* received 0 and returned *)

#[global] Instance wstate_eq_dec : EqDecision wstate.
Proof. solve_decision. Defined.

(** Where the main thread is. *)
Inductive pc :=
| AtStart                 (* before [try: RunDependencyQueue(DEPENDENCYQUEUE)] *)
| AtLoop                  (* top of [while True] in ParallelMake *)
| AtGet                   (* in [donequeue.get()] *)
| AtFinally (o : outcome) (* RunDependencyQueue left, [finally] not yet run *)
| AtEnd (o : outcome).    (* [finally] clause done *)

(** ** Readiness *)

Definition in_pending (x : string) (pending : gmap string nat) : bool :=
  bool_decide (is_Some (pending !! x)).

(** [for x in sources: if x in pending: return False] *)
Fixpoint none_pending (sources : list string) (pending : gmap string nat) : bool :=
  match sources with
  | [] => true
  | x :: rest => if in_pending x pending then false else none_pending rest pending
  end.

Definition AllSourcesReady (t : task) (pending : gmap string nat) : bool :=
  if negb (none_pending (t_deps t) pending) then false
  else if negb (none_pending (t_inputs t) pending) then false
  else if negb (none_pending (t_alts t) pending) then false
  else true.

(** [for target in targets: del pending[target]].  Deleting a key that is
    absent raises KeyError; the keys deleted before that stay deleted.
    Returns the new dict, the targets deleted, and the key that raised. *)
Fixpoint del_targets (targets : list string) (pending : gmap string nat)
  : gmap string nat * list string * option string :=
  match targets with
  | [] => (pending, [], None)
  | k :: rest =>
      match pending !! k with
      | None => (pending, [], Some k)
      | Some _ =>
          let '(p, ds, err) := del_targets rest (delete k pending) in
          (p, k :: ds, err)
      end
  end.

(** [pending = {}; for task in tasklist: for target in task[2]: pending[target] = 1] *)
Definition seed_targets (targets : list string) (pending : gmap string nat)
  : gmap string nat :=
  foldl (fun p target => <[target := 1%nat]> p) pending targets.

Definition seed_pending (tasklist : list task) : gmap string nat :=
  foldl (fun p t => seed_targets (t_outs t) p) ∅ tasklist.

Section Scheduler.

(** Everything outside the scheduler: the file system and the in-memory
    dependency cache are one abstract [World]. *)
Variable World : Type.
Variable NeedsBuild : World -> list string -> list string -> bool.
Variable JustBuilt : World -> list string -> list string -> World.
(** [call fn name inputs opts p w]: the callable [fn] applied to
    [name, inputs, opts] (and to the progress [p] when given) in world [w];
    [true] when it returns, [false] when it raises. *)
Variable call :
  string -> string -> list string -> list string -> progress -> World ->
  bool * World.
Variable THREADCOUNT : Z.

(** [task[0]] applied to the unpacked [task[1]]: the action sees the name, the ordered
    inputs and the options of the task, and nothing else of it. *)
Definition run_action (t : task) (p : progress) (w : World) : bool * World :=
  call (t_fn t) (t_name t) (t_inputs t) (t_opts t) p w.

Record state := mkState {
  tasklist    : list task;
  pending     : gmap string nat;
  tasksqueued : Z;
  at_pc       : pc;
  taskqueue   : list qitem;
  donequeue   : list ditem;
  workers     : list wstate;
  world       : World;
  saved       : list World;   (* what SaveDependencyCache has written *)
  trace       : list event
}.

Definition set_pc (p : pc) (s : state) : state :=
  mkState (tasklist s) (pending s) (tasksqueued s) p (taskqueue s)
          (donequeue s) (workers s) (world s) (saved s) (trace s).

Definition set_tasklist (tl : list task) (s : state) : state :=
  mkState tl (pending s) (tasksqueued s) (at_pc s) (taskqueue s)
          (donequeue s) (workers s) (world s) (saved s) (trace s).

Definition set_pending (p : gmap string nat) (s : state) : state :=
  mkState (tasklist s) p (tasksqueued s) (at_pc s) (taskqueue s)
          (donequeue s) (workers s) (world s) (saved s) (trace s).

Definition set_donequeue (dq : list ditem) (s : state) : state :=
  mkState (tasklist s) (pending s) (tasksqueued s) (at_pc s) (taskqueue s)
          dq (workers s) (world s) (saved s) (trace s).

Definition log (evs : list event) (s : state) : state :=
  mkState (tasklist s) (pending s) (tasksqueued s) (at_pc s) (taskqueue s)
          (donequeue s) (workers s) (world s) (saved s) (trace s ++ evs).

(** ** ParallelMake *)

(** [tasksqueued += 1; taskqueue.put(task)] *)
Definition dispatch (t : task) (s : state) : state :=
  mkState (tasklist s) (pending s) (tasksqueued s + 1) (at_pc s)
          (taskqueue s ++ [Job t]) (donequeue s) (workers s) (world s)
          (saved s) (trace s ++ [EvPut t (pending s)]).

(** The [for task in tasklist] scan of one cycle.  [extras] collects the
    tasks kept for the next cycle; the third component is the key of a
    KeyError raised by [del pending[target]]. *)
Fixpoint scan (todo extras : list task) (s : state)
  : state * list task * option string :=
  match todo with
  | [] => (s, extras, None)
  | t :: rest =>
      if (tasksqueued s <? THREADCOUNT) && AllSourcesReady t (pending s) then
        if NeedsBuild (world s) (t_outs t) (t_deps t) then
          scan rest extras
            (dispatch t (log [EvNeedsBuild (t_outs t) (t_deps t) true] s))
        else
          let s1 := log [EvNeedsBuild (t_outs t) (t_deps t) false] s in
          let '(p, ds, err) := del_targets (t_outs t) (pending s1) in
          let s2 := log (map (EvDelSkipped t) ds) (set_pending p s1) in
          match err with
          | Some k => (s2, extras, Some k)
          | None => scan rest extras s2
          end
      else scan rest (extras ++ [t]) s
  end.

(** Modelled from the spec: [exit(msg)].  The name may come from
    makepandacore ([from makepandacore import *]), which is not among the
    sources.  The spec has every fatal condition unwind to the cleanup path
    and the process end with a non-zero status; that is what Python's own
    [exit] does by raising SystemExit, and what is modelled here. *)
Definition exit (m : exit_msg) (s : state) : state :=
  set_pc (AtFinally (SystemExit m)) (log [EvExit m] s).

(** [for slave in range(THREADCOUNT): taskqueue.put(0)] *)
Definition stop_workers (s : state) : state :=
  let n := Z.to_nat THREADCOUNT in
  mkState (tasklist s) (pending s) (tasksqueued s) (at_pc s)
          (taskqueue s ++ replicate n Stop) (donequeue s) (workers s) (world s)
          (saved s) (trace s ++ replicate n EvPutStop).

(** After the loop: one [taskqueue.put(0)] per worker, then the check for
    unsatisfied tasks. *)
Definition ParallelMake_exit (s : state) : state :=
  let s1 := stop_workers s in
  if 0 <? Z.of_nat (length (tasklist s1)) then
    exit (DependencyProblems (length (tasklist s1))
            (match tasklist s1 with t :: _ => t_outs t | [] => [] end))
         s1
  else set_pc (AtFinally Returns) s1.

(** From [sys.stdout.flush()] to [donequeue.get()]: [continue], [break] or
    block on the completion queue. *)
Definition ParallelMake_rest (s : state) : state :=
  if tasksqueued s =? 0 then
    if 0 <? Z.of_nat (length (tasklist s)) then set_pc AtLoop s
    else ParallelMake_exit s
  else set_pc AtGet s.

(** One pass of [while True] up to [donequeue.get()]. *)
Definition ParallelMake_cycle (s : state) : state :=
  if tasksqueued s <? THREADCOUNT then
    let '(s', extras, err) := scan (tasklist s) [] s in
    match err with
    | None => ParallelMake_rest (set_tasklist extras s')
    | Some k => set_pc (AtFinally (KeyError k)) s'
    end
  else ParallelMake_rest s.

(** The rest of the pass, once [donequeue.get()] has returned [d]. *)
Definition ParallelMake_done (d : ditem) (s : state) : state :=
  match d with
  | Failed => exit BuildAborting (log [EvGet Failed] s)
  | Done t =>
      let w := JustBuilt (world s) (t_outs t) (t_deps t) in
      let '(p, ds, err) := del_targets (t_outs t) (pending s) in
      mkState (tasklist s) p (tasksqueued s - 1)
              (match err with Some k => AtFinally (KeyError k) | None => AtLoop end)
              (taskqueue s) (donequeue s) (workers s) w (saved s)
              (trace s ++ [EvGet (Done t); EvJustBuilt (t_outs t) (t_deps t)]
                 ++ map (EvDelDone t) ds)
  end.

(** Entry of [ParallelMake]: the pending table and the worker threads. *)
Definition ParallelMake_enter (s : state) : state :=
  mkState (tasklist s) (seed_pending (tasklist s)) 0 AtLoop
          (taskqueue s) (donequeue s)
          (replicate (Z.to_nat THREADCOUNT) WIdle) (world s) (saved s) (trace s).

(** ** SequentialMake *)

Fixpoint SequentialMake_from (i n : nat) (todo : list task) (w : World)
  : outcome * World * list event :=
  match todo with
  | [] => (Returns, w, [])
  | t :: rest =>
      if NeedsBuild w (t_outs t) (t_deps t) then
        let '(ok, w1) := run_action t (Some (i, n)) w in
        if ok then
          let '(o, w2, evs) :=
            SequentialMake_from (S i) n rest (JustBuilt w1 (t_outs t) (t_deps t)) in
          (o, w2, EvNeedsBuild (t_outs t) (t_deps t) true
                    :: EvCall t (Some (i, n)) true
                    :: EvJustBuilt (t_outs t) (t_deps t) :: evs)
        else
          (ActionRaised t, w1,
           [EvNeedsBuild (t_outs t) (t_deps t) true; EvCall t (Some (i, n)) false])
      else
        let '(o, w2, evs) := SequentialMake_from (S i) n rest w in
        (o, w2, EvNeedsBuild (t_outs t) (t_deps t) false :: evs)
  end.

Definition SequentialMake (tl : list task) (w : World)
  : outcome * World * list event :=
  SequentialMake_from 0 (length tl) tl w.

(** ** RunDependencyQueue and the main thread *)

Definition RunDependencyQueue (s : state) : state :=
  if negb (THREADCOUNT =? 0) then ParallelMake_enter s
  else
    let '(o, w, evs) := SequentialMake (tasklist s) (world s) in
    mkState (tasklist s) (pending s) (tasksqueued s) (AtFinally o)
            (taskqueue s) (donequeue s) (workers s) w (saved s)
            (trace s ++ evs).

(** [finally: SaveDependencyCache()].  The function is one of makepandacore
    (not among the sources) and writes the whole in-memory cache to its file;
    here it stores the world as it is, and the clause is left with the
    outcome it was entered with. *)
Definition SaveDependencyCache (o : outcome) (s : state) : state :=
  mkState (tasklist s) (pending s) (tasksqueued s) (AtEnd o)
          (taskqueue s) (donequeue s) (workers s) (world s)
          (saved s ++ [world s]) (trace s ++ [EvSave]).

Definition main_step (s : state) : option state :=
  match at_pc s with
  | AtStart => Some (RunDependencyQueue s)
  | AtLoop => Some (ParallelMake_cycle s)
  | AtGet =>
      match donequeue s with
      | [] => None
      | d :: dq =>
          Some (ParallelMake_done d (set_donequeue dq s))
      end
  | AtFinally o => Some (SaveDependencyCache o s)
  | AtEnd _ => None
  end.

(** ** BuildWorker *)

Definition set_worker (i : nat) (ws : wstate) (q : list qitem) (s : state) : state :=
  mkState (tasklist s) (pending s) (tasksqueued s) (at_pc s) q
          (donequeue s) (<[i := ws]> (workers s)) (world s) (saved s) (trace s).

(** One step of worker [i]: either [taskqueue.get()] returns, or the action
    it is running ends and the result is put on [donequeue]. *)
Definition BuildWorker (i : nat) (s : state) : option state :=
  match workers s !! i with
  | Some WIdle =>
      match taskqueue s with
      | [] => None
      | Stop :: q => Some (set_worker i WReturned q s)
      | Job t :: q => Some (set_worker i (WBusy t) q s)
      end
  | Some (WBusy t) =>
      let '(ok, w) := run_action t None (world s) in
      let d := if ok then Done t else Failed in
      Some (mkState (tasklist s) (pending s) (tasksqueued s) (at_pc s)
                    (taskqueue s) (donequeue s ++ [d])
                    (<[i := WIdle]> (workers s)) w (saved s)
                    (trace s ++ [EvCall t None ok; EvDonePut d]))
  | _ => None
  end.

(** ** The whole program *)

Inductive label := Main | Worker (i : nat).

Definition step (l : label) (s : state) : option state :=
  match l with
  | Main => main_step s
  | Worker i => BuildWorker i s
  end.

Fixpoint run (ls : list label) (s : state) : option state :=
  match ls with
  | [] => Some s
  | l :: rest => match step l s with Some s' => run rest s' | None => None end
  end.

Definition init (tasklist0 : list task) (w : World) : state :=
  mkState tasklist0 ∅ 0 AtStart [] [] [] w [] [].

(** The state after the schedule [ls] (the initial state when [ls] asks for
    a step that cannot be taken). *)
Definition exec (ls : list label) (tasklist0 : list task) (w : World)
  : state :=
  match run ls (init tasklist0 w) with
  | Some s => s
  | None => init tasklist0 w
  end.

Inductive reachable (tl : list task) (w : World) : state -> Prop :=
| reach_init : reachable tl w (init tl w)
| reach_step l s s' :
    reachable tl w s -> step l s = Some s' -> reachable tl w s'.

(** ** The loop, one statement at a time

    [mstep] splits the scan of [ParallelMake_cycle] into its iterations, so
    that a property can be checked at every point of the loop and not only
    between two passes.  The first component is the list of tasks not yet
    handed out in the current pass ([extras] followed by the tasks the [for]
    has not reached). *)
Inductive mstep : list task * state -> list task * state -> Prop :=
| m_enter s :
    at_pc s = AtStart -> (THREADCOUNT =? 0) = false ->
    mstep (tasklist s, s) (tasklist s, ParallelMake_enter s)
| m_sequential s :
    at_pc s = AtStart -> (THREADCOUNT =? 0) = true ->
    mstep (tasklist s, s) (tasklist s, RunDependencyQueue s)
| m_dispatch ex t rest s :
    at_pc s = AtLoop -> tasksqueued s < THREADCOUNT ->
    AllSourcesReady t (pending s) = true ->
    NeedsBuild (world s) (t_outs t) (t_deps t) = true ->
    mstep (ex ++ t :: rest, s)
          (ex ++ rest, dispatch t (log [EvNeedsBuild (t_outs t) (t_deps t) true] s))
| m_skip ex t rest s p ds :
    at_pc s = AtLoop -> tasksqueued s < THREADCOUNT ->
    AllSourcesReady t (pending s) = true ->
    NeedsBuild (world s) (t_outs t) (t_deps t) = false ->
    del_targets (t_outs t) (pending s) = (p, ds, None) ->
    mstep (ex ++ t :: rest, s)
          (ex ++ rest,
           log (map (EvDelSkipped t) ds)
               (set_pending p (log [EvNeedsBuild (t_outs t) (t_deps t) false] s)))
| m_skip_raise ex t rest s p ds k :
    at_pc s = AtLoop -> tasksqueued s < THREADCOUNT ->
    AllSourcesReady t (pending s) = true ->
    NeedsBuild (world s) (t_outs t) (t_deps t) = false ->
    del_targets (t_outs t) (pending s) = (p, ds, Some k) ->
    mstep (ex ++ t :: rest, s)
          (tasklist s,
           set_pc (AtFinally (KeyError k))
             (log (map (EvDelSkipped t) ds)
                (set_pending p (log [EvNeedsBuild (t_outs t) (t_deps t) false] s))))
| m_rest vt s :
    at_pc s = AtLoop ->
    mstep (vt, s) (vt, ParallelMake_rest (set_tasklist vt s))
| m_done vt s d dq :
    at_pc s = AtGet -> donequeue s = d :: dq ->
    mstep (vt, s) (vt, ParallelMake_done d (set_donequeue dq s))
| m_save vt s o :
    at_pc s = AtFinally o ->
    mstep (vt, s) (vt, SaveDependencyCache o s)
| m_worker vt i s s' :
    BuildWorker i s = Some s' ->
    mstep (vt, s) (vt, s').

End Scheduler.

Arguments mkState {World}.
Arguments tasklist {World} s.
Arguments pending {World} s.
Arguments tasksqueued {World} s.
Arguments at_pc {World} s.
Arguments taskqueue {World} s.
Arguments donequeue {World} s.
Arguments workers {World} s.
Arguments world {World} s.
Arguments saved {World} s.
Arguments trace {World} s.
Arguments set_pc {World} p s.
Arguments set_tasklist {World} tl s.
Arguments set_pending {World} p s.
Arguments set_donequeue {World} dq s.
Arguments log {World} evs s.
Arguments dispatch {World} t s.
Arguments init {World} tasklist0 w.

(** ** Reading queues and traces *)

Definition jobs (q : list qitem) : list task :=
  omap (fun x => match x with Job t => Some t | Stop => None end) q.

Definition busy (ws : list wstate) : list task :=
  omap (fun x => match x with WBusy t => Some t | _ => None end) ws.

(** Tasks handed to [taskqueue.put]. *)
Definition puts (tr : list event) : list task :=
  omap (fun e => match e with EvPut t _ => Some t | _ => None end) tr.

(** What [donequeue.get()] returned, in order. *)
Definition gets (tr : list event) : list ditem :=
  omap (fun e => match e with EvGet d => Some d | _ => None end) tr.

Definition gets_done (tr : list event) : list task :=
  omap (fun e => match e with EvGet (Done t) => Some t | _ => None end) tr.

(** Keys removed from [pending], by either [del]. *)
Definition dels (tr : list event) : list string :=
  omap (fun e => match e with
                 | EvDelSkipped _ k | EvDelDone _ k => Some k
                 | _ => None
                 end) tr.

Definition removals (k : string) (tr : list event) : nat :=
  length (filter (fun x => x = k) (dels tr)).

Definition doneputs (tr : list event) : list ditem :=
  omap (fun e => match e with EvDonePut d => Some d | _ => None end) tr.

(** What each action run by a worker amounts to: the task, or 0. *)
Definition worker_results (tr : list event) : list ditem :=
  omap (fun e => match e with
                 | EvCall t None ok => Some (if ok then Done t else Failed)
                 | _ => None
                 end) tr.

(** All actions invoked, by a worker or by SequentialMake. *)
Definition calls (tr : list event) : list task :=
  omap (fun e => match e with EvCall t _ _ => Some t | _ => None end) tr.

Definition justbuilts (tr : list event) : list (list string * list string) :=
  omap (fun e => match e with EvJustBuilt f o => Some (f, o) | _ => None end) tr.

(** Tasks whose action was run to the end and seen by the main thread: a
    success taken from [donequeue], or a call of SequentialMake that
    returned. *)
Definition completions (tr : list event) : list (list string * list string) :=
  omap (fun e => match e with
                 | EvGet (Done t) => Some (t_outs t, t_deps t)
                 | EvCall t (Some _) true => Some (t_outs t, t_deps t)
                 | _ => None
                 end) tr.

(** How many times SaveDependencyCache was called. *)
Definition saves (tr : list event) : nat :=
  length (omap (fun e => match e with EvSave => Some tt | _ => None end) tr).

(** The Pending Set after the deletions of a trace. *)
Definition replay_pending (seed : gmap string nat) (tr : list event)
  : gmap string nat :=
  foldl (fun p e => match e with
                    | EvDelSkipped _ k | EvDelDone _ k => delete k p
                    | _ => p
                    end) seed tr.

(** The three lists [AllSourcesReady] goes through. *)
Definition sources (t : task) : list string :=
  t_deps t ++ t_inputs t ++ t_alts t.

(** What must have happened before an event [e], given the history [hist]
    and the task list [tl] the program was started on. *)
Definition justified (tl : list task) (hist : list event) (e : event) : Prop :=
  match e with
  | EvNeedsBuild f o _ => exists t, t ∈ tl /\ f = t_outs t /\ o = t_deps t
  | EvJustBuilt f o => exists t, t ∈ tl /\ f = t_outs t /\ o = t_deps t
  | EvPut t p =>
      t ∈ tl /\ p = replay_pending (seed_pending tl) hist /\
      AllSourcesReady t p = true /\
      EvNeedsBuild (t_outs t) (t_deps t) true ∈ hist
  | EvDelSkipped t k =>
      t ∈ tl /\ k ∈ t_outs t /\ EvNeedsBuild (t_outs t) (t_deps t) false ∈ hist
  | EvGet (Done t) => EvDonePut (Done t) ∈ hist
  | EvGet Failed => EvDonePut Failed ∈ hist
  | EvDelDone t k => t ∈ tl /\ k ∈ t_outs t /\ EvGet (Done t) ∈ hist
  | EvCall t None _ => t ∈ tl /\ exists p, EvPut t p ∈ hist
  | EvCall t (Some _) _ => t ∈ tl
  | EvDonePut (Done t) => EvCall t None true ∈ hist
  | EvDonePut Failed => exists t, EvCall t None false ∈ hist
  | EvPutStop | EvExit _ | EvSave => True
  end.

Inductive justified_trace (tl : list task) : list event -> Prop :=
| jt_nil : justified_trace tl []
| jt_snoc tr e :
    justified_trace tl tr -> justified tl tr e -> justified_trace tl (tr ++ [e]).

Definition aborted (p : pc) : Prop :=
  match p with
  | AtFinally o | AtEnd o => o <> Returns
  | _ => False
  end.

Definition returned (p : pc) : Prop :=
  p = AtFinally Returns \/ p = AtEnd Returns.

(** ** Dependency order *)

(** [t'] produces something [t] waits for. *)
Definition feeds (t' t : task) : Prop :=
  exists x, x ∈ t_outs t' /\ x ∈ sources t.

(** The main thread is through with [t]: it found it up to date, or it
    recorded it as built. *)
Definition processed (t : task) (hist : list event) : Prop :=
  EvNeedsBuild (t_outs t) (t_deps t) false ∈ hist \/
  EvJustBuilt (t_outs t) (t_deps t) ∈ hist.

(** No action starts before the tasks that feed its task are through. *)
Definition respects_deps (tl : list task) (tr : list event) : Prop :=
  forall pre t p ok post, tr = pre ++ EvCall t p ok :: post ->
    forall t', t' ∈ tl -> feeds t' t -> processed t' pre.

(** The list names every producer before its consumers. *)
Definition producers_first (tl : list task) : Prop :=
  forall pre t post, tl = pre ++ t :: post ->
    forall t', t' ∈ t :: post -> ~ feeds t' t.

(** ** More readers of queues and traces *)

(** Successes waiting on [donequeue]. *)
Definition dones (dq : list ditem) : list task :=
  omap (fun d => match d with Done t => Some t | Failed => None end) dq.

(** Stop values waiting on [taskqueue]. *)
Definition stops (q : list qitem) : nat :=
  length (omap (fun x => match x with Stop => Some tt | Job _ => None end) q).

(** Workers that have left their loop. *)
Definition gone (ws : list wstate) : nat :=
  length (omap (fun x => match x with WReturned => Some tt | _ => None end) ws).

(** Actions run by a worker. *)
Definition ran (tr : list event) : list task :=
  omap (fun e => match e with EvCall t None _ => Some t | _ => None end) tr.

(** Calls of NeedsBuild, with their result. *)
Definition checks (tr : list event)
  : list (list string * list string * bool) :=
  omap (fun e => match e with
                 | EvNeedsBuild f o b => Some (f, o, b)
                 | _ => None
                 end) tr.

(** All the outputs of a list of tasks, in order. *)
Definition outputs (l : list task) : list string := l ≫= t_outs.

(** The tasks that are not through yet: still on the list, on the task
    queue, in the hands of a worker, or done and waiting to be taken from
    the completion queue. *)
Definition unfinished {World : Type} (vt : list task) (s : state World)
  : list task :=
  vt ++ jobs (taskqueue s) ++ busy (workers s) ++ dones (donequeue s).

Definition running (p : pc) : Prop := p = AtLoop \/ p = AtGet.

Definition key_error (p : pc) : Prop :=
  exists k, p = AtFinally (KeyError k) \/ p = AtEnd (KeyError k).

(** What the loop of ParallelMake logs for a ready task that is up to
    date. *)
Definition skip_events (t : task) : list event :=
  EvNeedsBuild (t_outs t) (t_deps t) false :: map (EvDelSkipped t) (t_outs t).

(** A bound on the number of steps the program can still take: what each
    task, queue entry and stop value has ahead of it, and what the main
    thread has ahead of it at its program point ([n] is the number of
    workers). *)
Definition pc_weight (n : nat) (p : pc) : nat :=
  match p with
  | AtStart => n + 4
  | AtLoop => n + 3
  | AtGet => n + 2
  | AtFinally _ => 1
  | AtEnd _ => 0
  end.

Definition steps_left {World : Type} (n : nat) (s : state World) : nat :=
  5 * length (tasklist s) + 4 * length (jobs (taskqueue s))
  + 3 * length (busy (workers s)) + 2 * length (donequeue s)
  + stops (taskqueue s) + pc_weight n (at_pc s).

(** ** Text

    The names handled below are Python [str] values.  They are modelled as
    Rocq strings (sequences of bytes, the UTF-8 encoding of the text); the
    operations used on them test for and cut off ASCII text only, which
    gives the same result on the encoding as on the text. *)

Definition chars (s : string) : list ascii := String.list_ascii_of_string s.
Definition text (l : list ascii) : string := String.string_of_list_ascii l.

(** [s.startswith(pre)], [s.endswith(suf)], [c in s] *)
Definition startswith (s pre : string) : bool :=
  bool_decide (chars pre `prefix_of` chars s).
Definition endswith (s suf : string) : bool :=
  bool_decide (chars suf `suffix_of` chars s).
Definition contains_char (c : ascii) (s : string) : bool :=
  bool_decide (c ∈ chars s).

(** [s[:-k]] for a positive [k] *)
Definition drop_last (k : nat) (s : string) : string :=
  text (take (length (chars s) - k) (chars s)).

(** The double quote character, and the string made of it. *)
Definition dquote : ascii := Eval cbv in ascii_of_nat 34.
Definition QUOTE : string := String dquote EmptyString.

(** ** BracketNameWithQuotes *)

Definition BracketNameWithQuotes (name : string) : string :=
  (* Workaround for OSX bug - compiler doesn't like those flags quoted. *)
  if startswith name "-framework" then name
  else if startswith name "-dylib_file" then name
  else if startswith name "-undefined " then name
  (* Don't add quotes when it's not necessary. *)
  else if negb (contains_char " " name) then name
  (* Account for quoted name (leave as is) but quote everything else *)
  else if startswith name QUOTE && endswith name QUOTE then name
  else QUOTE +:+ name +:+ QUOTE.

(** The flags that are passed on as they are. *)
Definition unquoted_flag (name : string) : bool :=
  startswith name "-framework" || startswith name "-dylib_file"
  || startswith name "-undefined ".

(** ** The versioned name of a dynamic library *)

(** What [s.lower()] does to a byte of the encoding. *)
Definition lower_ascii (c : ascii) : ascii :=
  let n := nat_of_ascii c in
  if (65 <=? n)%nat && (n <=? 90)%nat then ascii_of_nat (n + 32) else c.

Definition lower (s : string) : string := text (map lower_ascii (chars s)).

(** CompileAnything, for a target with the original suffix [.dll] and
    without the option MODULE: the name the library is linked under. *)
Definition versioned_target (tplatform MAJOR_VERSION target : string) : string :=
  if String.eqb tplatform "darwin" then
    (* On Mac, libraries are named like libpanda.1.2.dylib *)
    if endswith (lower target) ".dylib" then
      drop_last 5 target +:+ MAJOR_VERSION +:+ ".dylib"
    else target
  else if negb (bool_decide (tplatform ∈ ["windows"; "android"; "emscripten"])) then
    (* On Linux, libraries are named like libpanda.so.1.2 *)
    target +:+ "." +:+ MAJOR_VERSION
  else target.

(** CompileLink with GCC, after the link: the name of the symbolic link
    [ln -s basename(dll) newdll], if one is made. *)
Definition newdll (MAJOR_VERSION dll : string) : option string :=
  if endswith dll ("." +:+ MAJOR_VERSION +:+ ".dylib") then
    Some (drop_last (6 + String.length MAJOR_VERSION) dll +:+ "dylib")
  else if endswith dll ("." +:+ MAJOR_VERSION) then
    Some (drop_last (String.length MAJOR_VERSION + 1) dll)
  else None.

(** ** The numeric version

    VERSION is the text given with [--version] (or read from setup.cfg).
    It is a list of Unicode code points here, since the code computes with
    [ord(c)]. *)


(** [s.split(sep, maxsplit)] for a separator of one character; no
    [maxsplit] is [None]. *)
Fixpoint str_split (sep : Z) (maxsplit : option nat) (s : list Z) : list (list Z) :=
  match s with
  | [] => [[]]
  | c :: rest =>
      if (c =? sep) && (if maxsplit is Some n then (0 <? n)%nat else true) then
        [] :: str_split sep (if maxsplit is Some n then Some (pred n) else None) rest
      else
        match str_split sep maxsplit rest with
        | p :: ps => (c :: p) :: ps
        | [] => [[c]]
        end
  end.

(** [sep.join(parts)] *)
Fixpoint str_join (sep : list Z) (parts : list (list Z)) : list Z :=
  match parts with
  | [] => []
  | [p] => p
  | p :: ps => p ++ sep ++ str_join sep ps
  end.

(** The code point of the full stop. *)
Definition DOT : Z := 46.

(** [MAJOR_VERSION = '.'.join(VERSION.split('.')[:2])] *)
Definition MAJOR_VERSION_of (VERSION : list Z) : list Z :=
  str_join [DOT] (take 2 (str_split DOT None VERSION)).

(** [nversion = version1 * 1000000 + version2 * 1000 + version3], less one
    [if DISTRIBUTOR != "cmu"]. *)
Definition numeric_version (version1 version2 version3 : Z) (DISTRIBUTOR : string)
  : Z :=
  let nversion := version1 * 1000000 + version2 * 1000 + version3 in
  if String.eqb DISTRIBUTOR "cmu" then nversion else nversion - 1.

Section Version.

(** Python's [c.isdigit()] on a code point and [int(s)] on a text ([None]
    when it raises ValueError). *)
Variable isdigit : Z -> bool.
Variable int : list Z -> option Z.



End Version.


(** The order of versions, component by component. *)
Definition version_lt (a b : Z * Z * Z) : Prop :=
  a.1.1 < b.1.1 \/
  (a.1.1 = b.1.1 /\ (a.1.2 < b.1.2 \/ (a.1.2 = b.1.2 /\ a.2 < b.2))).



(** ** The platform tag on macOS *)

Definition frozenset (l : list string) : gset string := list_to_set l.

(** The architectures to build for, as parseopts leaves them; [None] when
    it exits on [--universal] given with [--arch]. *)
Definition parseopts_OSX_ARCHS (universal : bool) (target_archs : list string)
  (GetTarget GetTargetArch : string) : option (list string) :=
  if universal then
    if bool_decide (target_archs <> []) then None
    else Some ["x86_64"; "arm64"]
  else if bool_decide (target_archs <> []) then Some target_archs
  else if String.eqb GetTarget "darwin" then Some [GetTargetArch]
  else Some [].

(** [None] stands for the RuntimeError "No arch tag for arch combination". *)
Definition arch_tag (OSX_ARCHS : list string) (target_arch : string)
  : option string :=
  match OSX_ARCHS with
  | [] => Some target_arch
  | [a] => Some a
  | _ =>
      if bool_decide (frozenset OSX_ARCHS = frozenset ["i386"; "ppc"]) then
        Some "fat"
      else if bool_decide (frozenset OSX_ARCHS = frozenset ["x86_64"; "i386"]) then
        Some "intel"
      else if bool_decide (frozenset OSX_ARCHS = frozenset ["x86_64"; "ppc64"]) then
        Some "fat64"
      else if bool_decide (frozenset OSX_ARCHS
                           = frozenset ["x86_64"; "i386"; "ppc"]) then
        Some "fat32"
      else if bool_decide (frozenset OSX_ARCHS
                           = frozenset ["x86_64"; "i386"; "ppc64"; "ppc"]) then
        Some "universal"
      else if bool_decide (frozenset OSX_ARCHS = frozenset ["x86_64"; "arm64"]) then
        Some "universal2"
      else None
  end.

(** [PLATFORM] for the target darwin; [python_3_13] is
    [sys.version_info >= (3, 13)]. *)
Definition PLATFORM_darwin (OSX_ARCHS : list string) (target_arch : string)
  (python_3_13 : bool) : option string :=
  match arch_tag OSX_ARCHS target_arch with
  | None => None
  | Some tag =>
      Some (if String.eqb tag "arm64" then "macosx-11.0-" +:+ tag
            else if python_3_13 then "macosx-10.13-" +:+ tag
            else "macosx-10.9-" +:+ tag)
  end.

(** ** Small builds used as test cases *)

Module Examples.

(** The task that DEPENDENCYQUEUE holds for a target without options. *)
Definition target (name : string) (inputs deps : list string) : task :=
  mkTask "CompileAnything" name inputs [] [name] deps [].

Definition tA : task := target "a" ["a.cxx"] ["a.cxx"; "a.h"].
Definition tB : task := target "b" ["a"] ["a"; "b.h"].
Definition tC : task := target "c" ["c.cxx"] ["c.cxx"].

(** Two targets that wait for each other. *)
Definition tX : task := target "x" ["y"] ["y"].
Definition tY : task := target "y" ["x"] ["x"].

(** The world of the test cases: the outputs recorded by JustBuilt so far. *)
Definition built := list string.

Definition always_stale (w : built) (files others : list string) : bool := true.
Definition never_stale (w : built) (files others : list string) : bool := false.
Definition record (w : built) (files others : list string) : built := w ++ files.

Definition compiles (fn name : string) (inputs opts : list string)
  (p : progress) (w : built) : bool * built := (true, w).

(** An action that raises on the target [bad]. *)
Definition breaks_on (bad : string) (fn name : string) (inputs opts : list string)
  (p : progress) (w : built) : bool * built :=
  (negb (String.eqb name bad), w).

(** A width-1 build of [b] from [a], [b] listed first. *)
Definition build_ab (ls : list label) : state built :=
  exec built always_stale record compiles 1 ls [tB; tA] [].

Definition schedule_ab : list label :=
  [Main; Main; Worker 0; Worker 0; Main; Main; Worker 0; Worker 0; Main; Main;
   Main].




(** A width-1 build where everything is up to date. *)
Definition build_fresh (ls : list label) : state built :=
  exec built never_stale record compiles 1 ls [tA] [].


(** A width-2 build of [a] and [c] whose [bad] target does not compile. *)
Definition build_broken (bad : string) (ls : list label) : state built :=
  exec built always_stale record (breaks_on bad) 2 ls [tA; tC] [].

(** Both dispatched, both taken by a worker, worker 0 fails, the main thread
    sees the failure and leaves. *)
Definition schedule_broken : list label :=
  [Main; Main; Worker 0; Worker 1; Worker 0; Main; Main].

(** The cycle, with one worker. *)
Definition build_cycle (ls : list label) : option (state built) :=
  run built always_stale record compiles 1 ls (init [tX; tY] []).

Definition starved : state built :=
  mkState [tX; tY] (seed_pending [tX; tY]) 0 AtLoop [] [] [WIdle] [] [] [].

End Examples.

(** ** The claims that fail, as predicates on a run *)


(** Nothing dispatched is left unfinished when the program ends on a failure. *)
Definition drained {World : Type} (s : state World) : Prop :=
  jobs (taskqueue s) = [] /\ busy (workers s) = [] /\ donequeue s = [].

(** * Properties *)

(** ** Readiness and the pending table *)

Lemma none_pending_spec (l : list string) (p : gmap string nat) :
  none_pending l p = true <-> forall x, x ∈ l -> p !! x = None.
Proof.
  induction l as [|a l IH]; simpl.
  - split; [intros _ x Hx; inversion Hx | done].
  - unfold in_pending. case_bool_decide as Ha.
    + split; [done|]. intros H. specialize (H a (list_elem_of_here _ _)).
      rewrite H in Ha. by destruct Ha.
    + rewrite IH. split.
      * intros H x Hx. apply elem_of_cons in Hx as [->|Hx]; [|by apply H].
        by apply eq_None_not_Some.
      * intros H x Hx. apply H. by right.
Qed.

Lemma AllSourcesReady_spec (t : task) (p : gmap string nat) :
  AllSourcesReady t p = true <-> forall x, x ∈ sources t -> p !! x = None.
Proof.
  assert (AllSourcesReady t p
          = none_pending (t_deps t) p && none_pending (t_inputs t) p
            && none_pending (t_alts t) p) as ->.
  { unfold AllSourcesReady.
    by destruct (none_pending (t_deps t) p), (none_pending (t_inputs t) p),
                (none_pending (t_alts t) p). }
  rewrite !andb_true_iff, !none_pending_spec. unfold sources. split.
  - intros [[H1 H2] H3] x Hx. rewrite !elem_of_app in Hx.
    destruct Hx as [?|[?|?]]; auto.
  - intros H. repeat split; intros x Hx; apply H; rewrite !elem_of_app; auto.
Qed.

Lemma seed_targets_lookup (l : list string) (p : gmap string nat) (k : string) :
  is_Some (seed_targets l p !! k) <-> k ∈ l \/ is_Some (p !! k).
Proof.
  unfold seed_targets. revert p. induction l as [|a l IH]; intros p; simpl.
  - split; [auto|]. intros [H|H]; [inversion H|done].
  - rewrite IH, elem_of_cons, lookup_insert_is_Some. 
    destruct (decide (a = k)) as [->|Hne]; [tauto|].
    intuition congruence.
Qed.

Lemma seed_from_lookup (tl : list task) (p : gmap string nat) (k : string) :
  is_Some (foldl (fun p t => seed_targets (t_outs t) p) p tl !! k)
  <-> (exists t, t ∈ tl /\ k ∈ t_outs t) \/ is_Some (p !! k).
Proof.
  revert p. induction tl as [|a tl IH]; intros p; simpl.
  - split; [auto|]. intros [(t & H & _)|H]; [inversion H|done].
  - rewrite IH, seed_targets_lookup. split.
    + intros [(t & Ht & Hk)|[Hk|Hk]]; [left; exists t|left; exists a|right];
        rewrite ?elem_of_cons; auto.
    + intros [(t & Ht & Hk)|Hk]; [|auto].
      apply elem_of_cons in Ht as [->|Ht]; [auto|]. left. by exists t.
Qed.

Lemma seed_pending_lookup (tl : list task) (k : string) :
  is_Some (seed_pending tl !! k) <-> exists t, t ∈ tl /\ k ∈ t_outs t.
Proof.
  unfold seed_pending. rewrite seed_from_lookup, lookup_empty.
  split; [intros [H|H]; [done|by destruct H]|auto].
Qed.

(** [del_targets] removes exactly the keys it reports, each of which was
    present; nothing else changes. *)
Lemma del_targets_replay (ts : list string) (p p' : gmap string nat) ds err :
  del_targets ts p = (p', ds, err) ->
  p' = foldl (fun q k => delete k q) p ds.
Proof.
  revert p p' ds err. induction ts as [|k ts IH]; intros p p' ds err; simpl.
  - by intros [= <- <- <-].
  - destruct (p !! k) eqn:Hk; [|by intros [= <- <- <-]].
    destruct (del_targets ts (delete k p)) as [[q ds'] e'] eqn:E.
    intros [= <- <- <-]. simpl. by eapply IH.
Qed.

Lemma del_targets_count (ts : list string) (p p' : gmap string nat) ds err k :
  del_targets ts p = (p', ds, err) ->
  (length (filter (fun x => x = k) ds)
     + (if p' !! k is Some _ then 1 else 0) = if p !! k is Some _ then 1 else 0)%nat.
Proof.
  revert p p' ds err. induction ts as [|a ts IH]; intros p p' ds err; simpl.
  - by intros [= <- <- <-].
  - destruct (p !! a) eqn:Ha; [|by intros [= <- <- <-]].
    destruct (del_targets ts (delete a p)) as [[q ds'] e'] eqn:E.
    intros [= <- <- <-]. specialize (IH _ _ _ _ E).
    rewrite filter_cons. destruct (decide (a = k)) as [->|Hne].
    + rewrite lookup_delete_eq in IH. rewrite Ha. simpl. lia.
    + by rewrite lookup_delete_ne in IH.
Qed.

Lemma del_targets_prefix (ts : list string) (p p' : gmap string nat) ds err :
  del_targets ts p = (p', ds, err) ->
  (forall k, k ∈ ds -> k ∈ ts) /\ (err = None -> ds = ts).
Proof.
  revert p p' ds err. induction ts as [|a ts IH]; intros p p' ds err; simpl.
  - intros [= <- <- <-]. done.
  - destruct (p !! a) eqn:Ha.
    + destruct (del_targets ts (delete a p)) as [[q ds'] e'] eqn:E.
      intros [= <- <- <-]. destruct (IH _ _ _ _ E) as [H1 H2]. split.
      * intros k Hk. apply elem_of_cons in Hk as [->|Hk]; [left|right; auto].
      * intros He. by rewrite H2.
    + intros [= <- <- <-]. split; [intros k Hk; inversion Hk|done].
Qed.

Lemma del_targets_shrinks (ts : list string) (p p' : gmap string nat) ds err k :
  del_targets ts p = (p', ds, err) -> p !! k = None -> p' !! k = None.
Proof.
  intros H Hk. pose proof (del_targets_count _ _ _ _ _ k H) as Hc.
  rewrite Hk in Hc. destruct (p' !! k); [lia|done].
Qed.

Lemma del_targets_gone (ts : list string) (p p' : gmap string nat) ds k :
  del_targets ts p = (p', ds, None) -> k ∈ ts -> p' !! k = None.
Proof.
  revert p p' ds. induction ts as [|a ts IH]; intros p p' ds; simpl.
  - intros _ Hk. inversion Hk.
  - destruct (p !! a) eqn:Ha; [|done].
    destruct (del_targets ts (delete a p)) as [[q ds'] e'] eqn:E.
    intros [= <- <- ->] Hk. destruct (decide (k ∈ ts)) as [Hin|Hnin].
    + by eapply IH.
    + apply elem_of_cons in Hk as [->|Hk]; [|done].
      eapply del_targets_shrinks; [apply E|]. apply lookup_delete_eq.
Qed.

Lemma jobs_app (q1 q2 : list qitem) : jobs (q1 ++ q2) = jobs q1 ++ jobs q2.
Proof. apply omap_app. Qed.

Lemma jobs_replicate_Stop (n : nat) : jobs (replicate n Stop) = [].
Proof. induction n; simpl; auto. Qed.

Lemma elem_of_jobs (q : list qitem) (t : task) : t ∈ jobs q <-> Job t ∈ q.
Proof.
  unfold jobs. rewrite list_elem_of_omap. split.
  - intros (x & Hx & Ht). destruct x; [done|]. by injection Ht as ->.
  - intros H. by exists (Job t).
Qed.

Lemma elem_of_busy (ws : list wstate) (t : task) : t ∈ busy ws <-> WBusy t ∈ ws.
Proof.
  unfold busy. rewrite list_elem_of_omap. split.
  - intros (x & Hx & Ht). destruct x; try done. by injection Ht as ->.
  - intros H. by exists (WBusy t).
Qed.

(** Replacing the state of one worker. *)
Lemma busy_insert_length (ws : list wstate) (i : nat) (x y : wstate) :
  ws !! i = Some x ->
  (length (busy (<[i := y]> ws)) + length (busy [x])
   = length (busy ws) + length (busy [y]))%nat.
Proof.
  revert i. induction ws as [|a ws IH]; intros [|i]; simpl; try done.
  - intros [= ->]. destruct x, y; simpl; lia.
  - intros H. specialize (IH _ H). unfold busy in *. simpl in *.
    destruct a; simpl; lia.
Qed.

Lemma elem_of_insert_worker (ws : list wstate) (i : nat) (x y : wstate) :
  x ∈ <[i := y]> ws -> x = y \/ x ∈ ws.
Proof.
  revert i. induction ws as [|a ws IH]; intros [|i]; simpl; auto.
  - intros H. apply elem_of_cons in H as [->|H]; [auto|]. right. by right.
  - intros H. apply elem_of_cons in H as [->|H]; [right; left|].
    destruct (IH _ H) as [->|H']; [auto|]. right. by right.
Qed.

Section Proofs.

Context {World : Type}.
Variable NeedsBuild : World -> list string -> list string -> bool.
Variable JustBuilt : World -> list string -> list string -> World.
Variable call :
  string -> string -> list string -> list string -> progress -> World ->
  bool * World.
Variable THREADCOUNT : Z.

Local Abbreviation act' := (run_action World call).
Local Abbreviation scan' := (scan World NeedsBuild THREADCOUNT).
Local Abbreviation cycle' := (ParallelMake_cycle World NeedsBuild THREADCOUNT).
Local Abbreviation rest' := (ParallelMake_rest World THREADCOUNT).
Local Abbreviation exit' := (ParallelMake_exit World THREADCOUNT).
Local Abbreviation done' := (ParallelMake_done World JustBuilt).
Local Abbreviation enter' := (ParallelMake_enter World THREADCOUNT).
Local Abbreviation seq_from' := (SequentialMake_from World NeedsBuild JustBuilt call).
Local Abbreviation seq' := (SequentialMake World NeedsBuild JustBuilt call).
Local Abbreviation rdq' := (RunDependencyQueue World NeedsBuild JustBuilt call THREADCOUNT).
Local Abbreviation save' := (SaveDependencyCache World).
Local Abbreviation main' := (main_step World NeedsBuild JustBuilt call THREADCOUNT).
Local Abbreviation worker' := (BuildWorker World call).
Local Abbreviation step' := (step World NeedsBuild JustBuilt call THREADCOUNT).
Local Abbreviation run' := (run World NeedsBuild JustBuilt call THREADCOUNT).
Local Abbreviation reachable' := (reachable World NeedsBuild JustBuilt call THREADCOUNT).
Local Abbreviation mstep' := (mstep World NeedsBuild JustBuilt call THREADCOUNT).

Implicit Types (s : state World) (t : task) (vt tl : list task).

Definition mreach tl (w : World) vt s : Prop :=
  rtc mstep' (tl, init tl w) (vt, s).

Lemma set_tasklist_same s : set_tasklist (tasklist s) s = s.
Proof. by destruct s. Qed.

(** The scan is a sequence of [mstep]s ([suf] stands for the tasks after
    the part of the list that is scanned). *)
Lemma scan_msteps todo suf ex s s' ex' err :
  at_pc s = AtLoop ->
  scan' todo ex s = (s', ex', err) ->
  tasklist s' = tasklist s /\
  match err with
  | None => at_pc s' = AtLoop /\ rtc mstep' (ex ++ todo ++ suf, s) (ex' ++ suf, s')
  | Some k =>
      rtc mstep' (ex ++ todo ++ suf, s)
          (tasklist s, set_pc (AtFinally (KeyError k)) s')
  end.
Proof.
  revert ex s. induction todo as [|t rest IH]; intros ex s Hpc; simpl.
  - intros [= <- <- <-]. done.
  - destruct (tasksqueued s <? THREADCOUNT) eqn:Hq; simpl.
    2:{ intros H. apply IH in H; [|done].
        by rewrite <- app_assoc in H. }
    apply Z.ltb_lt in Hq.
    destruct (AllSourcesReady t (pending s)) eqn:Hr; simpl.
    2:{ intros H. apply IH in H; [|done].
        by rewrite <- app_assoc in H. }
    destruct (NeedsBuild (world s) (t_outs t) (t_deps t)) eqn:Hn.
    + intros H. apply IH in H as [Htl H]; [|done]. split; [done|].
      simpl in H. destruct err; [|destruct H as [? H]; split; [done|]];
        (eapply rtc_l; [by apply m_dispatch|apply H]).
    + destruct (del_targets (t_outs t) (pending s)) as [[p ds] e] eqn:Hd.
      simpl. destruct e as [k|].
      * intros [= <- <- <-]. split; [done|].
        apply rtc_once. by eapply m_skip_raise.
      * intros H. apply IH in H as [Htl H]; [|done]. split; [done|].
        simpl in H. destruct err; [|destruct H as [? H]; split; [done|]];
          (eapply rtc_l; [by eapply m_skip|apply H]).
Qed.

Lemma step_msteps l s s' :
  step' l s = Some s' -> rtc mstep' (tasklist s, s) (tasklist s', s').
Proof.
  destruct l as [|i]; simpl.
  - unfold main_step. destruct (at_pc s) eqn:Hpc.
    + intros [= <-]. unfold RunDependencyQueue.
      destruct (THREADCOUNT =? 0) eqn:HT; simpl.
      * pose proof (m_sequential World NeedsBuild JustBuilt call THREADCOUNT s
                      Hpc HT) as H.
        unfold RunDependencyQueue in H. rewrite HT in H. simpl in H.
        destruct (seq' (tasklist s) (world s)) as [[o w] evs].
        by apply rtc_once.
      * apply rtc_once.
        by apply (m_enter World NeedsBuild JustBuilt call THREADCOUNT s).
    + intros [= <-]. unfold ParallelMake_cycle.
      destruct (tasksqueued s <? THREADCOUNT).
      * destruct (scan' (tasklist s) [] s) as [[s1 ex] err] eqn:Hs.
        apply (scan_msteps _ []) in Hs as [Htl Hs]; [|done].
        rewrite !app_nil_r in Hs. destruct err as [k|].
        -- simpl in *. by rewrite Htl.
        -- destruct Hs as [Hpc1 Hs]. simpl in Hs.
           eapply rtc_r; [apply Hs|].
           assert (tasklist (rest' (set_tasklist ex s1)) = ex) as ->.
           { unfold ParallelMake_rest, ParallelMake_exit. simpl.
             by repeat case_match. }
           by apply m_rest.
      * apply rtc_once.
        assert (tasklist (rest' s) = tasklist s) as ->.
        { unfold ParallelMake_rest, ParallelMake_exit. simpl.
          by repeat case_match. }
        rewrite <- (set_tasklist_same s) at 3. by apply m_rest.
    + destruct (donequeue s) as [|d dq] eqn:Hdq; [done|]. intros [= <-].
      apply rtc_once.
      assert (tasklist (done' d (set_donequeue dq s)) = tasklist s) as ->.
      { unfold ParallelMake_done. simpl. by repeat case_match. }
      by apply m_done.
    + intros [= <-]. apply rtc_once. simpl. by apply m_save.
    + done.
  - intros H. apply rtc_once.
    assert (tasklist s' = tasklist s) as ->.
    { unfold BuildWorker in H. repeat case_match; try done;
        injection H as <-; done. }
    by eapply m_worker.
Qed.

Lemma reachable_mreach tl w s :
  reachable' tl w s -> mreach tl w (tasklist s) s.
Proof.
  induction 1 as [|l s s' _ IH Hstep]; [apply rtc_refl|].
  eapply rtc_trans; [apply IH|]. by eapply step_msteps.
Qed.

Lemma run_reachable tl w ls s s' :
  reachable' tl w s -> run' ls s = Some s' -> reachable' tl w s'.
Proof.
  revert s. induction ls as [|l ls IH]; intros s Hs; simpl.
  - by intros [= <-].
  - destruct (step' l s) as [s1|] eqn:E; [|done].
    apply IH. by eapply reach_step.
Qed.

(** An invariant of the loop taken one statement at a time holds in every
    state the program reaches. *)
Lemma mreach_ind (I : list task -> state World -> Prop) tl w :
  I tl (init tl w) ->
  (forall vt s vt' s', mreach tl w vt s -> I vt s ->
     mstep' (vt, s) (vt', s') -> I vt' s') ->
  forall vt s, mreach tl w vt s -> I vt s.
Proof.
  intros Hi Hs vt s H.
  assert (forall y, rtc mstep' (tl, init tl w) y ->
                    rtc mstep' (tl, init tl w) y /\ I y.1 y.2) as Hall.
  { apply (rtc_ind_r (fun y => rtc mstep' (tl, init tl w) y /\ I y.1 y.2)).
    - split; [apply rtc_refl|done].
    - intros [vt0 s0] [vt1 s1] H0 H1 [IH1 IH2]. simpl in *.
      split; [by eapply rtc_r|]. by eapply Hs. }
  apply (Hall (vt, s) H).
Qed.

Lemma BuildWorker_inv i s s' :
  worker' i s = Some s' ->
  (exists q, workers s !! i = Some WIdle /\ taskqueue s = Stop :: q /\
             s' = set_worker World i WReturned q s) \/
  (exists t q, workers s !! i = Some WIdle /\ taskqueue s = Job t :: q /\
               s' = set_worker World i (WBusy t) q s) \/
  (exists t ok w, workers s !! i = Some (WBusy t) /\
     act' t None (world s) = (ok, w) /\
     s' = mkState (tasklist s) (pending s) (tasksqueued s) (at_pc s)
            (taskqueue s) (donequeue s ++ [if ok then Done t else Failed])
            (<[i := WIdle]> (workers s)) w (saved s)
            (trace s ++ [EvCall t None ok;
                         EvDonePut (if ok then Done t else Failed)])).
Proof.
  unfold BuildWorker. destruct (workers s !! i) as [[|t|]|] eqn:Hw; try done.
  - destruct (taskqueue s) as [|[|t] q] eqn:Hq; try done; intros [= <-].
    + left. eauto.
    + right. left. eauto.
  - destruct (act' t None (world s)) as [ok w] eqn:Hc. intros [= <-].
    right. right. exists t, ok, w. done.
Qed.

(** The induction principle used for every invariant below: one case per
    statement of the program. *)
Lemma mreach_cases (I : list task -> state World -> Prop) tl w :
  I tl (init tl w) ->
  (forall s, mreach tl w (tasklist s) s -> I (tasklist s) s -> at_pc s = AtStart ->
     (THREADCOUNT =? 0) = false -> I (tasklist s) (enter' s)) ->
  (forall s o w' evs, mreach tl w (tasklist s) s -> I (tasklist s) s ->
     at_pc s = AtStart ->
     (THREADCOUNT =? 0) = true ->
     seq' (tasklist s) (world s) = (o, w', evs) ->
     I (tasklist s)
       (mkState (tasklist s) (pending s) (tasksqueued s) (AtFinally o)
          (taskqueue s) (donequeue s) (workers s) w' (saved s)
          (trace s ++ evs))) ->
  (forall ex t rest s, mreach tl w (ex ++ t :: rest) s -> I (ex ++ t :: rest) s ->
     at_pc s = AtLoop -> tasksqueued s < THREADCOUNT ->
     AllSourcesReady t (pending s) = true ->
     NeedsBuild (world s) (t_outs t) (t_deps t) = true ->
     I (ex ++ rest)
       (dispatch t (log [EvNeedsBuild (t_outs t) (t_deps t) true] s))) ->
  (forall ex t rest s p ds err,
     mreach tl w (ex ++ t :: rest) s -> I (ex ++ t :: rest) s ->
     at_pc s = AtLoop -> tasksqueued s < THREADCOUNT ->
     AllSourcesReady t (pending s) = true ->
     NeedsBuild (world s) (t_outs t) (t_deps t) = false ->
     del_targets (t_outs t) (pending s) = (p, ds, err) ->
     match err with
     | None =>
         I (ex ++ rest)
           (log (map (EvDelSkipped t) ds)
              (set_pending p (log [EvNeedsBuild (t_outs t) (t_deps t) false] s)))
     | Some k =>
         I (tasklist s)
           (set_pc (AtFinally (KeyError k))
              (log (map (EvDelSkipped t) ds)
                 (set_pending p
                    (log [EvNeedsBuild (t_outs t) (t_deps t) false] s))))
     end) ->
  (forall vt s, mreach tl w vt s -> I vt s -> at_pc s = AtLoop ->
     I vt (rest' (set_tasklist vt s))) ->
  (forall vt s d dq, mreach tl w vt s -> I vt s -> at_pc s = AtGet -> donequeue s = d :: dq ->
     I vt (done' d (set_donequeue dq s))) ->
  (forall vt s o, mreach tl w vt s -> I vt s -> at_pc s = AtFinally o -> I vt (save' o s)) ->
  (forall vt s i q, mreach tl w vt s -> I vt s ->
     workers s !! i = Some WIdle -> taskqueue s = Stop :: q ->
     I vt (set_worker World i WReturned q s)) ->
  (forall vt s i t q, mreach tl w vt s -> I vt s ->
     workers s !! i = Some WIdle -> taskqueue s = Job t :: q ->
     I vt (set_worker World i (WBusy t) q s)) ->
  (forall vt s i t ok w', mreach tl w vt s -> I vt s ->
     workers s !! i = Some (WBusy t) -> act' t None (world s) = (ok, w') ->
     I vt (mkState (tasklist s) (pending s) (tasksqueued s) (at_pc s)
             (taskqueue s) (donequeue s ++ [if ok then Done t else Failed])
             (<[i := WIdle]> (workers s)) w' (saved s)
             (trace s ++ [EvCall t None ok;
                          EvDonePut (if ok then Done t else Failed)]))) ->
  forall vt s, mreach tl w vt s -> I vt s.
Proof.
  intros Hinit Henter Hseq Hdisp Hskip Hrest Hdone Hsave Hstop Htake Hfin.
  apply mreach_ind; [done|].
  intros vt s vt' s' Hreach HI Hstep.
  inversion Hstep as
    [s0 Hpc HT | s0 Hpc HT | ex t rest s0 Hpc Hq Hr Hn
    | ex t rest s0 p ds Hpc Hq Hr Hn Hd | ex t rest s0 p ds k Hpc Hq Hr Hn Hd
    | vt0 s0 Hpc | vt0 s0 d dq Hpc Hdq | vt0 s0 o Hpc | vt0 i s0 s0' Hw];
    simplify_eq.
  - by apply Henter.
  - unfold RunDependencyQueue. rewrite HT. simpl.
    destruct (seq' (tasklist s) (world s)) as [[o w'] evs] eqn:E.
    by apply Hseq.
  - by apply Hdisp.
  - by apply (Hskip ex t rest s p ds None).
  - by apply (Hskip ex t rest s p ds (Some k)).
  - by apply Hrest.
  - by eapply Hdone.
  - by apply Hsave.
  - apply BuildWorker_inv in Hw
      as [(q & Hwi & Hq & ->)
         |[(t & q & Hwi & Hq & ->)|(t & ok & w' & Hwi & Hcall & ->)]].
    + by apply Hstop.
    + by apply Htake.
    + by apply Hfin.
Qed.

(** Discharge the premises of the hypotheses that the current program
    point makes true. *)
Ltac use_pc :=
  repeat match goal with
  | H : ?P -> _ |- _ =>
      match type of P with Prop => idtac end;
      let HP := fresh in
      assert P as HP
        by (done || (left; done) || (right; done) || (simpl; tauto));
      specialize (H HP); clear HP
  end.

Ltac fin :=
  split_and?;
  first [ done | lia | by intros [|] | by (intros; split_and?; auto) | idtac ].

(** ** The start, and the two modes *)

Definition inv_mode tl (w : World) vt s : Prop :=
  (at_pc s = AtStart -> s = init tl w /\ vt = tl) /\
  (at_pc s = AtLoop \/ at_pc s = AtGet -> THREADCOUNT <> 0) /\
  (THREADCOUNT = 0 ->
   taskqueue s = [] /\ donequeue s = [] /\ workers s = [] /\
   pending s = ∅ /\ tasksqueued s = 0).

Lemma rest_pc s :
  at_pc (rest' s) = AtLoop \/ at_pc (rest' s) = AtGet \/
  exists o, at_pc (rest' s) = AtFinally o.
Proof.
  unfold ParallelMake_rest, ParallelMake_exit.
  repeat case_match; simpl; eauto.
Qed.

Lemma done_pc d s :
  at_pc (done' d s) = AtLoop \/ exists o, at_pc (done' d s) = AtFinally o.
Proof.
  unfold ParallelMake_done. destruct d as [|t]; simpl; [eauto|].
  destruct (del_targets (t_outs t) (pending s)) as [[p ds] [k|]]; simpl; eauto.
Qed.

Lemma mreach_mode tl w vt s : mreach tl w vt s -> inv_mode tl w vt s.
Proof.
  revert vt s. unfold inv_mode. apply mreach_cases.
  - split_and!; try done. by intros [|].
  - intros s _ (I1 & I2 & I3) Hpc HT. apply Z.eqb_neq in HT. simpl.
    split_and!; done.
  - intros s o w' evs _ (I1 & I2 & I3) Hpc HT Hseq. simpl.
    destruct (I1 Hpc) as [-> _]. simpl. split_and!; try done.
    by intros [|].
  - intros ex t rest s _ (I1 & I2 & I3) Hpc Hq Hr Hn. simpl.
    assert (THREADCOUNT <> 0) by (apply I2; by left).
    rewrite Hpc. split_and!; done.
  - intros ex t rest s p ds err _ (I1 & I2 & I3) Hpc Hq Hr Hn Hd.
    assert (THREADCOUNT <> 0) by (apply I2; by left).
    destruct err; simpl; rewrite ?Hpc; split_and!; try done.
  - intros vt s _ (I1 & I2 & I3) Hpc.
    assert (THREADCOUNT <> 0) by (apply I2; by left).
    destruct (rest_pc (set_tasklist vt s)) as [E|[E|[o E]]]; rewrite E;
      split_and!; done.
  - intros vt s d dq _ (I1 & I2 & I3) Hpc Hdq.
    assert (THREADCOUNT <> 0) by (apply I2; by right).
    destruct (done_pc d (set_donequeue dq s)) as [E|[o E]]; rewrite E;
      split_and!; done.
  - intros vt s o _ (I1 & I2 & I3) Hpc. simpl. split_and!; try done.
    by intros [|].
  - intros vt s i q _ (I1 & I2 & I3) Hw Hq. simpl. split_and!; try done.
    + intros Hpc. destruct (I1 Hpc) as [-> _]. done.
    + intros HT. destruct (I3 HT) as (E & _). congruence.
  - intros vt s i t q _ (I1 & I2 & I3) Hw Hq. simpl. split_and!; try done.
    + intros Hpc. destruct (I1 Hpc) as [-> _]. done.
    + intros HT. destruct (I3 HT) as (E & _). congruence.
  - intros vt s i t ok w' _ (I1 & I2 & I3) Hw Hcall. simpl.
    split_and!; try done.
    + intros Hpc. destruct (I1 Hpc) as [-> _]. done.
    + intros HT. destruct (I3 HT) as (_ & _ & E & _). rewrite E in Hw. done.
Qed.

(** ** What SequentialMake logs *)

Definition seq_event (e : event) : Prop :=
  match e with
  | EvNeedsBuild _ _ _ | EvCall _ (Some _) _ | EvJustBuilt _ _ => True
  | _ => False
  end.

Lemma seq_from_events i n todo w o w' evs :
  seq_from' i n todo w = (o, w', evs) -> Forall seq_event evs.
Proof.
  revert i w o w' evs. induction todo as [|t rest IH]; intros i w o w' evs; simpl.
  - intros [= <- <- <-]. constructor.
  - destruct (NeedsBuild w (t_outs t) (t_deps t)).
    + destruct (act' t (Some (i, n)) w) as [[|] w1].
      * destruct (seq_from' (S i) n rest _) as [[o2 w2] evs2] eqn:E.
        intros [= <- <- <-]. repeat constructor. by eapply IH.
      * intros [= <- <- <-]. repeat constructor.
    + destruct (seq_from' (S i) n rest w) as [[o2 w2] evs2] eqn:E.
      intros [= <- <- <-]. repeat constructor. by eapply IH.
Qed.

Lemma omap_seq_nil {B} (f : event -> option B) (evs : list event) :
  (forall e, seq_event e -> f e = None) -> Forall seq_event evs -> omap f evs = [].
Proof.
  intros Hf. induction 1 as [|e evs He _ IH]; simpl; [done|].
  by rewrite (Hf e He).
Qed.

(** ** Counting the tasks in flight *)

Definition inv_count vt s : Prop :=
  0 <= tasksqueued s /\
  tasksqueued s <= Z.max 0 THREADCOUNT /\
  (at_pc s = AtGet -> 0 < tasksqueued s) /\
  (at_pc s <> AtStart -> length (workers s) = Z.to_nat THREADCOUNT) /\
  (at_pc s = AtLoop \/ at_pc s = AtGet ->
   tasksqueued s
   = Z.of_nat (length (jobs (taskqueue s)) + length (busy (workers s))
               + length (donequeue s))) /\
  (returned (at_pc s) ->
   jobs (taskqueue s) = [] /\ busy (workers s) = [] /\ donequeue s = []) /\
  tasksqueued s
  = Z.of_nat (length (puts (trace s))) - Z.of_nat (length (gets_done (trace s))).

Lemma busy_replicate_idle (n : nat) : busy (replicate n WIdle) = [].
Proof. induction n; simpl; auto. Qed.

Lemma puts_app (a b : list event) : puts (a ++ b) = puts a ++ puts b.
Proof. apply omap_app. Qed.

Lemma gets_done_app (a b : list event) :
  gets_done (a ++ b) = gets_done a ++ gets_done b.
Proof. apply omap_app. Qed.

Lemma puts_seq (evs : list event) : Forall seq_event evs -> puts evs = [].
Proof. apply omap_seq_nil. by intros []. Qed.

Lemma gets_done_seq (evs : list event) : Forall seq_event evs -> gets_done evs = [].
Proof. apply omap_seq_nil. by intros []. Qed.

Lemma puts_dels_skipped t ds : puts (map (EvDelSkipped t) ds) = [].
Proof. induction ds; simpl; auto. Qed.

Lemma puts_dels_done t ds : puts (map (EvDelDone t) ds) = [].
Proof. induction ds; simpl; auto. Qed.

Lemma gets_done_dels_skipped t ds : gets_done (map (EvDelSkipped t) ds) = [].
Proof. induction ds; simpl; auto. Qed.

Lemma gets_done_dels_done t ds : gets_done (map (EvDelDone t) ds) = [].
Proof. induction ds; simpl; auto. Qed.

Lemma puts_stops n : puts (replicate n EvPutStop) = [].
Proof. induction n; simpl; auto. Qed.

Lemma gets_done_stops n : gets_done (replicate n EvPutStop) = [].
Proof. induction n; simpl; auto. Qed.

Ltac count_events :=
  repeat (progress
    (rewrite ?puts_app, ?gets_done_app, ?puts_dels_skipped, ?puts_dels_done,
       ?gets_done_dels_skipped, ?gets_done_dels_done, ?puts_stops,
       ?gets_done_stops, ?length_app, ?app_nil_r; simpl)).

Lemma mreach_count tl w vt s : mreach tl w vt s -> inv_count vt s.
Proof.
  revert vt s. unfold inv_count, returned. apply mreach_cases.
  - simpl. fin.
  - intros s Hre (I1 & I2 & I3 & I4 & I5 & I6 & I7) Hpc HT.
    destruct (mreach_mode _ _ _ _ Hre) as ((-> & _) & _); [done|]. simpl.
    rewrite length_replicate, busy_replicate_idle. fin.
  - intros s o w' evs Hre (I1 & I2 & I3 & I4 & I5 & I6 & I7) Hpc HT Hseq.
    destruct (mreach_mode _ _ _ _ Hre) as ((-> & _) & _); [done|]. simpl in *.
    apply Z.eqb_eq in HT. apply seq_from_events in Hseq.
    rewrite puts_seq, gets_done_seq by done. fin.
  - intros ex t rest s Hre (I1 & I2 & I3 & I4 & I5 & I6 & I7) Hpc Hq Hr Hn.
    simpl. rewrite Hpc in *. use_pc. rewrite jobs_app. count_events. fin.
  - intros ex t rest s p ds err Hre (I1 & I2 & I3 & I4 & I5 & I6 & I7) Hpc Hq Hr Hn Hd.
    rewrite Hpc in *. use_pc.
    destruct err; simpl; rewrite ?Hpc in *; count_events; fin.
  - intros vt s Hre (I1 & I2 & I3 & I4 & I5 & I6 & I7) Hpc.
    rewrite Hpc in *. use_pc. unfold ParallelMake_rest, ParallelMake_exit. simpl.
    destruct (tasksqueued s =? 0) eqn:E0.
    + apply Z.eqb_eq in E0. destruct (0 <? Z.of_nat (length vt)) eqn:El; simpl.
      * fin.
      * rewrite jobs_app, jobs_replicate_Stop, app_nil_r. count_events. fin.
        intros _. split_and!; apply nil_length_inv; lia.
    + apply Z.eqb_neq in E0. simpl. fin.
  - intros vt s d dq Hre (I1 & I2 & I3 & I4 & I5 & I6 & I7) Hpc Hdq.
    rewrite Hpc in *. use_pc. rewrite Hdq in I5. simpl in I5.
    destruct d as [|t]; simpl.
    + count_events. fin.
    + destruct (del_targets (t_outs t) (pending s)) as [[p ds] err]. simpl.
      count_events. destruct err; fin.
  - intros vt s o Hre (I1 & I2 & I3 & I4 & I5 & I6 & I7) Hpc. simpl.
    rewrite Hpc in *. count_events. fin.
    intros [[=]|[= ->]]. apply I6. by left.
  - intros vt s i q Hre (I1 & I2 & I3 & I4 & I5 & I6 & I7) Hw Hq. simpl.
    pose proof (busy_insert_length _ _ _ WReturned Hw) as Hb. simpl in Hb.
    rewrite Hq in *. simpl in *. rewrite length_insert. fin.
    + intros H. rewrite (I5 H). lia.
    + intros H. destruct (I6 H) as (E1 & E2 & E3). split_and!; try done.
      apply nil_length_inv. rewrite E2 in Hb. simpl in Hb. lia.
  - intros vt s i t q Hre (I1 & I2 & I3 & I4 & I5 & I6 & I7) Hw Hq. simpl.
    pose proof (busy_insert_length _ _ _ (WBusy t) Hw) as Hb. simpl in Hb.
    rewrite Hq in *. simpl in *. rewrite length_insert. fin.
    + intros H. rewrite (I5 H). lia.
    + intros H. by destruct (I6 H) as (E1 & E2 & E3).
  - intros vt s i t ok w' Hre (I1 & I2 & I3 & I4 & I5 & I6 & I7) Hw Hcall.
    simpl. pose proof (busy_insert_length _ _ _ WIdle Hw) as Hb. simpl in Hb.
    rewrite length_insert. count_events. fin.
    + intros H. rewrite (I5 H). lia.
    + intros H. destruct (I6 H) as (E1 & E2 & E3). rewrite E2 in Hb.
      simpl in Hb. lia.
Qed.

(** ** Every event has its cause *)

Lemma replay_pending_app seed (a b : list event) :
  replay_pending seed (a ++ b) = replay_pending (replay_pending seed a) b.
Proof. apply foldl_app. Qed.

Lemma replay_dels_skipped seed t ds :
  replay_pending seed (map (EvDelSkipped t) ds)
  = foldl (fun q k => delete k q) seed ds.
Proof. revert seed. induction ds as [|k ds IH]; intros seed; simpl; auto. Qed.

Lemma replay_dels_done seed t ds :
  replay_pending seed (map (EvDelDone t) ds)
  = foldl (fun q k => delete k q) seed ds.
Proof. revert seed. induction ds as [|k ds IH]; intros seed; simpl; auto. Qed.

Lemma replay_seq seed (evs : list event) :
  Forall seq_event evs -> replay_pending seed evs = seed.
Proof. induction 1 as [|[] evs He _ IH]; simpl; try done. Qed.

Lemma replay_stops seed n : replay_pending seed (replicate n EvPutStop) = seed.
Proof. induction n; simpl; auto. Qed.

Lemma jt_split tl (tr pre post : list event) (e : event) :
  justified_trace tl tr -> tr = pre ++ e :: post -> justified tl pre e.
Proof.
  intros H. revert pre post. induction H as [|tr e0 _ IH Hj]; intros pre post E.
  - by destruct pre.
  - destruct post as [|e1 post _] using rev_ind.
    + apply app_inj_tail in E as [-> ->]. done.
    + rewrite app_comm_cons, app_assoc in E.
      apply app_inj_tail in E as [-> ->]. by eapply IH.
Qed.

Lemma jt_elem tl (tr : list event) (e : event) :
  justified_trace tl tr -> e ∈ tr ->
  exists pre post, tr = pre ++ e :: post /\ justified tl pre e.
Proof.
  intros H He. apply list_elem_of_split in He as (pre & post & ->).
  exists pre, post. split; [done|]. by eapply jt_split.
Qed.

Lemma jt_dels_skipped tl tr t ds :
  justified_trace tl tr -> t ∈ tl -> (forall k, k ∈ ds -> k ∈ t_outs t) ->
  EvNeedsBuild (t_outs t) (t_deps t) false ∈ tr ->
  justified_trace tl (tr ++ map (EvDelSkipped t) ds).
Proof.
  revert tr. induction ds as [|k ds IH]; intros tr Hj Ht Hk Hn; simpl.
  - by rewrite app_nil_r.
  - rewrite (app_assoc tr [_] _ : tr ++ _ :: _ = (tr ++ [_]) ++ _).
    apply IH; [|done| |].
    + constructor; [done|]. simpl. split_and!; [done| |done]. apply Hk. left.
    + intros k' Hk'. apply Hk. by right.
    + apply elem_of_app. by left.
Qed.

Lemma jt_dels_done tl tr t ds :
  justified_trace tl tr -> t ∈ tl -> (forall k, k ∈ ds -> k ∈ t_outs t) ->
  EvGet (Done t) ∈ tr ->
  justified_trace tl (tr ++ map (EvDelDone t) ds).
Proof.
  revert tr. induction ds as [|k ds IH]; intros tr Hj Ht Hk Hn; simpl.
  - by rewrite app_nil_r.
  - rewrite (app_assoc tr [_] _ : tr ++ _ :: _ = (tr ++ [_]) ++ _).
    apply IH; [|done| |].
    + constructor; [done|]. simpl. split_and!; [done| |done]. apply Hk. left.
    + intros k' Hk'. apply Hk. by right.
    + apply elem_of_app. by left.
Qed.

Lemma jt_stops tl tr n :
  justified_trace tl tr -> justified_trace tl (tr ++ replicate n EvPutStop).
Proof.
  revert tr. induction n as [|n IH]; intros tr Hj; simpl.
  - by rewrite app_nil_r.
  - rewrite (app_assoc tr [_] _ : tr ++ _ :: _ = (tr ++ [_]) ++ _).
    apply IH. by constructor.
Qed.

Lemma jt_snoc2 tl tr e1 e2 :
  justified_trace tl tr -> justified tl tr e1 -> justified tl (tr ++ [e1]) e2 ->
  justified_trace tl (tr ++ [e1; e2]).
Proof.
  intros H H1 H2.
  rewrite (app_assoc tr [_] [_] : tr ++ [_; _] = (tr ++ [_]) ++ [_]).
  constructor; [by constructor|done].
Qed.

Lemma jt_seq tl tr i n todo w o w' evs :
  justified_trace tl tr -> (forall t, t ∈ todo -> t ∈ tl) ->
  seq_from' i n todo w = (o, w', evs) ->
  justified_trace tl (tr ++ evs).
Proof.
  revert tr i w o w' evs.
  induction todo as [|t rest IH]; intros tr i w o w' evs Hj Hin; simpl.
  - intros [= <- <- <-]. by rewrite app_nil_r.
  - assert (t ∈ tl) as Ht by (apply Hin; left).
    assert (forall t, t ∈ rest -> t ∈ tl) as Hrest by (intros; apply Hin; by right).
    assert (justified_trace tl
              (tr ++ [EvNeedsBuild (t_outs t) (t_deps t) true])) as J1.
    { constructor; [done|]. by exists t. }
    assert (justified_trace tl
              (tr ++ [EvNeedsBuild (t_outs t) (t_deps t) false])) as J0.
    { constructor; [done|]. by exists t. }
    destruct (NeedsBuild w (t_outs t) (t_deps t)).
    + destruct (act' t (Some (i, n)) w) as [[|] w1].
      * destruct (seq_from' (S i) n rest _) as [[o2 w2] evs2] eqn:E.
        intros [= <- <- <-].
        rewrite (app_assoc tr [_; _; _] _
                 : tr ++ _ :: _ :: _ :: _ = (tr ++ [_; _; _]) ++ _).
        eapply IH; [|done|apply E].
        rewrite (app_assoc tr [_; _] [_]
                 : tr ++ [_; _; _] = (tr ++ [_; _]) ++ [_]).
        constructor; [|by exists t].
        rewrite (app_assoc tr [_] [_] : tr ++ [_; _] = (tr ++ [_]) ++ [_]).
        by constructor.
      * intros [= <- <- <-].
        rewrite (app_assoc tr [_] [_] : tr ++ [_; _] = (tr ++ [_]) ++ [_]).
        by constructor.
    + destruct (seq_from' (S i) n rest w) as [[o2 w2] evs2] eqn:E.
      intros [= <- <- <-].
      rewrite (app_assoc tr [_] _ : tr ++ _ :: _ = (tr ++ [_]) ++ _).
      by eapply IH.
Qed.

Definition inv_just tl vt s : Prop :=
  (forall t, t ∈ vt -> t ∈ tl) /\
  (forall t, t ∈ tasklist s -> t ∈ tl) /\
  (forall t, Job t ∈ taskqueue s -> t ∈ tl /\ exists p, EvPut t p ∈ trace s) /\
  (forall t, WBusy t ∈ workers s -> t ∈ tl /\ exists p, EvPut t p ∈ trace s) /\
  (forall t, Done t ∈ donequeue s -> t ∈ tl /\ EvDonePut (Done t) ∈ trace s) /\
  (Failed ∈ donequeue s -> EvDonePut Failed ∈ trace s) /\
  justified_trace tl (trace s) /\
  (at_pc s <> AtStart -> THREADCOUNT <> 0 ->
   pending s = replay_pending (seed_pending tl) (trace s)).

Ltac in_trace :=
  rewrite ?elem_of_app, ?elem_of_cons; auto 6.

Lemma mreach_just tl w vt s : mreach tl w vt s -> inv_just tl vt s.
Proof.
  revert vt s. unfold inv_just. apply mreach_cases.
  - simpl. split_and!; try done; try (intros ? H; by inversion H);
      try (intros H; by inversion H). constructor.
  - intros s Hre (I1 & I2 & I3 & I4 & I5 & I6 & I7 & I8) Hpc HT.
    destruct (mreach_mode _ _ _ _ Hre) as ((-> & _) & _); [done|]. simpl.
    split_and!; try done; try (intros ? H; by inversion H);
      try (intros H; by inversion H).
    intros t H. apply elem_of_replicate in H as [[=] _].
  - intros s o w' evs Hre (I1 & I2 & I3 & I4 & I5 & I6 & I7 & I8) Hpc HT Hseq.
    destruct (mreach_mode _ _ _ _ Hre) as ((-> & _) & _); [done|]. simpl in *.
    apply Z.eqb_eq in HT.
    split_and!; try done; try (intros ? H; by inversion H);
      try (intros H; by inversion H).
    apply (jt_seq tl [] _ _ _ _ _ _ _ (jt_nil tl) I1 Hseq).
  - intros ex t rest s Hre (I1 & I2 & I3 & I4 & I5 & I6 & I7 & I8) Hpc Hq Hr Hn.
    pose proof (mreach_mode _ _ _ _ Hre) as (_ & M2 & _).
    assert (t ∈ tl) as Ht by (apply I1; in_trace).
    simpl. rewrite Hpc in *. use_pc. split_and!; try done.
    + intros t' H. apply I1. revert H. in_trace. intros [|]; auto.
    + intros t' H. apply elem_of_app in H as [H|H].
      * destruct (I3 _ H) as [? [p Hp]]. split; [done|]. exists p. in_trace.
      * apply list_elem_of_singleton in H as [= ->]. split; [done|].
        exists (pending s). in_trace.
    + intros t' H. destruct (I4 _ H) as [? [p Hp]]. split; [done|].
      exists p. in_trace.
    + intros t' H. destruct (I5 _ H). split; [done|]. in_trace.
    + intros H. in_trace.
    + constructor.
      * constructor; [done|]. by exists t.
      * simpl. split_and!; try done.
        -- by rewrite replay_pending_app.
        -- in_trace.
    + intros _ _. by rewrite !replay_pending_app.
  - intros ex t rest s p ds err Hre (I1 & I2 & I3 & I4 & I5 & I6 & I7 & I8)
      Hpc Hq Hr Hn Hd.
    pose proof (mreach_mode _ _ _ _ Hre) as (_ & M2 & _).
    assert (t ∈ tl) as Ht by (apply I1; in_trace).
    rewrite Hpc in *. use_pc.
    assert (justified_trace tl
              ((trace s ++ [EvNeedsBuild (t_outs t) (t_deps t) false])
                 ++ map (EvDelSkipped t) ds)) as Hj.
    { apply jt_dels_skipped; [|done| |in_trace].
      - constructor; [done|]. by exists t.
      - apply (del_targets_prefix _ _ _ _ _ Hd). }
    assert (p = replay_pending (seed_pending tl)
                  ((trace s ++ [EvNeedsBuild (t_outs t) (t_deps t) false])
                     ++ map (EvDelSkipped t) ds)) as Hp.
    { rewrite !replay_pending_app, replay_dels_skipped. simpl.
      rewrite <- I8. by eapply del_targets_replay. }
    destruct err; simpl; split_and!; try done.
    all: try (intros t' H; apply I1; revert H; in_trace; intros [|]; auto; fail).
    all: try (intros t' H; destruct (I3 _ H) as [? [q Hq']]; split; [done|];
              exists q; in_trace; fail).
    all: try (intros t' H; destruct (I4 _ H) as [? [q Hq']]; split; [done|];
              exists q; in_trace; fail).
    all: try (intros t' H; destruct (I5 _ H); split; [done|]; in_trace; fail).
    all: try (intros H; in_trace; fail).
  - intros vt s Hre (I1 & I2 & I3 & I4 & I5 & I6 & I7 & I8) Hpc.
    pose proof (mreach_mode _ _ _ _ Hre) as (_ & M2 & _).
    rewrite Hpc in *. use_pc.
    unfold ParallelMake_rest, ParallelMake_exit. simpl.
    destruct (tasksqueued s =? 0); [|simpl; split_and!; done].
    assert (forall t, Job t ∈ taskqueue s ++ replicate (Z.to_nat THREADCOUNT) Stop ->
              t ∈ tl /\ exists p, EvPut t p ∈ trace s) as I3'.
    { intros t H. apply elem_of_app in H as [H|H]; [by apply I3|].
      apply elem_of_replicate in H as [[=] _]. }
    destruct (0 <? Z.of_nat (length vt)) eqn:El; simpl; split_and!; try done.
    all: try (intros t' H; destruct (I3' _ H) as [? [q Hq']]; split; [done|];
              exists q; in_trace; fail).
    all: try (intros t' H; destruct (I4 _ H) as [? [q Hq']]; split; [done|];
              exists q; in_trace; fail).
    all: try (intros t' H; destruct (I5 _ H); split; [done|]; in_trace; fail).
    all: try (intros H; in_trace; fail).
    + by apply jt_stops.
    + intros _ _. rewrite !replay_pending_app, replay_stops. done.
  - intros vt s d dq Hre (I1 & I2 & I3 & I4 & I5 & I6 & I7 & I8) Hpc Hdq.
    pose proof (mreach_mode _ _ _ _ Hre) as (_ & M2 & _).
    rewrite Hpc in *. use_pc. rewrite Hdq in *.
    destruct d as [|t]; simpl.
    + split_and!; try done.
      * intros t' H; destruct (I3 _ H) as [? [q Hq']]; split; [done|];
          exists q; in_trace.
      * intros t' H; destruct (I4 _ H) as [? [q Hq']]; split; [done|];
          exists q; in_trace.
      * intros t' H. destruct (I5 t') as [? ?]; [by right|]. split; [done|].
        in_trace.
      * intros H. assert (EvDonePut Failed ∈ trace s) by (apply I6; by right).
        in_trace.
      * constructor; [|done]. constructor; [done|]. simpl. apply I6. left.
      * intros _ _. by rewrite !replay_pending_app.
    + destruct (I5 t) as [Ht Hput]; [left|].
      destruct (del_targets (t_outs t) (pending s)) as [[p ds] err] eqn:Hd.
      simpl.
      assert (justified_trace tl
                (trace s ++ [EvGet (Done t); EvJustBuilt (t_outs t) (t_deps t)]
                   ++ map (EvDelDone t) ds)) as Hj.
      { rewrite app_assoc.
        apply jt_dels_done; [|done| |in_trace].
        - apply jt_snoc2; [done|done|by exists t].
        - apply (del_targets_prefix _ _ _ _ _ Hd). }
      split_and!; try done.
      * intros t' H; destruct (I3 _ H) as [? [q Hq']]; split; [done|];
          exists q; in_trace.
      * intros t' H; destruct (I4 _ H) as [? [q Hq']]; split; [done|];
          exists q; in_trace.
      * intros t' H. destruct (I5 t') as [? ?]; [by right|]. split; [done|].
        in_trace.
      * intros H. assert (EvDonePut Failed ∈ trace s) by (apply I6; by right).
        in_trace.
      * intros _ _. rewrite replay_pending_app. simpl.
        rewrite replay_dels_done, <- I8. by eapply del_targets_replay.
  - intros vt s o Hre (I1 & I2 & I3 & I4 & I5 & I6 & I7 & I8) Hpc. simpl.
    rewrite Hpc in *. split_and!; try done.
    + intros t' H; destruct (I3 _ H) as [? [q Hq']]; split; [done|];
        exists q; in_trace.
    + intros t' H; destruct (I4 _ H) as [? [q Hq']]; split; [done|];
        exists q; in_trace.
    + intros t' H; destruct (I5 _ H); split; [done|]; in_trace.
    + intros H; in_trace.
    + by constructor.
    + intros _ HT. rewrite replay_pending_app. simpl. by apply I8.
  - intros vt s i q Hre (I1 & I2 & I3 & I4 & I5 & I6 & I7 & I8) Hw Hq. simpl.
    rewrite Hq in *. split_and!; try done.
    + intros t H. apply I3. by right.
    + intros t H. apply elem_of_insert_worker in H as [[=]|H]. by apply I4.
  - intros vt s i t q Hre (I1 & I2 & I3 & I4 & I5 & I6 & I7 & I8) Hw Hq. simpl.
    rewrite Hq in *. split_and!; try done.
    + intros t' H. apply I3. by right.
    + intros t' H. apply elem_of_insert_worker in H as [[= ->]|H].
      * apply I3. left.
      * by apply I4.
  - intros vt s i t ok w' Hre (I1 & I2 & I3 & I4 & I5 & I6 & I7 & I8) Hw Hcall.
    simpl. apply list_elem_of_lookup_2 in Hw. destruct (I4 _ Hw) as [Ht [p Hp]].
    split_and!; try done.
    + intros t' H; destruct (I3 _ H) as [? [q Hq']]; split; [done|];
        exists q; in_trace.
    + intros t' H. apply elem_of_insert_worker in H as [[=]|H].
      destruct (I4 _ H) as [? [q Hq']]; split; [done|]; exists q; in_trace.
    + intros t' H. apply elem_of_app in H as [H|H].
      * destruct (I5 _ H). split; [done|]. in_trace.
      * apply list_elem_of_singleton in H. destruct ok; [|done].
        injection H as ->. split; [done|]. in_trace.
    + intros H. apply elem_of_app in H as [H|H].
      * in_trace.
      * apply list_elem_of_singleton in H. destruct ok; [done|]. in_trace.
    + apply jt_snoc2; [done| |].
      * simpl. split; [done|]. by exists p.
      * destruct ok; simpl; [in_trace|]. exists t. in_trace.
    + intros H1 H2. rewrite replay_pending_app. simpl. by apply I8.
Qed.

(** ** The pending table over a run *)

Lemma dels_app (a b : list event) : dels (a ++ b) = dels a ++ dels b.
Proof. apply omap_app. Qed.

Lemma removals_app k (a b : list event) :
  removals k (a ++ b) = (removals k a + removals k b)%nat.
Proof. unfold removals. by rewrite dels_app, filter_app, length_app. Qed.

Lemma dels_dels_skipped t ds : dels (map (EvDelSkipped t) ds) = ds.
Proof. induction ds as [|k ds IH]; simpl; [done|]. by f_equal. Qed.

Lemma dels_dels_done t ds : dels (map (EvDelDone t) ds) = ds.
Proof. induction ds as [|k ds IH]; simpl; [done|]. by f_equal. Qed.

Lemma dels_seq (evs : list event) : Forall seq_event evs -> dels evs = [].
Proof. apply omap_seq_nil. by intros []. Qed.

Lemma dels_stops n : dels (replicate n EvPutStop) = [].
Proof. induction n; simpl; auto. Qed.

Lemma elem_of_insert_other (ws : list wstate) (i : nat) (x y z : wstate) :
  ws !! i = Some y -> x ∈ ws -> x <> y -> x ∈ <[i := z]> ws.
Proof.
  intros Hi Hx Hne. apply list_elem_of_lookup in Hx as [j Hj].
  apply list_elem_of_lookup. exists j.
  rewrite list_lookup_insert_ne; [done|]. intros ->. congruence.
Qed.

Lemma elem_of_insert_here (ws : list wstate) (i : nat) (y z : wstate) :
  ws !! i = Some y -> z ∈ <[i := z]> ws.
Proof.
  intros Hi. apply list_elem_of_lookup. exists i.
  apply list_lookup_insert_eq. by eapply lookup_lt_Some.
Qed.

Definition inv_pending tl vt s : Prop :=
  (at_pc s <> AtStart -> THREADCOUNT <> 0 ->
   forall k,
     (removals k (trace s) + (if pending s !! k is Some _ then 1 else 0)
      = if seed_pending tl !! k is Some _ then 1 else 0)%nat) /\
  (at_pc s = AtStart \/ THREADCOUNT = 0 -> dels (trace s) = []) /\
  (THREADCOUNT <> 0 -> ~ aborted (at_pc s) -> Failed ∉ donequeue s ->
   forall t, t ∈ tl ->
     t ∈ vt \/ Job t ∈ taskqueue s \/ WBusy t ∈ workers s \/
     Done t ∈ donequeue s \/ (forall k, k ∈ t_outs t -> pending s !! k = None)) /\
  (THREADCOUNT <> 0 -> returned (at_pc s) -> vt = []).

Lemma removals_nil k : removals k [] = 0%nat.
Proof. done. Qed.

Lemma removals_stops k n : removals k (replicate n EvPutStop) = 0%nat.
Proof. unfold removals. by rewrite dels_stops. Qed.

Ltac count_dels :=
  repeat (progress
    (rewrite ?removals_app, ?removals_stops, ?removals_nil, ?dels_app,
       ?dels_dels_skipped, ?dels_dels_done, ?dels_stops, ?app_nil_r; simpl)).

Lemma mreach_pending tl w vt s : mreach tl w vt s -> inv_pending tl vt s.
Proof.
  revert vt s. unfold inv_pending, returned. apply mreach_cases.
  - simpl. split_and!.
    + done.
    + done.
    + intros _ _ _ t Ht. by left.
    + by intros _ [|].
  - intros s Hre (I1 & I2 & I3 & I4) Hpc HT.
    destruct (mreach_mode _ _ _ _ Hre) as ((-> & _) & _); [done|]. simpl.
    split_and!.
    + intros _ _ k. by destruct (seed_pending tl !! k).
    + intros [[=]|H]. by apply Z.eqb_neq in HT.
    + intros _ _ _ t Ht. by left.
    + by intros _ [|].
  - intros s o w' evs Hre (I1 & I2 & I3 & I4) Hpc HT Hseq.
    destruct (mreach_mode _ _ _ _ Hre) as ((-> & _) & _); [done|]. simpl in *.
    apply Z.eqb_eq in HT. apply seq_from_events in Hseq.
    split_and!; try done. intros _. by apply dels_seq.
  - intros ex t rest s Hre (I1 & I2 & I3 & I4) Hpc Hq Hr Hn.
    pose proof (mreach_mode _ _ _ _ Hre) as (_ & M2 & _).
    simpl. rewrite Hpc in *. use_pc. split_and!.
    + intros _ _ k. count_dels. unfold removals at 2 3. simpl.
      rewrite <- I1. lia.
    + by intros [|].
    + intros _ _ Hf t' Ht'. destruct (I3 Hf t' Ht') as [H|[H|[H|[H|H]]]]; auto.
      * apply elem_of_app in H as [H|H]; [left; in_trace|].
        apply elem_of_cons in H as [->|H]; [|left; in_trace].
        right. left. in_trace.
      * right. left. in_trace.
    + by intros _ [|].
  - intros ex t rest s p ds err Hre (I1 & I2 & I3 & I4) Hpc Hq Hr Hn Hd.
    pose proof (mreach_mode _ _ _ _ Hre) as (_ & M2 & _).
    rewrite Hpc in *. use_pc.
    assert (forall k,
      (removals k
         ((trace s ++ [EvNeedsBuild (t_outs t) (t_deps t) false])
            ++ map (EvDelSkipped t) ds)
       + (if p !! k is Some _ then 1 else 0)
       = if seed_pending tl !! k is Some _ then 1 else 0)%nat) as Hc.
    { intros k. count_dels. unfold removals at 2 3. simpl.
      rewrite dels_dels_skipped. rewrite <- I1.
      pose proof (del_targets_count _ _ _ _ _ k Hd). lia. }
    destruct err as [k0|]; simpl; rewrite ?Hpc; split_and!.
    + done.
    + by intros [|].
    + intros _ Hab. by destruct Hab.
    + by intros _ [|].
    + done.
    + by intros [|].
    + intros _ _ Hf t' Ht'. destruct (I3 Hf t' Ht') as [H|[H|[H|[H|H]]]]; auto.
      * apply elem_of_app in H as [H|H]; [left; in_trace|].
        apply elem_of_cons in H as [->|H]; [|left; in_trace].
        do 4 right. intros k Hk. by eapply del_targets_gone.
      * do 4 right. intros k Hk. eapply del_targets_shrinks; eauto.
    + by intros _ [|].
  - intros vt s Hre (I1 & I2 & I3 & I4) Hpc.
    pose proof (mreach_mode _ _ _ _ Hre) as (_ & M2 & _).
    rewrite Hpc in *. use_pc.
    unfold ParallelMake_rest, ParallelMake_exit. simpl.
    destruct (tasksqueued s =? 0); simpl.
    2:{ split_and!; try done; try (by intros [|]); try (by intros _ [|]). }
    destruct (0 <? Z.of_nat (length vt)) eqn:El; simpl.
    { split_and!; try done; try (by intros [|]); try (by intros _ [|]). }
    split_and!.
    + intros _ _ k. count_dels. rewrite <- I1. lia.
    + by intros [|].
    + intros _ _ Hf t' Ht'. destruct (I3 Hf t' Ht') as [H|[H|[H|[H|H]]]]; auto.
      right. left. in_trace.
    + intros _ _. apply Z.ltb_ge in El. apply nil_length_inv. lia.
  - intros vt s d dq Hre (I1 & I2 & I3 & I4) Hpc Hdq.
    pose proof (mreach_mode _ _ _ _ Hre) as (_ & M2 & _).
    rewrite Hpc in *. use_pc. rewrite Hdq in *.
    destruct d as [|t]; simpl.
    + split_and!.
      * intros _ _ k. count_dels. unfold removals at 2 3. simpl.
        rewrite <- I1. lia.
      * by intros [|].
      * intros _ Hab. by destruct Hab.
      * by intros _ [|].
    + destruct (del_targets (t_outs t) (pending s)) as [[p ds] err] eqn:Hd.
      simpl. split_and!.
      * intros _ _ k. count_dels.
        change (removals k (EvGet (Done t) :: EvJustBuilt (t_outs t) (t_deps t)
                              :: map (EvDelDone t) ds))
          with (removals k (map (EvDelDone t) ds)).
        unfold removals at 2. rewrite dels_dels_done, <- I1.
        pose proof (del_targets_count _ _ _ _ _ k Hd). lia.
      * destruct err; by intros [|].
      * intros _ Hab Hf t' Ht'. destruct err as [k0|]; [by destruct Hab|].
        assert (Failed ∉ Done t :: dq) as Hf0.
        { intros H. by apply elem_of_cons in H as [[=]|H]. }
        destruct (I3 Hf0 t' Ht') as [H|[H|[H|[H|H]]]]; auto.
        -- apply elem_of_cons in H as [[= ->]|H]; auto.
           do 4 right. intros k Hk. by eapply del_targets_gone.
        -- do 4 right. intros k Hk. eapply del_targets_shrinks; eauto.
      * destruct err; by intros _ [|].
  - intros vt s o Hre (I1 & I2 & I3 & I4) Hpc. simpl.
    rewrite Hpc in *. split_and!.
    + intros _ HT k. count_dels. unfold removals at 2. simpl.
      rewrite <- I1; [lia|done|done].
    + intros [[=]|HT]. rewrite dels_app. simpl. rewrite I2; auto.
    + done.
    + intros HT [[=]|[= ->]]. apply I4; auto.
  - intros vt s i q Hre (I1 & I2 & I3 & I4) Hw Hq. simpl.
    rewrite Hq in *. split_and!; [done|done| |done].
    intros HT Hab Hf t' Ht'. destruct (I3 HT Hab Hf t' Ht') as [H|[H|[H|[H|H]]]]; auto.
    + apply elem_of_cons in H as [[=]|H]. auto.
    + right. right. left. by eapply elem_of_insert_other.
  - intros vt s i t q Hre (I1 & I2 & I3 & I4) Hw Hq. simpl.
    rewrite Hq in *. split_and!; [done|done| |done].
    intros HT Hab Hf t' Ht'. destruct (I3 HT Hab Hf t' Ht') as [H|[H|[H|[H|H]]]]; auto.
    + apply elem_of_cons in H as [[= ->]|H]; auto.
      right. right. left. by eapply elem_of_insert_here.
    + right. right. left. by eapply elem_of_insert_other.
  - intros vt s i t ok w' Hre (I1 & I2 & I3 & I4) Hw Hcall. simpl.
    split_and!.
    + intros H1 H2 k. count_dels. unfold removals at 2. simpl.
      rewrite <- I1; [lia|done|done].
    + intros H. rewrite dels_app. simpl. rewrite I2; auto.
    + intros HT Hab Hf t' Ht'.
      assert (Failed ∉ donequeue s) as Hf' by (intros H; apply Hf; in_trace).
      destruct ok; [|destruct Hf; in_trace].
      destruct (I3 HT Hab Hf' t' Ht') as [H|[H|[H|[H|H]]]]; auto.
      * destruct (decide (WBusy t' = WBusy t)) as [[= ->]|Hne].
        -- right. right. right. left. in_trace.
        -- right. right. left. by eapply elem_of_insert_other.
      * right. right. right. left. in_trace.
    + done.
Qed.

(** ** What the log says about workers, the cache and the final save *)

(** The world after the calls logged in a trace. *)
Definition replay_world (w : World) (tr : list event) : World :=
  foldl (fun w e => match e with
                    | EvJustBuilt f o => JustBuilt w f o
                    | EvCall t p _ => (act' t p w).2
                    | _ => w
                    end) w tr.

Lemma replay_world_app w (a b : list event) :
  replay_world w (a ++ b) = replay_world (replay_world w a) b.
Proof. apply foldl_app. Qed.

Lemma replay_world_dels_skipped w t ds :
  replay_world w (map (EvDelSkipped t) ds) = w.
Proof. induction ds; simpl; auto. Qed.

Lemma replay_world_dels_done w t ds :
  replay_world w (map (EvDelDone t) ds) = w.
Proof. induction ds; simpl; auto. Qed.

Lemma replay_world_stops w n : replay_world w (replicate n EvPutStop) = w.
Proof. induction n; simpl; auto. Qed.

Lemma omap_map_none {A B C} (f : B -> option C) (g : A -> B) (l : list A) :
  (forall x, f (g x) = None) -> omap f (map g l) = [].
Proof. intros H. induction l; simpl; [done|]. by rewrite H. Qed.

Lemma omap_replicate_none {B C} (f : B -> option C) (x : B) (n : nat) :
  f x = None -> omap f (replicate n x) = [].
Proof. intros H. induction n; simpl; [done|]. by rewrite H. Qed.

Lemma seq_from_log i n todo w o w' evs :
  seq_from' i n todo w = (o, w', evs) ->
  justbuilts evs = completions evs /\ w' = replay_world w evs.
Proof.
  revert i w o w' evs. induction todo as [|t rest IH]; intros i w o w' evs; simpl.
  - by intros [= <- <- <-].
  - destruct (NeedsBuild w (t_outs t) (t_deps t)).
    + destruct (act' t (Some (i, n)) w) as [[|] w1] eqn:Hc.
      * destruct (seq_from' (S i) n rest _) as [[o2 w2] evs2] eqn:E.
        intros [= <- <- <-]. destruct (IH _ _ _ _ _ E) as [H1 H2]. simpl.
        rewrite Hc. simpl. split; [by f_equal|done].
      * intros [= <- <- <-]. simpl. by rewrite Hc.
    + destruct (seq_from' (S i) n rest w) as [[o2 w2] evs2] eqn:E.
      intros [= <- <- <-]. by destruct (IH _ _ _ _ _ E) as [H1 H2].
Qed.

Lemma worker_results_seq (evs : list event) :
  Forall seq_event evs -> worker_results evs = [].
Proof.
  apply omap_seq_nil. intros e He. destruct e; try done.
  by destruct p.
Qed.

Lemma doneputs_seq (evs : list event) : Forall seq_event evs -> doneputs evs = [].
Proof. apply omap_seq_nil. by intros []. Qed.

Lemma saves_seq (evs : list event) : Forall seq_event evs -> saves evs = 0%nat.
Proof. intros H. unfold saves. rewrite omap_seq_nil; [done| |done]. by intros []. Qed.

Definition inv_log (w : World) vt s : Prop :=
  worker_results (trace s) = doneputs (trace s) /\
  justbuilts (trace s) = completions (trace s) /\
  world s = replay_world w (trace s) /\
  match at_pc s with
  | AtEnd _ =>
      exists pre post,
        trace s = pre ++ EvSave :: post /\ saves pre = 0%nat /\
        saves post = 0%nat /\ justbuilts post = [] /\
        saved s = [replay_world w pre]
  | _ => saves (trace s) = 0%nat /\ saved s = []
  end.

Ltac log_events :=
  unfold worker_results, doneputs, justbuilts, completions, saves in *;
  rewrite ?omap_app;
  rewrite ?omap_map_none by done;
  rewrite ?omap_replicate_none by done;
  rewrite ?replay_world_app, ?replay_world_dels_skipped,
    ?replay_world_dels_done, ?replay_world_stops;
  simpl; rewrite ?app_nil_r.

Lemma mreach_log tl w vt s : mreach tl w vt s -> inv_log w vt s.
Proof.
  revert vt s. unfold inv_log. apply mreach_cases.
  - simpl. done.
  - intros s Hre (I1 & I2 & I3 & I4) Hpc HT. simpl. rewrite Hpc in I4. done.
  - intros s o w' evs Hre (I1 & I2 & I3 & I4) Hpc HT Hseq. simpl.
    rewrite Hpc in I4. destruct I4 as [I4 I5].
    pose proof (seq_from_events _ _ _ _ _ _ _ Hseq) as Hev.
    destruct (seq_from_log _ _ _ _ _ _ _ Hseq) as [H1 H2].
    pose proof (worker_results_seq _ Hev) as E1.
    pose proof (doneputs_seq _ Hev) as E2.
    pose proof (saves_seq _ Hev) as E3.
    unfold worker_results, doneputs, justbuilts, completions, saves in *.
    rewrite !omap_app, replay_world_app, I1, I2, H1, H2, <- I3, E1, E2.
    rewrite length_app, I4, E3. done.
  - intros ex t rest s Hre (I1 & I2 & I3 & I4) Hpc Hq Hr Hn.
    simpl. rewrite Hpc in *. log_events. by rewrite <- I3.
  - intros ex t rest s p ds err Hre (I1 & I2 & I3 & I4) Hpc Hq Hr Hn Hd.
    rewrite Hpc in *. destruct err; simpl; rewrite ?Hpc; log_events;
      by rewrite <- I3.
  - intros vt s Hre (I1 & I2 & I3 & I4) Hpc. rewrite Hpc in *.
    unfold ParallelMake_rest, ParallelMake_exit. simpl.
    destruct (tasksqueued s =? 0); simpl; [|by rewrite <- I3].
    destruct (0 <? Z.of_nat (length vt)) eqn:El; simpl; [by rewrite <- I3|].
    log_events. by rewrite <- I3.
  - intros vt s d dq Hre (I1 & I2 & I3 & I4) Hpc Hdq. rewrite Hpc in *.
    destruct d as [|t]; simpl.
    + log_events. by rewrite <- I3.
    + destruct (del_targets (t_outs t) (pending s)) as [[p ds] err]. simpl.
      destruct I4 as [I4 I5].
      destruct err; simpl; log_events; rewrite ?omap_map_none by done;
        rewrite <- I3, I2, ?app_nil_r; split_and!; try done;
        by rewrite replay_world_dels_done.
  - intros vt s o Hre (I1 & I2 & I3 & I4) Hpc. simpl. rewrite Hpc in *.
    destruct I4 as [I4 I5]. split_and!.
    + log_events. by rewrite I1.
    + log_events. by rewrite I2.
    + log_events. done.
    + exists (trace s), []. rewrite I5, <- I3. done.
  - intros vt s i q Hre (I1 & I2 & I3 & I4) Hw Hq. simpl. done.
  - intros vt s i t q Hre (I1 & I2 & I3 & I4) Hw Hq. simpl. done.
  - intros vt s i t ok w' Hre (I1 & I2 & I3 & I4) Hw Hcall. simpl.
    split_and!.
    + log_events. by rewrite I1.
    + log_events. by rewrite I2.
    + log_events. by rewrite <- I3, Hcall.
    + destruct (at_pc s); try (log_events; by destruct I4 as [-> ->]).
      destruct I4 as (pre & post & E1 & E2 & E3 & E4 & E5).
      exists pre, (post ++ [EvCall t None ok;
                           EvDonePut (if ok then Done t else Failed)]).
      rewrite E1, <- app_assoc. simpl. split_and!; try done.
      * log_events. by rewrite E3.
      * log_events. by rewrite E4.
Qed.

(** * The scheduler's guarantees *)

Lemma busy_length_le (ws : list wstate) : (length (busy ws) <= length ws)%nat.
Proof. induction ws as [|[] ws IH]; simpl; lia. Qed.

(** C1. A task reaches [taskqueue.put] only at a moment when none of its
    explicit deps, ordered inputs and alternate deps is a key of the Pending
    Set; the set recorded at the put is the seeded table minus every deletion
    made so far.  This holds in every state of every execution. *)
Theorem dispatch_only_when_ready tl w s pre t p post :
  reachable' tl w s ->
  trace s = pre ++ EvPut t p :: post ->
  t ∈ tl /\
  p = replay_pending (seed_pending tl) pre /\
  (forall x, x ∈ t_deps t -> p !! x = None) /\
  (forall x, x ∈ t_inputs t -> p !! x = None) /\
  (forall x, x ∈ t_alts t -> p !! x = None).
Proof.
  intros Hre Htr. apply reachable_mreach, mreach_just in Hre.
  destruct Hre as (_ & _ & _ & _ & _ & _ & Hj & _).
  pose proof (jt_split _ _ _ _ _ Hj Htr) as (Ht & Hp & Hr & _).
  pose proof (proj1 (AllSourcesReady_spec _ _) Hr) as Hs. unfold sources in Hs.
  split_and!; try done; intros x Hx; apply Hs; rewrite !elem_of_app; auto.
Qed.

(** C8. With a positive THREADCOUNT, the counter [tasksqueued] is the number
    of tasks put on the task queue minus the number of successes taken from
    the completion queue, it stays between 0 and THREADCOUNT at every point
    of the loop (also in the middle of a scan), exactly THREADCOUNT workers
    exist, and so at most THREADCOUNT actions run at once. *)
Theorem tasksqueued_bounded tl w s :
  0 < THREADCOUNT ->
  reachable' tl w s ->
  0 <= tasksqueued s <= THREADCOUNT /\
  tasksqueued s
  = Z.of_nat (length (puts (trace s))) - Z.of_nat (length (gets_done (trace s))) /\
  (at_pc s <> AtStart -> Z.of_nat (length (workers s)) = THREADCOUNT) /\
  Z.of_nat (length (busy (workers s))) <= THREADCOUNT /\
  (forall todo rest, at_pc s = AtLoop -> tasklist s = todo ++ rest ->
     0 <= tasksqueued (scan' todo [] s).1.1 <= THREADCOUNT).
Proof.
  intros HT Hre. apply reachable_mreach in Hre.
  pose proof (mreach_mode _ _ _ _ Hre) as (M1 & _).
  pose proof (mreach_count _ _ _ _ Hre) as (I1 & I2 & I3 & I4 & I5 & I6 & I7).
  split_and!; try done; try lia.
  - intros H. rewrite (I4 H). lia.
  - pose proof (busy_length_le (workers s)) as Hb.
    destruct (at_pc s) eqn:E; try (rewrite I4 in Hb by done; lia).
    destruct (M1 eq_refl) as [-> _]. simpl. lia.
  - intros todo rest Hpc Htl.
    destruct (scan' todo [] s) as [[s1 ex1] err] eqn:Hs. simpl.
    apply (scan_msteps _ rest) in Hs as [_ Hs]; [|done]. simpl in Hs.
    rewrite <- Htl in Hs.
    assert (exists vt1 s2, mreach tl w vt1 s2 /\ tasksqueued s2 = tasksqueued s1)
      as (vt1 & s2 & Hre1 & <-).
    { destruct err as [k|].
      - eexists _, _. split; [eapply rtc_trans; [apply Hre|apply Hs]|done].
      - destruct Hs as [_ Hs]. eexists _, _.
        split; [eapply rtc_trans; [apply Hre|apply Hs]|done]. }
    pose proof (mreach_count _ _ _ _ Hre1) as (J1 & J2 & _). lia.
Qed.



(** C7. SaveDependencyCache runs in the [finally] clause whatever the way
    RunDependencyQueue was left (return, exit, KeyError, exception of an
    action), and only there: it is called exactly once in a run that ends and
    never more than once; what it saves is the world as left by every
    JustBuilt logged before it, and no JustBuilt comes after it. *)
Theorem cache_saved_once tl w s :
  reachable' tl w s ->
  (forall o, at_pc s = AtFinally o ->
     exists s', step' Main s = Some s' /\ at_pc s' = AtEnd o /\
                saved s' = [world s] /\ saves (trace s') = 1%nat) /\
  (saves (trace s) <= 1)%nat /\
  (forall o, at_pc s = AtEnd o ->
     exists pre post,
       trace s = pre ++ EvSave :: post /\ saves pre = 0%nat /\
       saves post = 0%nat /\ justbuilts post = [] /\
       saved s = [replay_world w pre] /\ saves (trace s) = 1%nat) /\
  ((forall o, at_pc s <> AtEnd o) -> saved s = [] /\ saves (trace s) = 0%nat).
Proof.
  intros Hre. apply reachable_mreach in Hre.
  pose proof (mreach_log _ _ _ _ Hre) as (_ & _ & L3 & L4).
  assert (forall pre post, saves (pre ++ EvSave :: post)
                           = (saves pre + S (saves post))%nat) as Hsv.
  { intros pre post. unfold saves. by rewrite omap_app, length_app. }
  split_and!.
  - intros o Hpc. simpl. unfold main_step. rewrite Hpc. eexists. split; [done|].
    rewrite Hpc in L4. destruct L4 as [L4 L5]. simpl.
    rewrite L5. split_and!; try done.
    rewrite (Hsv (trace s) []). rewrite L4. done.
  - destruct (at_pc s); try (destruct L4 as [-> _]; lia).
    destruct L4 as (pre & post & -> & E1 & E2 & _). rewrite Hsv. lia.
  - intros o Hpc. rewrite Hpc in L4.
    destruct L4 as (pre & post & E0 & E1 & E2 & E3 & E4).
    exists pre, post. split_and!; try done. rewrite E0, Hsv. lia.
  - intros Hne. destruct (at_pc s); try by destruct L4.
    by destruct (Hne o).
Qed.

(** C9. The pending table is seeded with every output of every task before
    the loop starts.  An entry is never removed twice; it has been removed
    (once) exactly when it was seeded and is no longer in the table; each
    removal belongs to a task that was found up to date after a readiness
    check, or whose success was taken from the completion queue after its
    action had returned; and when ParallelMake returns every seeded entry has
    been removed exactly once. *)
Theorem pending_entries_removed_once tl w s :
  THREADCOUNT <> 0 ->
  reachable' tl w s ->
  (step' Main (init tl w) = Some (enter' (init tl w)) /\
   at_pc (enter' (init tl w)) = AtLoop /\
   trace (enter' (init tl w)) = [] /\
   forall t k, t ∈ tl -> k ∈ t_outs t ->
     is_Some (pending (enter' (init tl w)) !! k)) /\
  (forall k, (removals k (trace s) <= 1)%nat) /\
  (at_pc s <> AtStart ->
   forall k, removals k (trace s) = 1%nat
             <-> is_Some (seed_pending tl !! k) /\ pending s !! k = None) /\
  (forall pre t k post, trace s = pre ++ EvDelSkipped t k :: post ->
     t ∈ tl /\ k ∈ t_outs t /\
     EvNeedsBuild (t_outs t) (t_deps t) false ∈ pre) /\
  (forall pre t k post, trace s = pre ++ EvDelDone t k :: post ->
     t ∈ tl /\ k ∈ t_outs t /\ EvGet (Done t) ∈ pre /\
     EvCall t None true ∈ pre) /\
  (returned (at_pc s) ->
   pending s = ∅ /\
   forall k, is_Some (seed_pending tl !! k) -> removals k (trace s) = 1%nat).
Proof.
  intros HT Hre. apply reachable_mreach in Hre.
  pose proof (mreach_mode _ _ _ _ Hre) as (M1 & _).
  pose proof (mreach_just _ _ _ _ Hre) as (_ & _ & _ & _ & _ & _ & Hj & _).
  pose proof (mreach_pending _ _ _ _ Hre) as (P1 & P2 & P3 & P4).
  pose proof (mreach_count _ _ _ _ Hre) as (_ & _ & _ & _ & _ & C6 & _).
  assert (forall k, at_pc s <> AtStart ->
            (removals k (trace s) + (if pending s !! k is Some _ then 1 else 0)
             = if seed_pending tl !! k is Some _ then 1 else 0)%nat) as Hc.
  { intros k Hne. by apply P1. }
  split_and!.
  - simpl. unfold main_step, RunDependencyQueue. simpl.
    apply Z.eqb_neq in HT. by rewrite HT.
  - done.
  - done.
  - intros t k Ht Hk. simpl. apply seed_pending_lookup. eauto.
  - intros k. destruct (at_pc s) eqn:E.
    { destruct (M1 eq_refl) as [-> _]. simpl. unfold removals. simpl. lia. }
    all: specialize (Hc k ltac:(done));
      destruct (pending s !! k), (seed_pending tl !! k); lia.
  - intros Hne k. specialize (Hc k Hne).
    destruct (pending s !! k) eqn:E1, (seed_pending tl !! k) eqn:E2;
      split; try lia; try done;
      try (by intros [_ [=]]); try (by intros [[? [=]] _]).
  - intros pre t k post Htr. by pose proof (jt_split _ _ _ _ _ Hj Htr).
  - intros pre t k post Htr.
    pose proof (jt_split _ _ _ _ _ Hj Htr) as (Ht & Hk & Hg).
    split_and!; try done.
    apply list_elem_of_split in Hg as (a & b & ->).
    rewrite <- app_assoc in Htr. simpl in Htr.
    pose proof (jt_split _ _ _ _ _ Hj Htr) as Hd. simpl in Hd.
    apply list_elem_of_split in Hd as (a' & b' & ->).
    rewrite <- app_assoc in Htr. simpl in Htr.
    pose proof (jt_split _ _ _ _ _ Hj Htr) as Hcall. simpl in Hcall.
    in_trace.
  - intros Hret.
    assert (at_pc s <> AtStart) as Hne by (destruct Hret as [-> | ->]; done).
    assert (~ aborted (at_pc s)) as Hab.
    { destruct Hret as [-> | ->]; simpl; auto. }
    destruct (C6 Hret) as (Hjobs & Hbusy & Hdq).
    assert (forall k, pending s !! k = None) as Hempty.
    { intros k. specialize (Hc k Hne).
      destruct (seed_pending tl !! k) eqn:E2.
      - assert (is_Some (seed_pending tl !! k)) as Hs by eauto.
        apply seed_pending_lookup in Hs as (t & Ht & Hk).
        assert (Failed ∉ donequeue s) as Hf by (rewrite Hdq; by intros ?%not_elem_of_nil).
        destruct (P3 HT Hab Hf t Ht) as [H|[H|[H|[H|H]]]].
        + rewrite (P4 HT Hret) in H. by apply not_elem_of_nil in H.
        + apply elem_of_jobs in H. rewrite Hjobs in H.
          by apply not_elem_of_nil in H.
        + apply elem_of_busy in H. rewrite Hbusy in H.
          by apply not_elem_of_nil in H.
        + rewrite Hdq in H. by apply not_elem_of_nil in H.
        + by apply H.
      - destruct (pending s !! k); [lia|done]. }
    split.
    + by apply map_empty.
    + intros k [v Hk]. specialize (Hc k Hne). rewrite Hk, Hempty in Hc. lia.
Qed.

(** ** What comes after the failure value *)

Lemma finished_step l s s' o :
  at_pc s = AtFinally o \/ at_pc s = AtEnd o ->
  step' l s = Some s' ->
  (at_pc s' = AtFinally o \/ at_pc s' = AtEnd o) /\
  puts (trace s') = puts (trace s) /\ gets (trace s') = gets (trace s).
Proof.
  intros Hpc. destruct l as [|i]; simpl.
  - unfold main_step. destruct Hpc as [-> | ->]; [|done].
    intros [= <-]. simpl. unfold puts, gets. rewrite !omap_app. simpl.
    rewrite !app_nil_r. auto.
  - intros H. apply BuildWorker_inv in H
      as [(q & Hwi & Hq & ->)
         |[(t & q & Hwi & Hq & ->)|(t & ok & w' & Hwi & Hcall & ->)]];
      simpl; try done.
    unfold puts, gets. rewrite !omap_app. simpl. rewrite !app_nil_r. auto.
Qed.

Lemma finished_run ls s s' o :
  at_pc s = AtFinally o \/ at_pc s = AtEnd o ->
  run' ls s = Some s' ->
  (at_pc s' = AtFinally o \/ at_pc s' = AtEnd o) /\
  puts (trace s') = puts (trace s) /\ gets (trace s') = gets (trace s).
Proof.
  revert s. induction ls as [|l ls IH]; intros s Hpc; simpl.
  - intros [= <-]. auto.
  - destruct (step' l s) as [s1|] eqn:E; [|done]. intros H.
    destruct (finished_step _ _ _ _ Hpc E) as (Hpc1 & E1 & E2).
    destruct (IH _ Hpc1 H) as (? & ? & ?). split_and!; congruence.
Qed.

(** C4 (amended). When the main thread takes the failure value 0 from the
    completion queue it exits at once with the fixed message
    "Build process aborting." (exit status 1): the message does not name the
    failing target, the queues and the workers are left as they are, nothing
    is dispatched and nothing more is taken from the completion queue
    afterwards. *)
Theorem failure_aborts_at_once tl w s dq :
  reachable' tl w s ->
  at_pc s = AtGet ->
  donequeue s = Failed :: dq ->
  exists s1,
    step' Main s = Some s1 /\
    at_pc s1 = AtFinally (SystemExit BuildAborting) /\
    exit_status (SystemExit BuildAborting) = 1 /\
    exit_text BuildAborting = "Build process aborting."%string /\
    taskqueue s1 = taskqueue s /\ workers s1 = workers s /\
    donequeue s1 = dq /\ tasksqueued s1 = tasksqueued s /\
    pending s1 = pending s /\
    forall ls s2, run' ls s1 = Some s2 ->
      puts (trace s2) = puts (trace s) /\
      gets (trace s2) = gets (trace s) ++ [Failed] /\
      (at_pc s2 = AtFinally (SystemExit BuildAborting) \/
       at_pc s2 = AtEnd (SystemExit BuildAborting)).
Proof.
  intros _ Hpc Hdq. simpl. unfold main_step. rewrite Hpc, Hdq.
  eexists. split; [done|]. simpl. split_and!; try done.
  intros ls s2 Hrun.
  eapply finished_run in Hrun as (H1 & H2 & H3); [|by left].
  rewrite H2, H3. simpl. unfold puts, gets. rewrite !omap_app. simpl.
  rewrite !app_nil_r. auto.
Qed.

(** ** Tasks that are up to date *)

Lemma del_targets_other (ts : list string) (p p' : gmap string nat) ds err k :
  del_targets ts p = (p', ds, err) -> k ∉ ts -> p' !! k = p !! k.
Proof.
  revert p p' ds err. induction ts as [|a ts IH]; intros p p' ds err; simpl.
  - by intros [= <- <- <-].
  - destruct (p !! a) eqn:Ha; [|by intros [= <- <- <-]].
    destruct (del_targets ts (delete a p)) as [[q ds'] e'] eqn:E.
    intros [= <- <- <-] Hk. apply not_elem_of_cons in Hk as [Hne Hk].
    rewrite (IH _ _ _ _ E Hk). by apply lookup_delete_ne.
Qed.


(** ** SequentialMake goes through the list in order *)



Lemma seq_calls_sublist i n todo w o w' evs :
  seq_from' i n todo w = (o, w', evs) -> calls evs `sublist_of` todo.
Proof.
  revert i w o w' evs. induction todo as [|t rest IH]; intros i w o w' evs; simpl.
  - intros [= <- <- <-]. constructor.
  - destruct (NeedsBuild w (t_outs t) (t_deps t)).
    + destruct (act' t (Some (i, n)) w) as [[|] w1].
      * destruct (seq_from' (S i) n rest _) as [[o2 w2] evs2] eqn:E.
        intros [= <- <- <-]. simpl. apply sublist_skip. by eapply IH.
      * intros [= <- <- <-]. simpl. apply sublist_skip. apply sublist_nil_l.
    + destruct (seq_from' (S i) n rest w) as [[o2 w2] evs2] eqn:E.
      intros [= <- <- <-]. simpl. apply sublist_cons. by eapply IH.
Qed.


(** ** Starvation *)

Lemma exec_reachable ls tl w :
  reachable' tl w (exec World NeedsBuild JustBuilt call THREADCOUNT ls tl w).
Proof.
  unfold exec. destruct (run' ls (init tl w)) as [s|] eqn:E; [|constructor].
  eapply run_reachable; [constructor|done].
Qed.

Lemma scan_none_ready todo ex s :
  (forall t, t ∈ todo -> AllSourcesReady t (pending s) = false) ->
  scan' todo ex s = (s, ex ++ todo, None).
Proof.
  revert ex. induction todo as [|t rest IH]; intros ex H; simpl.
  - by rewrite app_nil_r.
  - rewrite (H t) by left. rewrite andb_false_r.
    rewrite IH by (intros; apply H; by right). by rewrite <- app_assoc.
Qed.

(** A pass of the loop in a starved state (tasks left, none ready, none in
    flight) changes nothing: the [continue] brings the main thread back to
    the top of the loop in the very same state, whatever THREADCOUNT is. *)
Lemma starved_pass_changes_nothing s :
  at_pc s = AtLoop -> tasksqueued s = 0 -> tasklist s <> [] ->
  (forall t, t ∈ tasklist s -> AllSourcesReady t (pending s) = false) ->
  step' Main s = Some s.
Proof.
  intros Hpc Hq Hne Hr. simpl. unfold main_step. rewrite Hpc. f_equal.
  assert (rest' s = s) as Hrest.
  { unfold ParallelMake_rest. rewrite Hq. simpl.
    destruct (tasklist s) eqn:E; [done|]. simpl.
    destruct s; simpl in *. by subst. }
  unfold ParallelMake_cycle. destruct (tasksqueued s <? THREADCOUNT); [|done].
  rewrite scan_none_ready by done. simpl. by rewrite set_tasklist_same.
Qed.

Definition no_dependency_exit (p : pc) : Prop :=
  match p with
  | AtFinally (SystemExit (DependencyProblems _ _))
  | AtEnd (SystemExit (DependencyProblems _ _)) => False
  | _ => True
  end.

(** The [exit("Dependency problems: ...")] after the loop is dead code: the
    loop is left by [break] only with an empty task list. *)
Lemma dependency_exit_unreachable tl w s :
  reachable' tl w s -> no_dependency_exit (at_pc s).
Proof.
  intros Hre. apply reachable_mreach in Hre. revert Hre.
  generalize (tasklist s). intros vt. revert vt s.
  apply (mreach_cases (fun _ s => no_dependency_exit (at_pc s))); try done.
  - intros s o w' evs _ _ _ _ Hseq. simpl.
    assert (forall i n todo w0 o0 w1 evs0,
              seq_from' i n todo w0 = (o0, w1, evs0) ->
              o0 = Returns \/ exists t, o0 = ActionRaised t) as Hout.
    { intros i n todo. revert i. induction todo as [|t rest IH];
        intros i w0 o0 w1 evs0; simpl.
      - intros [= <- <- <-]. by left.
      - destruct (NeedsBuild w0 (t_outs t) (t_deps t)).
        + destruct (act' t (Some (i, n)) w0) as [[|] w2].
          * destruct (seq_from' (S i) n rest _) as [[o2 w3] evs2] eqn:E.
            intros [= <- <- <-]. by eapply IH.
          * intros [= <- <- <-]. right. by exists t.
        + destruct (seq_from' (S i) n rest w0) as [[o2 w3] evs2] eqn:E.
          intros [= <- <- <-]. by eapply IH. }
    by destruct (Hout _ _ _ _ _ _ _ Hseq) as [->|[t ->]].
  - intros ex t rest s p ds err _ Hi _ _ _ _ _. by destruct err.
  - intros vt s _ _ _. unfold ParallelMake_rest, ParallelMake_exit. simpl.
    destruct (tasksqueued s =? 0); [|done].
    by destruct (0 <? Z.of_nat (length vt)) eqn:E.
  - intros vt s d dq _ _ _ _. destruct d as [|t]; [done|]. simpl.
    by destruct (del_targets (t_outs t) (pending s)) as [[p ds] [k|]].
  - intros vt s o _ H Hpc. rewrite Hpc in H. done.
Qed.

End Proofs.

(** * Progress, order and termination *)

Section Progress.

Context {World : Type}.
Variable NeedsBuild : World -> list string -> list string -> bool.
Variable JustBuilt : World -> list string -> list string -> World.
Variable call :
  string -> string -> list string -> list string -> progress -> World ->
  bool * World.
Variable THREADCOUNT : Z.

Local Abbreviation act' := (run_action World call).
Local Abbreviation scan' := (scan World NeedsBuild THREADCOUNT).
Local Abbreviation cycle' := (ParallelMake_cycle World NeedsBuild THREADCOUNT).
Local Abbreviation rest' := (ParallelMake_rest World THREADCOUNT).
Local Abbreviation exit' := (ParallelMake_exit World THREADCOUNT).
Local Abbreviation done' := (ParallelMake_done World JustBuilt).
Local Abbreviation enter' := (ParallelMake_enter World THREADCOUNT).
Local Abbreviation seq_from' := (SequentialMake_from World NeedsBuild JustBuilt call).
Local Abbreviation seq' := (SequentialMake World NeedsBuild JustBuilt call).
Local Abbreviation rdq' := (RunDependencyQueue World NeedsBuild JustBuilt call THREADCOUNT).
Local Abbreviation save' := (SaveDependencyCache World).
Local Abbreviation main' := (main_step World NeedsBuild JustBuilt call THREADCOUNT).
Local Abbreviation worker' := (BuildWorker World call).
Local Abbreviation step' := (step World NeedsBuild JustBuilt call THREADCOUNT).
Local Abbreviation run' := (run World NeedsBuild JustBuilt call THREADCOUNT).
Local Abbreviation reachable' := (reachable World NeedsBuild JustBuilt call THREADCOUNT).
Local Abbreviation mreach' := (mreach NeedsBuild JustBuilt call THREADCOUNT).
Local Abbreviation cases' := (mreach_cases NeedsBuild JustBuilt call THREADCOUNT).
Local Abbreviation to_mreach := (reachable_mreach NeedsBuild JustBuilt call THREADCOUNT).
Local Abbreviation mode' := (mreach_mode NeedsBuild JustBuilt call THREADCOUNT).
Local Abbreviation count' := (mreach_count NeedsBuild JustBuilt call THREADCOUNT).
Local Abbreviation just' := (mreach_just NeedsBuild JustBuilt call THREADCOUNT).

Implicit Types (s : state World) (t : task) (vt tl : list task).

(** ** Stop values and the workers that took one *)

Lemma stops_app (q1 q2 : list qitem) : stops (q1 ++ q2) = (stops q1 + stops q2)%nat.
Proof. unfold stops. by rewrite omap_app, length_app. Qed.

Lemma stops_replicate (n : nat) : stops (replicate n Stop) = n.
Proof. unfold stops. induction n; simpl; auto. Qed.

Lemma gone_replicate_idle (n : nat) : gone (replicate n WIdle) = 0%nat.
Proof. unfold gone. induction n; simpl; auto. Qed.

Lemma gone_insert (ws : list wstate) (i : nat) (x y : wstate) :
  ws !! i = Some x ->
  (gone (<[i := y]> ws) + gone [x] = gone ws + gone [y])%nat.
Proof.
  revert i. induction ws as [|a ws IH]; intros [|i]; simpl; try done.
  - intros [= ->]. unfold gone. destruct x, y; simpl; lia.
  - intros H. specialize (IH _ H). unfold gone in *. simpl in *.
    destruct a; simpl in *; unfold omap in *; lia.
Qed.

(** Every worker is waiting, running an action, or gone. *)
Lemma workers_split (ws : list wstate) (i : nat) :
  busy ws = [] -> gone ws = 0%nat -> is_Some (ws !! i) -> ws !! i = Some WIdle.
Proof.
  unfold gone. revert i. induction ws as [|a ws IH]; intros i Hb Hg [x Hx].
  - done.
  - destruct a; simpl in *; try done. destruct i as [|i]; [done|].
    simpl in *. apply IH; eauto.
Qed.

Lemma gone_le (ws : list wstate) (i : nat) :
  ws !! i = Some WIdle -> (gone ws < length ws)%nat.
Proof.
  assert (forall l : list wstate, (gone l <= length l)%nat) as Hle.
  { unfold gone. induction l as [|[] l IHl]; simpl in *; unfold omap in *; lia. }
  revert i. induction ws as [|a ws IH]; intros [|i]; simpl; try done.
  - intros [= ->]. specialize (Hle ws). unfold gone in *. simpl.
    unfold omap in *. lia.
  - intros H. specialize (IH _ H). unfold gone in *. simpl in *.
    destruct a; simpl in *; unfold omap in *; lia.
Qed.

Definition inv_threads vt s : Prop :=
  (~ returned (at_pc s) -> stops (taskqueue s) = 0%nat /\ gone (workers s) = 0%nat) /\
  (returned (at_pc s) ->
   (stops (taskqueue s) + gone (workers s))%nat = Z.to_nat THREADCOUNT).

Ltac use_pc :=
  repeat match goal with
  | H : ?P -> _ |- _ =>
      match type of P with Prop => idtac end;
      let HP := fresh in
      assert P as HP
        by (done || (left; done) || (right; done) || (simpl; tauto));
      specialize (H HP); clear HP
  end.

Ltac fin :=
  split_and?;
  first [ done | lia | by intros [|] | by (intros; split_and?; auto) | idtac ].

Lemma returned_dec (p : pc) : returned p \/ ~ returned p.
Proof.
  unfold returned. destruct p as [| | |[]|[]]; try (right; by intros [|]);
    [left; by left|left; by right].
Qed.

Lemma mreach_threads tl w vt s : mreach' tl w vt s -> inv_threads vt s.
Proof.
  revert vt s. unfold inv_threads. apply cases'.
  - simpl. split; [done|]. by intros [|].
  - intros s _ (I1 & I2) Hpc HT. simpl. rewrite gone_replicate_idle.
    rewrite Hpc in *. split; [|by intros [|]]. intros _.
    destruct I1 as [-> _]; [by intros [|]|done].
  - intros s o w' evs Hre (I1 & I2) Hpc HT Hseq. simpl. rewrite Hpc in *.
    apply Z.eqb_eq in HT. destruct I1 as [-> ->]; [by intros [|]|].
    split; [done|]. intros _. by rewrite HT.
  - intros ex t rest s _ (I1 & I2) Hpc Hq Hr Hn. simpl. rewrite Hpc in *.
    rewrite stops_app. split; [|by intros [|]]. intros _.
    destruct I1 as [-> ->]; [by intros [|]|done].
  - intros ex t rest s p ds err _ (I1 & I2) Hpc Hq Hr Hn Hd. rewrite Hpc in *.
    destruct I1 as [E1 E2]; [by intros [|]|].
    destruct err; simpl; rewrite ?Hpc; (split; [done|by intros [|]]).
  - intros vt s _ (I1 & I2) Hpc. rewrite Hpc in *.
    destruct I1 as [E1 E2]; [by intros [|]|].
    unfold ParallelMake_rest, ParallelMake_exit. simpl.
    destruct (tasksqueued s =? 0); [|simpl; split; [done|by intros [|]]].
    destruct (0 <? Z.of_nat (length vt)); simpl.
    + split; [done|by intros [|]].
    + rewrite stops_app, stops_replicate, E1, E2. split; [|intros _; lia].
      intros H. destruct H. by left.
  - intros vt s d dq _ (I1 & I2) Hpc Hdq. rewrite Hpc in *.
    destruct I1 as [E1 E2]; [by intros [|]|].
    destruct d as [|t]; simpl; [split; [done|by intros [|]]|].
    destruct (del_targets (t_outs t) (pending s)) as [[p ds] [k|]]; simpl;
      (split; [done|by intros [|]]).
  - intros vt s o _ (I1 & I2) Hpc. simpl. rewrite Hpc in *. split.
    + intros H. apply I1. intros [[= ->]|[=]]. apply H. by right.
    + intros [[=]|[= ->]]. apply I2. by left.
  - intros vt s i q _ (I1 & I2) Hw Hq. simpl.
    pose proof (gone_insert _ _ _ WReturned Hw) as Hg.
    rewrite Hq in *. unfold stops, gone in *. simpl in *. split.
    + intros H. destruct (I1 H) as [[=] _].
    + intros H. specialize (I2 H). unfold omap in *. lia.
  - intros vt s i t q _ (I1 & I2) Hw Hq. simpl.
    pose proof (gone_insert _ _ _ (WBusy t) Hw) as Hg.
    rewrite Hq in *. unfold stops, gone in *. simpl in *. split.
    + intros H. destruct (I1 H) as [E1 E2]. unfold omap in *. split; lia.
    + intros H. specialize (I2 H). unfold omap in *. lia.
  - intros vt s i t ok w' _ (I1 & I2) Hw Hcall. simpl.
    pose proof (gone_insert _ _ _ WIdle Hw) as Hg.
    unfold stops, gone in *. simpl in *. split.
    + intros H. destruct (I1 H) as [E1 E2]. unfold omap in *. split; lia.
    + intros H. specialize (I2 H). unfold omap in *. lia.
Qed.

(** X1. The main thread never waits for nothing.  When it cannot take a
    step, the program has ended, or it is blocked in [donequeue.get()] on an
    empty queue while a task is in flight; then at most two steps of one
    worker (take the task, end its action) put an entry on the queue and the
    main thread can go on. *)
Theorem blocked_main_is_released tl w s :
  reachable' tl w s ->
  step' Main s = None ->
  (exists o, at_pc s = AtEnd o) \/
  (at_pc s = AtGet /\ donequeue s = [] /\
   (jobs (taskqueue s) <> [] \/ busy (workers s) <> []) /\
   exists i ls s',
     (ls = [Worker i] \/ ls = [Worker i; Worker i]) /\
     run' ls s = Some s' /\ donequeue s' <> [] /\ is_Some (step' Main s')).
Proof.
  intros Hre Hstuck. apply to_mreach in Hre.
  pose proof (count' _ _ _ _ Hre) as (C1 & C2 & C3 & C4 & C5 & _).
  pose proof (mreach_threads _ _ _ _ Hre) as (T1 & _).
  simpl in Hstuck. unfold main_step in Hstuck.
  destruct (at_pc s) eqn:Hpc; try done; [|left; eauto].
  destruct (donequeue s) as [|d dq] eqn:Hdq; [|done].
  right. split; [done|]. split; [done|].
  rewrite ?Hpc, ?Hdq in *. use_pc. simpl in C5.
  destruct T1 as [S0 G0]; [by intros [|]|].
  assert (forall i t, workers s !! i = Some (WBusy t) ->
            exists s', worker' i s = Some s' /\ donequeue s' <> [] /\
                       at_pc s' = AtGet) as Hbusy.
  { intros i t Hi. unfold BuildWorker. rewrite Hi.
    destruct (act' t None (world s)) as [ok w1].
    eexists. split; [done|]. simpl. rewrite Hdq. done. }
  assert (forall s', donequeue s' <> [] -> at_pc s' = AtGet ->
                     is_Some (step' Main s')) as Hgo.
  { intros s' Hne Hpc'. simpl. unfold main_step. rewrite Hpc'.
    destruct (donequeue s'); [done|]. eauto. }
  destruct (busy (workers s)) as [|t bs] eqn:Hb.
  - destruct (taskqueue s) as [|[|t] q] eqn:Hq.
    + simpl in C5. lia.
    + unfold stops in S0. done.
    + split; [by left|].
      assert (workers s !! 0%nat = Some WIdle) as Hw.
      { apply workers_split; [done..|]. apply lookup_lt_is_Some. lia. }
      set (s1 := set_worker World 0 (WBusy t) q s).
      assert (worker' 0 s = Some s1) as H1.
      { unfold BuildWorker. by rewrite Hw, Hq. }
      assert (workers s1 !! 0%nat = Some (WBusy t)) as Hw1.
      { simpl. apply list_lookup_insert_eq. lia. }
      assert (exists s', worker' 0 s1 = Some s' /\ donequeue s' <> [] /\
                         at_pc s' = AtGet) as (s2 & H2 & Hne & Hpc2).
      { unfold BuildWorker. rewrite Hw1.
        destruct (act' t None (world s1)) as [ok w1].
        eexists. split; [done|]. simpl. rewrite Hdq. done. }
      exists 0%nat, [Worker 0; Worker 0], s2. split_and!; auto.
      simpl. by rewrite H1, H2.
  - split; [by right|].
    assert (t ∈ busy (workers s)) as Ht by (rewrite Hb; left).
    apply elem_of_busy, list_elem_of_lookup in Ht as [i Hi].
    destruct (Hbusy i t Hi) as (s' & H1 & Hne & Hpc').
    exists i, [Worker i], s'. split_and!; auto. simpl. by rewrite H1.
Qed.

(** X2. One stop value per worker.  As long as ParallelMake has not
    returned, no stop value is on the task queue and no worker has left its
    loop; in particular a build that aborts never tells its workers to stop.
    Once it has returned, the task queue holds stop values only, no worker
    runs an action, the stop values still queued and the workers gone add up
    to THREADCOUNT, and every worker still waiting finds a stop value at the
    head of the queue. *)
Theorem one_stop_per_worker tl w s :
  reachable' tl w s ->
  (~ returned (at_pc s) ->
   stops (taskqueue s) = 0%nat /\ gone (workers s) = 0%nat) /\
  (returned (at_pc s) ->
   (stops (taskqueue s) + gone (workers s))%nat = Z.to_nat THREADCOUNT /\
   jobs (taskqueue s) = [] /\ busy (workers s) = [] /\
   forall i, workers s !! i = Some WIdle ->
     exists q, taskqueue s = Stop :: q /\
               worker' i s = Some (set_worker World i WReturned q s)).
Proof.
  intros Hre. apply to_mreach in Hre.
  pose proof (count' _ _ _ _ Hre) as (C1 & C2 & C3 & C4 & C5 & C6 & _).
  pose proof (mreach_threads _ _ _ _ Hre) as (T1 & T2).
  split; [done|]. intros Hret. specialize (T2 Hret).
  destruct (C6 Hret) as (Hj & Hb & _). split_and!; try done.
  intros i Hi. pose proof (gone_le _ _ Hi) as Hg.
  rewrite C4 in Hg by (intros E; rewrite E in Hret; by destruct Hret).
  destruct (taskqueue s) as [|[|t] q] eqn:Hq.
  - unfold stops in T2. simpl in T2. lia.
  - exists q. split; [done|]. unfold BuildWorker. by rewrite Hi, Hq.
  - done.
Qed.

(** ** Where the dispatched tasks are *)

Lemma busy_insert_perm (ws : list wstate) (i : nat) (x y : wstate) :
  ws !! i = Some x -> busy [y] ++ busy ws ≡ₚ busy [x] ++ busy (<[i := y]> ws).
Proof.
  revert i. induction ws as [|a ws IH]; intros [|i]; simpl; try done.
  - intros [= ->]. destruct x, y; simpl; try done. apply perm_swap.
  - intros H. specialize (IH _ H). destruct a; simpl; try done.
    change (busy [y] ++ t :: busy ws ≡ₚ busy [x] ++ t :: busy (<[i:=y]> ws)).
    rewrite <- !Permutation_middle. by constructor.
Qed.

Lemma ran_app (a b : list event) : ran (a ++ b) = ran a ++ ran b.
Proof. apply omap_app. Qed.

Lemma calls_app (a b : list event) : calls (a ++ b) = calls a ++ calls b.
Proof. apply omap_app. Qed.

Lemma ran_seq (evs : list event) : Forall seq_event evs -> ran evs = [].
Proof. apply omap_seq_nil. intros [] He; try done. by destruct p. Qed.

Lemma ran_dels_skipped t ds : ran (map (EvDelSkipped t) ds) = [].
Proof. induction ds; simpl; auto. Qed.

Lemma ran_dels_done t ds : ran (map (EvDelDone t) ds) = [].
Proof. induction ds; simpl; auto. Qed.

Lemma ran_stops n : ran (replicate n EvPutStop) = [].
Proof. induction n; simpl; auto. Qed.

Lemma calls_dels_skipped t ds : calls (map (EvDelSkipped t) ds) = [].
Proof. induction ds; simpl; auto. Qed.

Lemma calls_dels_done t ds : calls (map (EvDelDone t) ds) = [].
Proof. induction ds; simpl; auto. Qed.

Lemma calls_stops n : calls (replicate n EvPutStop) = [].
Proof. induction n; simpl; auto. Qed.

Ltac flow_events :=
  repeat (progress
    (rewrite ?puts_app, ?ran_app, ?calls_app, ?jobs_app, ?jobs_replicate_Stop,
       ?puts_dels_skipped, ?puts_dels_done, ?puts_stops,
       ?ran_dels_skipped, ?ran_dels_done, ?ran_stops,
       ?calls_dels_skipped, ?calls_dels_done, ?calls_stops, ?app_nil_r; simpl)).

Definition inv_flow tl vt s : Prop :=
  puts (trace s) ≡ₚ jobs (taskqueue s) ++ busy (workers s) ++ ran (trace s) /\
  puts (trace s) ⊆+ tl /\
  (~ aborted (at_pc s) -> puts (trace s) ++ vt ⊆+ tl) /\
  (THREADCOUNT <> 0 -> calls (trace s) = ran (trace s)) /\
  (THREADCOUNT = 0 -> calls (trace s) `sublist_of` tl /\ ran (trace s) = []).

Lemma mreach_flow tl w vt s : mreach' tl w vt s -> inv_flow tl vt s.
Proof.
  revert vt s. unfold inv_flow. apply cases'.
  - simpl. split_and!; try done; try apply submseteq_nil_l.
    intros _. split; [apply sublist_nil_l|done].
  - intros s Hre (I1 & I2 & I3 & I4 & I5) Hpc HT.
    destruct (mode' _ _ _ _ Hre) as ((-> & _) & _); [done|]. simpl.
    rewrite busy_replicate_idle.
    split_and!; try done; try apply submseteq_nil_l.
  - intros s o w' evs Hre (I1 & I2 & I3 & I4 & I5) Hpc HT Hseq.
    destruct (mode' _ _ _ _ Hre) as ((-> & _) & _); [done|]. simpl in *.
    apply Z.eqb_eq in HT.
    pose proof (seq_from_events _ _ _ _ _ _ _ _ _ _ Hseq) as Hev.
    rewrite puts_seq, ran_seq by done.
    split_and!; try done; try apply submseteq_nil_l.
    intros _. split; [|done]. by eapply seq_calls_sublist.
  - intros ex t rest s Hre (I1 & I2 & I3 & I4 & I5) Hpc Hq Hr Hn.
    simpl. rewrite Hpc in *. use_pc. flow_events.
    assert ((puts (trace s) ++ [t]) ++ ex ++ rest ⊆+ tl) as H3.
    { etrans; [|apply I3]. apply Permutation_submseteq. solve_Permutation. }
    split_and!; try done.
    + rewrite I1. solve_Permutation.
    + etrans; [|apply H3]. by apply submseteq_inserts_r.
  - intros ex t rest s p ds err Hre (I1 & I2 & I3 & I4 & I5) Hpc Hq Hr Hn Hd.
    rewrite Hpc in *. use_pc.
    destruct err; simpl; rewrite ?Hpc; flow_events; split_and!; try done.
    + intros H. by destruct H.
    + intros _. etrans; [|apply I3]. apply submseteq_skips_l, submseteq_skips_l.
      by apply submseteq_cons.
  - intros vt s Hre (I1 & I2 & I3 & I4 & I5) Hpc.
    rewrite Hpc in *. use_pc. unfold ParallelMake_rest, ParallelMake_exit. simpl.
    destruct (tasksqueued s =? 0); [|simpl; rewrite ?Hpc; by split_and!].
    destruct (0 <? Z.of_nat (length vt)); simpl; flow_events; by split_and!.
  - intros vt s d dq Hre (I1 & I2 & I3 & I4 & I5) Hpc Hdq.
    rewrite Hpc in *. use_pc. destruct d as [|t]; simpl.
    + flow_events. by split_and!.
    + destruct (del_targets (t_outs t) (pending s)) as [[p ds] [k|]]; simpl;
        flow_events; by split_and!.
  - intros vt s o Hre (I1 & I2 & I3 & I4 & I5) Hpc. simpl. rewrite Hpc in *.
    flow_events. by split_and!.
  - intros vt s i q Hre (I1 & I2 & I3 & I4 & I5) Hw Hq. simpl.
    pose proof (busy_insert_perm _ _ _ WReturned Hw) as Hb. simpl in Hb.
    rewrite Hq in *. simpl in *. rewrite <- Hb. by split_and!.
  - intros vt s i t q Hre (I1 & I2 & I3 & I4 & I5) Hw Hq. simpl.
    pose proof (busy_insert_perm _ _ _ (WBusy t) Hw) as Hb. simpl in Hb.
    rewrite Hq in *. simpl in *. rewrite <- Hb. split_and!; try done.
    rewrite I1. solve_Permutation.
  - intros vt s i t ok w' Hre (I1 & I2 & I3 & I4 & I5) Hw Hcall. simpl.
    pose proof (busy_insert_perm _ _ _ WIdle Hw) as Hb. simpl in Hb.
    flow_events. split_and!; try done.
    + rewrite I1, Hb. solve_Permutation.
    + intros HT. by rewrite I4.
    + intros HT. destruct (mode' _ _ _ _ Hre) as (_ & _ & M3).
      destruct (M3 HT) as (_ & _ & E & _). by rewrite E in Hw.
Qed.

Lemma submseteq_NoDup_l {A} (l k : list A) : l ⊆+ k -> NoDup k -> NoDup l.
Proof.
  intros H Hk. apply submseteq_Permutation in H as [k' H]. rewrite H in Hk.
  by apply NoDup_app in Hk as [? _].
Qed.

(** X3. No task is dispatched or run more often than it is listed.  The
    tasks put on the task queue so far are, as a multiset, those still on the
    queue, those in the hands of a worker and those whose action a worker
    has run; together with the tasks still on the list they never exceed
    the list the build was started on.  So every action invoked, by a worker
    or by SequentialMake, belongs to a task of the list, and a list without
    repetitions has no action run twice. *)
Theorem no_task_runs_twice tl w s :
  reachable' tl w s ->
  puts (trace s) ≡ₚ jobs (taskqueue s) ++ busy (workers s) ++ ran (trace s) /\
  (~ aborted (at_pc s) -> puts (trace s) ++ tasklist s ⊆+ tl) /\
  puts (trace s) ⊆+ tl /\
  calls (trace s) ⊆+ tl /\
  (NoDup tl -> NoDup (puts (trace s)) /\ NoDup (calls (trace s))).
Proof.
  intros Hre. apply to_mreach in Hre.
  destruct (mreach_flow _ _ _ _ Hre) as (I1 & I2 & I3 & I4 & I5).
  assert (calls (trace s) ⊆+ tl) as Hc.
  { destruct (decide (THREADCOUNT = 0)) as [HT|HT].
    - apply sublist_submseteq. by apply I5.
    - rewrite I4 by done. etrans; [|apply I2]. rewrite I1.
      apply submseteq_inserts_l, submseteq_inserts_l. done. }
  split_and!; try done.
  intros Hnd. split; by eapply submseteq_NoDup_l.
Qed.

(** ** Distinct outputs *)

Lemma seq_from_outcome i n todo w o w' evs :
  seq_from' i n todo w = (o, w', evs) ->
  o = Returns \/ exists t, t ∈ todo /\ o = ActionRaised t.
Proof.
  revert i w o w' evs. induction todo as [|t rest IH]; intros i w o w' evs; simpl.
  - intros [= <- <- <-]. by left.
  - destruct (NeedsBuild w (t_outs t) (t_deps t)).
    + destruct (act' t (Some (i, n)) w) as [[|] w1].
      * destruct (seq_from' (S i) n rest _) as [[o2 w2] evs2] eqn:E.
        intros [= <- <- <-]. destruct (IH _ _ _ _ _ E) as [->|(t' & Ht' & ->)];
          [by left|]. right. exists t'. split; [by right|done].
      * intros [= <- <- <-]. right. exists t. split; [left|done].
    + destruct (seq_from' (S i) n rest w) as [[o2 w2] evs2] eqn:E.
      intros [= <- <- <-]. destruct (IH _ _ _ _ _ E) as [->|(t' & Ht' & ->)];
        [by left|]. right. exists t'. split; [by right|done].
Qed.

(** Deleting keys that are all there, each named once, raises nothing. *)
Lemma del_targets_ok (ts : list string) (p : gmap string nat) :
  NoDup ts -> (forall k, k ∈ ts -> is_Some (p !! k)) ->
  exists p', del_targets ts p = (p', ts, None).
Proof.
  revert p. induction ts as [|a ts IH]; intros p Hnd Hin; simpl; [eauto|].
  apply NoDup_cons in Hnd as [Ha Hnd].
  destruct (Hin a) as [v Hv]; [left|]. rewrite Hv.
  destruct (IH (delete a p) Hnd) as [p' Hp'].
  { intros k Hk. rewrite lookup_delete_ne; [apply Hin; by right|].
    intros ->. done. }
  rewrite Hp'. eauto.
Qed.

Definition keys_ok (L : list task) (p : gmap string nat) : Prop :=
  NoDup (outputs L) /\ forall k, k ∈ outputs L -> is_Some (p !! k).

Definition keys_exact (L : list task) (p : gmap string nat) : Prop :=
  forall k, is_Some (p !! k) -> k ∈ outputs L.

Lemma keys_ok_perm (L L' : list task) p : L ≡ₚ L' -> keys_ok L p -> keys_ok L' p.
Proof.
  unfold keys_ok, outputs. intros H [H1 H2]. split.
  - by rewrite <- H.
  - intros k Hk. apply H2. by rewrite H.
Qed.

Lemma keys_exact_perm (L L' : list task) p :
  L ≡ₚ L' -> keys_exact L p -> keys_exact L' p.
Proof.
  unfold keys_exact, outputs. intros H H1 k Hk. rewrite <- H. by apply H1.
Qed.

Lemma keys_ok_drop (L L' : list task) t p :
  L ≡ₚ t :: L' -> keys_ok L p -> keys_ok L' p.
Proof.
  intros H Hk. apply (keys_ok_perm _ _ _ H) in Hk as [H1 H2].
  unfold outputs in *. rewrite bind_cons in *. split.
  - by apply NoDup_app in H1 as (_ & _ & ?).
  - intros k Hk. apply H2. apply elem_of_app. by right.
Qed.

Lemma keys_ok_remove (L L' : list task) t p p' ds err :
  L ≡ₚ t :: L' -> keys_ok L p ->
  del_targets (t_outs t) p = (p', ds, err) ->
  err = None /\ keys_ok L' p'.
Proof.
  intros H Hk Hd. pose proof (keys_ok_drop _ _ _ _ H Hk) as [D1 D2].
  apply (keys_ok_perm _ _ _ H) in Hk as [H1 H2].
  unfold outputs in *. rewrite bind_cons in *.
  apply NoDup_app in H1 as (N1 & N2 & N3).
  destruct (del_targets_ok (t_outs t) p N1) as [q Hq].
  { intros k Hk. apply H2, elem_of_app. by left. }
  rewrite Hq in Hd. injection Hd as <- <- <-. split; [done|]. split; [done|].
  intros k Hk. rewrite (del_targets_other _ _ _ _ _ _ Hq); [by apply D2|].
  intros Hin. by apply (N2 k).
Qed.

Lemma keys_exact_remove (L L' : list task) t p p' ds :
  L ≡ₚ t :: L' -> keys_exact L p ->
  del_targets (t_outs t) p = (p', ds, None) ->
  keys_exact L' p'.
Proof.
  intros H He Hd k Hk. apply (keys_exact_perm _ _ _ H) in He.
  assert (is_Some (p !! k)) as Hp.
  { destruct (p !! k) eqn:E; [eauto|].
    rewrite (del_targets_shrinks _ _ _ _ _ _ Hd E) in Hk. by destruct Hk. }
  specialize (He k Hp). unfold outputs in *. rewrite bind_cons in He.
  apply elem_of_app in He as [He|He]; [|done].
  rewrite (del_targets_gone _ _ _ _ _ Hd He) in Hk. by destruct Hk.
Qed.

Lemma ready_iff_unfed (L : list task) (p : gmap string nat) t :
  keys_ok L p -> keys_exact L p ->
  (AllSourcesReady t p = true <-> forall t', t' ∈ L -> ~ feeds t' t).
Proof.
  intros [_ K2] K3. rewrite AllSourcesReady_spec. split.
  - intros H t' Ht' (x & Hx & Hs). specialize (H x Hs).
    assert (is_Some (p !! x)) as Hsome.
    { apply K2. apply list_elem_of_bind. eauto. }
    rewrite H in Hsome. by destruct Hsome.
  - intros H x Hx. apply eq_None_not_Some. intros Hsome.
    apply K3, list_elem_of_bind in Hsome as (t' & Hx' & Ht').
    apply (H t' Ht'). by exists x.
Qed.

Lemma dones_app (a b : list ditem) : dones (a ++ b) = dones a ++ dones b.
Proof. apply omap_app. Qed.

Definition inv_keys vt s : Prop :=
  ~ key_error (at_pc s) /\
  (running (at_pc s) ->
   keys_ok (unfinished vt s) (pending s) /\
   (Failed ∉ donequeue s -> keys_exact (unfinished vt s) (pending s))).

Lemma mreach_keys tl w :
  NoDup (outputs tl) -> forall vt s, mreach' tl w vt s -> inv_keys vt s.
Proof.
  intros Hnd. unfold inv_keys, key_error, running, unfinished. apply cases'.
  - simpl. split; [by intros (k & [|])|by intros [|]].
  - intros s Hre (I1 & I2) Hpc HT.
    destruct (mode' _ _ _ _ Hre) as ((-> & _) & _); [done|]. simpl.
    rewrite busy_replicate_idle, !app_nil_r.
    split; [by intros (k & [|])|]. intros _. split; [split; [done|]|intros _].
    + intros k Hk. apply seed_pending_lookup.
      apply list_elem_of_bind in Hk as (t & Hk & Ht). eauto.
    + intros k Hk. apply seed_pending_lookup in Hk as (t & Ht & Hk).
      apply list_elem_of_bind. eauto.
  - intros s o w' evs Hre (I1 & I2) Hpc HT Hseq. simpl.
    split; [|by intros [|]].
    destruct (seq_from_outcome _ _ _ _ _ _ _ Hseq) as [->|(t & _ & ->)];
      by intros (k & [|]).
  - intros ex t rest s Hre (I1 & I2) Hpc Hq Hr Hn. simpl. rewrite Hpc in *.
    split; [by intros (k & [|])|]. intros _.
    destruct I2 as [K1 K2]; [by left|]. rewrite jobs_app.
    assert ((ex ++ t :: rest) ++ jobs (taskqueue s) ++ busy (workers s)
              ++ dones (donequeue s)
            ≡ₚ (ex ++ rest) ++ (jobs (taskqueue s) ++ [t]) ++ busy (workers s)
              ++ dones (donequeue s)) as Hp by solve_Permutation.
    split; [by eapply keys_ok_perm|].
    intros HF. eapply keys_exact_perm; eauto.
  - intros ex t rest s p ds err Hre (I1 & I2) Hpc Hq Hr Hn Hd. rewrite Hpc in *.
    destruct I2 as [K1 K2]; [by left|].
    assert ((ex ++ t :: rest) ++ jobs (taskqueue s) ++ busy (workers s)
              ++ dones (donequeue s)
            ≡ₚ t :: (ex ++ rest) ++ jobs (taskqueue s) ++ busy (workers s)
              ++ dones (donequeue s)) as Hp by solve_Permutation.
    destruct (keys_ok_remove _ _ _ _ _ _ _ Hp K1 Hd) as [-> K1'].
    simpl. rewrite Hpc. split; [by intros (k & [|])|]. intros _.
    split; [done|]. intros HF. eapply keys_exact_remove; eauto.
  - intros vt s Hre (I1 & I2) Hpc. rewrite Hpc in *.
    destruct I2 as [K1 K2]; [by left|].
    unfold ParallelMake_rest, ParallelMake_exit. simpl.
    destruct (tasksqueued s =? 0); simpl.
    + destruct (0 <? Z.of_nat (length vt)); simpl.
      * split; [by intros (k & [|])|]. done.
      * split; [by intros (k & [|])|]. by intros [|].
    + split; [by intros (k & [|])|]. done.
  - intros vt s d dq Hre (I1 & I2) Hpc Hdq. rewrite Hpc, Hdq in *.
    destruct I2 as [K1 K2]; [by right|].
    destruct d as [|t]; simpl.
    { split; [by intros (k & [|])|by intros [|]]. }
    simpl in K1, K2.
    assert (vt ++ jobs (taskqueue s) ++ busy (workers s) ++ t :: dones dq
            ≡ₚ t :: vt ++ jobs (taskqueue s) ++ busy (workers s) ++ dones dq)
      as Hp by solve_Permutation.
    destruct (del_targets (t_outs t) (pending s)) as [[p ds] err] eqn:Hd.
    destruct (keys_ok_remove _ _ _ _ _ _ _ Hp K1 Hd) as [-> K1'].
    simpl. split; [by intros (k & [|])|]. intros _.
    split; [done|]. intros HF. eapply keys_exact_remove; eauto.
    apply K2. by apply not_elem_of_cons.
  - intros vt s o Hre (I1 & I2) Hpc. simpl. rewrite Hpc in *.
    split; [|by intros [|]].
    intros (k & [[=]|[= ->]]). apply I1. exists k. by left.
  - intros vt s i q Hre (I1 & I2) Hw Hq. simpl.
    pose proof (busy_insert_perm _ _ _ WReturned Hw) as Hb. simpl in Hb.
    rewrite Hq in *. simpl in *. split; [done|]. intros Hrun.
    destruct (I2 Hrun) as [K1 K2].
    assert (vt ++ jobs q ++ busy (workers s) ++ dones (donequeue s)
            ≡ₚ vt ++ jobs q ++ busy (<[i:=WReturned]> (workers s))
                 ++ dones (donequeue s)) as Hp by (by rewrite <- Hb).
    split; [by eapply keys_ok_perm|].
    intros HF. eapply keys_exact_perm; eauto.
  - intros vt s i t q Hre (I1 & I2) Hw Hq. simpl.
    pose proof (busy_insert_perm _ _ _ (WBusy t) Hw) as Hb. simpl in Hb.
    rewrite Hq in *. simpl in *. split; [done|]. intros Hrun.
    destruct (I2 Hrun) as [K1 K2].
    assert (vt ++ t :: jobs q ++ busy (workers s) ++ dones (donequeue s)
            ≡ₚ vt ++ jobs q ++ busy (<[i:=WBusy t]> (workers s))
                 ++ dones (donequeue s)) as Hp.
    { rewrite <- Hb. solve_Permutation. }
    split; [by eapply keys_ok_perm|].
    intros HF. eapply keys_exact_perm; eauto.
  - intros vt s i t ok w' Hre (I1 & I2) Hw Hcall. simpl.
    pose proof (busy_insert_perm _ _ _ WIdle Hw) as Hb. simpl in Hb.
    split; [done|]. intros Hrun. destruct (I2 Hrun) as [K1 K2].
    rewrite dones_app. destruct ok; simpl.
    + assert (vt ++ jobs (taskqueue s) ++ busy (workers s)
                ++ dones (donequeue s)
              ≡ₚ vt ++ jobs (taskqueue s) ++ busy (<[i:=WIdle]> (workers s))
                ++ dones (donequeue s) ++ [t]) as Hp.
      { rewrite Hb. solve_Permutation. }
      split; [by eapply keys_ok_perm|].
      intros HF. eapply keys_exact_perm; [done|]. apply K2.
      intros H. apply HF. apply elem_of_app. by left.
    + assert (vt ++ jobs (taskqueue s) ++ busy (workers s)
                ++ dones (donequeue s)
              ≡ₚ t :: vt ++ jobs (taskqueue s)
                ++ busy (<[i:=WIdle]> (workers s))
                ++ dones (donequeue s) ++ []) as Hp.
      { rewrite Hb. solve_Permutation. }
      split; [by eapply keys_ok_drop|].
      intros HF. destruct HF. apply elem_of_app. right. left.
Qed.

(** X4. When no output name is declared twice, [del pending[target]] never
    raises: no state of any execution is left through a KeyError, and the
    only ways out of RunDependencyQueue are its return, the abort after a
    failure value, and (with THREADCOUNT = 0) the exception of an action. *)
Theorem distinct_outputs_never_raise tl w s :
  NoDup (outputs tl) ->
  reachable' tl w s ->
  ~ key_error (at_pc s) /\
  (forall o, at_pc s = AtFinally o \/ at_pc s = AtEnd o ->
     o = Returns \/ o = SystemExit BuildAborting \/
     exists t, t ∈ tl /\ o = ActionRaised t /\ THREADCOUNT = 0).
Proof.
  intros Hnd Hre.
  pose proof (dependency_exit_unreachable _ _ _ _ _ _ _ Hre) as Hdep.
  apply to_mreach in Hre.
  destruct (mreach_keys _ _ Hnd _ _ Hre) as [Hk _]. split; [done|].
  intros o Ho.
  assert (forall vt s, mreach' tl w vt s ->
            forall t, at_pc s = AtFinally (ActionRaised t) \/
                      at_pc s = AtEnd (ActionRaised t) ->
                      t ∈ tl /\ THREADCOUNT = 0) as Hact.
  { apply (cases' (fun _ s => forall t,
             at_pc s = AtFinally (ActionRaised t) \/
             at_pc s = AtEnd (ActionRaised t) -> t ∈ tl /\ THREADCOUNT = 0));
      try (by intros; simpl in *; intuition congruence).
    - intros s0 o0 w' evs Hre0 _ Hpc HT Hseq t [[= ->]|[=]].
      destruct (mode' _ _ _ _ Hre0) as ((-> & _) & _); [done|]. simpl in *.
      apply Z.eqb_eq in HT. split; [|done].
      destruct (seq_from_outcome _ _ _ _ _ _ _ Hseq) as [|(t' & Ht' & [= ->])];
        done.
    - intros ex t rest s0 p ds err _ _ Hpc _ _ _ _. destruct err; simpl.
      + by intros t0 [|].
      + intros t0 [E|E]; simpl in E; congruence.
    - intros vt s0 _ _ Hpc t.
      destruct (rest_pc THREADCOUNT (set_tasklist vt s0)) as [E|[E|[o' E]]];
        rewrite E; try (by intros [|]).
      unfold ParallelMake_rest, ParallelMake_exit in E. simpl in E.
      repeat case_match; simpl in E; simplify_eq; by intros [|].
    - intros vt s0 d dq _ _ _ _ t. destruct d as [|t0]; simpl; [by intros [|]|].
      destruct (del_targets (t_outs t0) (pending s0)) as [[p ds] [k|]]; simpl;
        by intros [|].
    - intros vt s0 o0 _ IH Hpc t [[=]|[= ->]]. simpl in *. apply IH. by left.
    - intros vt s0 i q _ IH _ _. apply IH.
    - intros vt s0 i t q _ IH _ _. apply IH.
    - intros vt s0 i t ok w' _ IH _ _. apply IH. }
  destruct o as [|[|n first]|k|t].
  - by left.
  - right. by left.
  - destruct Ho as [E|E]; rewrite E in Hdep; done.
  - destruct Hk. exists k. done.
  - right. right. exists t. destruct (Hact _ _ Hre t Ho). done.
Qed.

(** X5. With distinct output names the Pending Set is the set of outputs
    of the tasks that are not through.  While ParallelMake is in its loop
    every output of a task still on the list, on the task queue, run by a
    worker or waiting on the completion queue is a key of [pending]; as long
    as no failure value is on the completion queue these are the only keys,
    and so a task is ready exactly when none of the unfinished tasks
    produces one of its sources. *)
Theorem pending_is_unfinished_outputs tl w s :
  NoDup (outputs tl) ->
  reachable' tl w s ->
  running (at_pc s) ->
  NoDup (outputs (unfinished (tasklist s) s)) /\
  (forall k, k ∈ outputs (unfinished (tasklist s) s) -> is_Some (pending s !! k)) /\
  (Failed ∉ donequeue s ->
   (forall k, is_Some (pending s !! k) <-> k ∈ outputs (unfinished (tasklist s) s)) /\
   (forall t, AllSourcesReady t (pending s) = true <->
              forall t', t' ∈ unfinished (tasklist s) s -> ~ feeds t' t)).
Proof.
  intros Hnd Hre Hrun. apply to_mreach in Hre.
  destruct (mreach_keys _ _ Hnd _ _ Hre) as [_ Hk].
  destruct (Hk Hrun) as [[K1 K2] K3]. split_and!; try done.
  intros HF. specialize (K3 HF). split.
  - intros k. split; [apply K3|apply K2].
  - intros t. by apply ready_iff_unfed.
Qed.

(** ** Builds where everything is up to date *)

Lemma seq_from_fresh i n todo w :
  (forall t, t ∈ todo -> NeedsBuild w (t_outs t) (t_deps t) = false) ->
  seq_from' i n todo w
  = (Returns, w, map (fun t => EvNeedsBuild (t_outs t) (t_deps t) false) todo).
Proof.
  revert i. induction todo as [|t rest IH]; intros i H; simpl; [done|].
  rewrite (H t) by left. rewrite IH; [done|]. intros t' Ht'. apply H. by right.
Qed.

Lemma calls_checks_only (l : list task) :
  calls (map (fun t => EvNeedsBuild (t_outs t) (t_deps t) false) l) = [].
Proof. induction l; simpl; auto. Qed.

Lemma justbuilts_checks_only (l : list task) :
  justbuilts (map (fun t => EvNeedsBuild (t_outs t) (t_deps t) false) l) = [].
Proof. induction l; simpl; auto. Qed.

Lemma justbuilts_app (a b : list event) :
  justbuilts (a ++ b) = justbuilts a ++ justbuilts b.
Proof. apply omap_app. Qed.

Lemma justbuilts_dels_skipped t ds : justbuilts (map (EvDelSkipped t) ds) = [].
Proof. induction ds; simpl; auto. Qed.

Lemma justbuilts_stops n : justbuilts (replicate n EvPutStop) = [].
Proof. induction n; simpl; auto. Qed.

Definition inv_fresh (w : World) vt s : Prop :=
  world s = w /\ puts (trace s) = [] /\ calls (trace s) = [] /\
  justbuilts (trace s) = [] /\ at_pc s <> AtGet /\
  (forall o, at_pc s = AtFinally o \/ at_pc s = AtEnd o ->
     o = Returns \/ exists k, o = KeyError k).

Lemma mreach_fresh tl w :
  (forall t, t ∈ tl -> NeedsBuild w (t_outs t) (t_deps t) = false) ->
  forall vt s, mreach' tl w vt s -> inv_fresh w vt s.
Proof.
  intros Hfresh. unfold inv_fresh. apply cases'.
  - simpl. split_and!; try done. by intros o [|].
  - intros s Hre (I1 & I2 & I3 & I4 & I5 & I6) Hpc HT. simpl.
    split_and!; try done. by intros o [|].
  - intros s o w' evs Hre (I1 & I2 & I3 & I4 & I5 & I6) Hpc HT Hseq.
    destruct (mode' _ _ _ _ Hre) as ((-> & _) & _); [done|]. simpl in *.
    unfold SequentialMake in Hseq. rewrite seq_from_fresh in Hseq by done.
    injection Hseq as <- <- <-.
    rewrite calls_checks_only, justbuilts_checks_only.
    split_and!; try done.
    + apply puts_seq. apply Forall_forall. intros e He.
      apply list_elem_of_fmap in He as (t & -> & _). done.
    + intros o [[= <-]|[=]]. by left.
  - intros ex t rest s Hre (I1 & I2 & I3 & I4 & I5 & I6) Hpc Hq Hr Hn.
    destruct (just' _ _ _ _ Hre) as (J1 & _).
    rewrite I1, Hfresh in Hn; [done|]. apply J1, elem_of_app. right. left.
  - intros ex t rest s p ds err Hre (I1 & I2 & I3 & I4 & I5 & I6) Hpc Hq Hr Hn Hd.
    destruct err; simpl; rewrite ?Hpc;
      rewrite ?puts_app, ?calls_app, ?justbuilts_app, ?puts_dels_skipped,
        ?calls_dels_skipped, ?justbuilts_dels_skipped, I2, I3, I4; simpl;
      split_and!; try done.
    + intros o [[= <-]|[=]]. right. eauto.
    + by intros o [|].
  - intros vt s Hre (I1 & I2 & I3 & I4 & I5 & I6) Hpc.
    destruct (count' _ _ _ _ Hre) as (C1 & _ & _ & _ & _ & _ & C7).
    rewrite I2 in C7. simpl in C7.
    assert (tasksqueued s = 0) as E0 by lia.
    unfold ParallelMake_rest, ParallelMake_exit. simpl. rewrite E0. simpl.
    destruct (0 <? Z.of_nat (length vt)); simpl.
    + split_and!; try done. by intros o [|].
    + rewrite ?puts_app, ?calls_app, ?justbuilts_app, ?puts_stops, ?calls_stops,
        ?justbuilts_stops, I2, I3, I4. simpl.
      split_and!; try done. intros o [[= <-]|[=]]. by left.
  - intros vt s d dq Hre (I1 & I2 & I3 & I4 & I5 & I6) Hpc Hdq. done.
  - intros vt s o Hre (I1 & I2 & I3 & I4 & I5 & I6) Hpc. simpl.
    rewrite ?puts_app, ?calls_app, ?justbuilts_app, I2, I3, I4. simpl.
    split_and!; try done. intros o' [[=]|[= <-]]. apply I6. by left.
  - intros vt s i q Hre (I1 & I2 & I3 & I4 & I5 & I6) Hw Hq. simpl.
    by split_and!.
  - intros vt s i t q Hre (I1 & I2 & I3 & I4 & I5 & I6) Hw Hq.
    destruct (mreach_flow _ _ _ _ Hre) as (F1 & _).
    rewrite I2, Hq in F1. simpl in F1. by apply Permutation_nil_cons in F1.
  - intros vt s i t ok w' Hre (I1 & I2 & I3 & I4 & I5 & I6) Hw Hcall.
    destruct (mreach_flow _ _ _ _ Hre) as (F1 & _).
    assert (t ∈ busy (workers s)) as Hb.
    { apply elem_of_busy, list_elem_of_lookup. eauto. }
    rewrite I2 in F1. symmetry in F1. apply Permutation_nil_r in F1.
    apply app_eq_nil in F1 as [_ F1]. apply app_eq_nil in F1 as [F1 _].
    rewrite F1 in Hb. by apply not_elem_of_nil in Hb.
Qed.

(** X7. A build in which every task is up to date runs nothing, whatever
    THREADCOUNT and the schedule: no task is put on the task queue, no action
    is invoked, JustBuilt is never called, the world stays as it was, and
    the main thread never waits on the completion queue.  Such a build can
    only return (or stop on the KeyError of a repeated output name). *)
Theorem fresh_build_runs_nothing tl w s :
  (forall t, t ∈ tl -> NeedsBuild w (t_outs t) (t_deps t) = false) ->
  reachable' tl w s ->
  puts (trace s) = [] /\ calls (trace s) = [] /\ justbuilts (trace s) = [] /\
  world s = w /\ jobs (taskqueue s) = [] /\ busy (workers s) = [] /\
  at_pc s <> AtGet /\
  (forall o, at_pc s = AtFinally o \/ at_pc s = AtEnd o ->
     o = Returns \/ exists k, o = KeyError k).
Proof.
  intros Hfresh Hre. apply to_mreach in Hre.
  destruct (mreach_fresh _ _ Hfresh _ _ Hre) as (I1 & I2 & I3 & I4 & I5 & I6).
  destruct (mreach_flow _ _ _ _ Hre) as (F1 & _).
  rewrite I2 in F1. symmetry in F1. apply Permutation_nil_r in F1.
  apply app_eq_nil in F1 as [F1 F2]. apply app_eq_nil in F2 as [F2 _].
  by split_and!.
Qed.

Lemma producers_first_tail t rest :
  producers_first (t :: rest) -> producers_first rest.
Proof.
  intros H pre t' post E. apply (H (t :: pre) t' post). by rewrite E.
Qed.

Lemma scan_fresh todo ex s :
  tasksqueued s < THREADCOUNT ->
  (forall t, t ∈ todo -> NeedsBuild (world s) (t_outs t) (t_deps t) = false) ->
  keys_ok todo (pending s) -> keys_exact todo (pending s) ->
  producers_first todo ->
  exists p',
    (forall k, p' !! k = None) /\
    scan' todo ex s
    = (mkState (tasklist s) p' (tasksqueued s) (at_pc s) (taskqueue s)
         (donequeue s) (workers s) (world s) (saved s)
         (trace s ++ todo ≫= skip_events), ex, None).
Proof.
  revert s. induction todo as [|t rest IH]; intros s Hq Hfresh Hok Hex Hord.
  - exists (pending s). split.
    + intros k. apply eq_None_not_Some. intros Hk. apply Hex in Hk.
      by apply not_elem_of_nil in Hk.
    + simpl. rewrite app_nil_r. by destruct s.
  - assert (AllSourcesReady t (pending s) = true) as Hr.
    { apply AllSourcesReady_spec. intros x Hx. apply eq_None_not_Some.
      intros Hk. apply Hex, list_elem_of_bind in Hk as (t' & Hx' & Ht').
      apply (Hord [] t rest eq_refl t' Ht'). by exists x. }
    destruct (del_targets (t_outs t) (pending s)) as [[p ds] err] eqn:Hd.
    destruct (keys_ok_remove (t :: rest) rest t _ _ _ _ (reflexivity _) Hok Hd)
      as [-> Hok'].
    pose proof (keys_exact_remove (t :: rest) rest t _ _ _ (reflexivity _) Hex Hd)
      as Hex'.
    destruct (del_targets_prefix _ _ _ _ _ Hd) as [_ Hds].
    specialize (Hds eq_refl). subst ds.
    set (s2 := log (map (EvDelSkipped t) (t_outs t))
                 (set_pending p
                    (log [EvNeedsBuild (t_outs t) (t_deps t) false] s))).
    destruct (IH s2) as (p' & Hp' & Hscan); try done.
    { intros t' Ht'. apply Hfresh. by right. }
    { by eapply producers_first_tail. }
    exists p'. split; [done|]. simpl.
    apply Z.ltb_lt in Hq. rewrite Hq, Hr. simpl.
    rewrite (Hfresh t) by left. rewrite Hd. fold s2. rewrite Hscan.
    unfold s2. simpl. rewrite <- !app_assoc. reflexivity.
Qed.

(** X8. A build in which every task is up to date, listed with producers
    before consumers and distinct output names, is over after one pass of
    the loop, for every positive THREADCOUNT: entry, one scan that removes
    every output from the Pending Set, one stop value per worker, return,
    and the final save of an unchanged world.  NeedsBuild is called once per
    task, in list order; nothing else happens. *)
Theorem fresh_build_one_pass tl w :
  0 < THREADCOUNT ->
  NoDup (outputs tl) ->
  producers_first tl ->
  (forall t, t ∈ tl -> NeedsBuild w (t_outs t) (t_deps t) = false) ->
  exists s,
    run' [Main; Main; Main] (init tl w) = Some s /\
    at_pc s = AtEnd Returns /\ tasklist s = [] /\ pending s = ∅ /\
    tasksqueued s = 0 /\ world s = w /\ saved s = [w] /\
    taskqueue s = replicate (Z.to_nat THREADCOUNT) Stop /\
    trace s = (tl ≫= skip_events)
                ++ replicate (Z.to_nat THREADCOUNT) EvPutStop ++ [EvSave] /\
    checks (trace s) = map (fun t => (t_outs t, t_deps t, false)) tl.
Proof.
  intros HT Hnd Hord Hfresh.
  assert ((THREADCOUNT =? 0) = false) as HT0 by (apply Z.eqb_neq; lia).
  assert ((0 <? THREADCOUNT) = true) as HT1 by (by apply Z.ltb_lt).
  destruct (scan_fresh tl [] (enter' (init tl w))) as (p' & Hp' & Hscan);
    try done.
  - split; [done|]. intros k Hk. apply seed_pending_lookup.
    apply list_elem_of_bind in Hk as (t & Hk & Ht). eauto.
  - intros k Hk. apply seed_pending_lookup in Hk as (t & Ht & Hk).
    apply list_elem_of_bind. eauto.
  - simpl in Hscan. apply map_empty in Hp'. subst p'.
    eexists. split.
    + simpl. unfold main_step at 1. simpl. unfold RunDependencyQueue.
      rewrite HT0. simpl. unfold main_step at 1. simpl.
      unfold ParallelMake_cycle. simpl. rewrite HT1, Hscan. simpl.
      unfold ParallelMake_rest, ParallelMake_exit. simpl. reflexivity.
    + simpl. split_and!; try done.
      * by rewrite <- app_assoc.
      * unfold checks. rewrite !omap_app, omap_replicate_none by done.
        simpl. rewrite app_nil_r. clear. induction tl as [|t rest IH]; [done|].
        rewrite bind_cons, omap_app. unfold skip_events at 1. simpl.
        rewrite omap_map_none by done. simpl. by f_equal.
Qed.

(** ** SequentialMake and a failing action *)

Definition checked (evs : list event) : list (list string * list string) :=
  map fst (checks evs).

Definition no_failed_call (evs : list event) : Prop :=
  forall t p, EvCall t p false ∉ evs.

Lemma seq_from_shape i n todo w o w' evs :
  seq_from' i n todo w = (o, w', evs) ->
  (o = Returns /\
   checked evs = map (fun t => (t_outs t, t_deps t)) todo /\
   no_failed_call evs) \/
  (exists pre t post hist,
     todo = pre ++ t :: post /\ o = ActionRaised t /\
     evs = hist ++ [EvNeedsBuild (t_outs t) (t_deps t) true;
                    EvCall t (Some ((i + length pre)%nat, n)) false] /\
     checked hist = map (fun t => (t_outs t, t_deps t)) pre /\
     no_failed_call hist).
Proof.
  unfold checked, no_failed_call.
  revert i w o w' evs. induction todo as [|t rest IH]; intros i w o w' evs; simpl.
  - intros [= <- <- <-]. left. split_and!; try done.
    intros t p H. by apply not_elem_of_nil in H.
  - destruct (NeedsBuild w (t_outs t) (t_deps t)).
    + destruct (act' t (Some (i, n)) w) as [[|] w1].
      * destruct (seq_from' (S i) n rest _) as [[o2 w2] evs2] eqn:E.
        intros [= <- <- <-].
        destruct (IH _ _ _ _ _ E)
          as [(-> & H1 & H2)|(pre & t' & post & hist & -> & -> & -> & H1 & H2)].
        -- left. simpl. split_and!; try done; [by f_equal|].
           intros t0 p H. rewrite !elem_of_cons in H.
           destruct H as [[=]|[[=]|[[=]|H]]]. by apply H2 in H.
        -- right. exists (t :: pre), t', post,
             (EvNeedsBuild (t_outs t) (t_deps t) true
                :: EvCall t (Some (i, n)) true
                :: EvJustBuilt (t_outs t) (t_deps t) :: hist).
           simpl. split_and!; try done.
           ++ by replace (i + S (length pre))%nat with (S i + length pre)%nat by lia.
           ++ by f_equal.
           ++ intros t0 p H. rewrite !elem_of_cons in H.
              destruct H as [[=]|[[=]|[[=]|H]]]. by apply H2 in H.
      * intros [= <- <- <-]. right. exists [], t, rest, []. simpl.
        split_and!; try done.
        -- by replace (i + 0)%nat with i by lia.
        -- intros t0 p H. by apply not_elem_of_nil in H.
    + destruct (seq_from' (S i) n rest w) as [[o2 w2] evs2] eqn:E.
      intros [= <- <- <-].
      destruct (IH _ _ _ _ _ E)
        as [(-> & H1 & H2)|(pre & t' & post & hist & -> & -> & -> & H1 & H2)].
      * left. simpl. split_and!; try done; [by f_equal|].
        intros t0 p H. apply elem_of_cons in H as [[=]|H]. by apply H2 in H.
      * right. exists (t :: pre), t', post,
          (EvNeedsBuild (t_outs t) (t_deps t) false :: hist).
        simpl. split_and!; try done.
        -- by replace (i + S (length pre))%nat with (S i + length pre)%nat by lia.
        -- by f_equal.
        -- intros t0 p H. apply elem_of_cons in H as [[=]|H]. by apply H2 in H.
Qed.

(** X9. SequentialMake stops at the first action that raises.  Either it
    returns, having called NeedsBuild on every task in list order with no
    action failing; or the exception of the action of some task leaves the
    loop at once: the failing call is the last thing that happened, JustBuilt
    is not called for that task, the tasks listed before it were all checked
    and none of their actions failed, and the tasks after it are not even
    checked.  Either way the [finally] clause then saves the world as the
    last action left it. *)
Theorem sequential_stops_at_first_failure tl w o w' evs :
  seq' tl w = (o, w', evs) ->
  ((o = Returns /\
    checked evs = map (fun t => (t_outs t, t_deps t)) tl /\
    no_failed_call evs) \/
   (exists pre t post hist,
      tl = pre ++ t :: post /\ o = ActionRaised t /\
      evs = hist ++ [EvNeedsBuild (t_outs t) (t_deps t) true;
                     EvCall t (Some (length pre, length tl)) false] /\
      checked hist = map (fun t => (t_outs t, t_deps t)) pre /\
      no_failed_call hist)) /\
  run World NeedsBuild JustBuilt call 0 [Main; Main] (init tl w)
  = Some (mkState tl ∅ 0 (AtEnd o) [] [] [] w' [w'] (evs ++ [EvSave])).
Proof.
  intros Hseq. split.
  - by apply (seq_from_shape 0) in Hseq.
  - simpl. unfold main_step. simpl. unfold RunDependencyQueue. simpl.
    by rewrite Hseq.
Qed.

(** ** A negative THREADCOUNT *)

(** X11. THREADCOUNT is taken from the command line as [int(value)], sign
    included.  With a negative value ParallelMake starts no worker and its
    loop never scans the list ([tasksqueued < THREADCOUNT] is false from the
    start): on an empty list it returns at once, on any other list the main
    thread goes round the loop for ever in the same state, without calling
    NeedsBuild once. *)
Theorem negative_threadcount_hangs tl w :
  THREADCOUNT < 0 ->
  (tl = [] ->
   exists s, run' [Main; Main; Main] (init tl w) = Some s /\
             at_pc s = AtEnd Returns /\ trace s = [EvSave] /\ saved s = [w]) /\
  (tl <> [] ->
   forall s, reachable' tl w s ->
     (s = init tl w \/ s = mkState tl (seed_pending tl) 0 AtLoop [] [] [] w [] []) /\
     step' Main s = Some (mkState tl (seed_pending tl) 0 AtLoop [] [] [] w [] []) /\
     forall i, step' (Worker i) s = None).
Proof.
  intros HT.
  assert ((THREADCOUNT =? 0) = false) as HT0 by (apply Z.eqb_neq; lia).
  assert ((0 <? THREADCOUNT) = false) as HT1 by (apply Z.ltb_ge; lia).
  assert (Z.to_nat THREADCOUNT = 0%nat) as HT2 by lia.
  assert (step' Main (init tl w)
          = Some (mkState tl (seed_pending tl) 0 AtLoop [] [] [] w [] [])) as H0.
  { simpl. unfold main_step. simpl. unfold RunDependencyQueue. rewrite HT0.
    simpl. unfold ParallelMake_enter. simpl. by rewrite HT2. }
  split.
  - intros ->. eexists. split.
    + cbn [run]. rewrite H0. simpl. unfold main_step at 1. simpl.
      unfold ParallelMake_cycle. simpl. rewrite HT1.
      unfold ParallelMake_rest, ParallelMake_exit, stop_workers. simpl.
      rewrite HT2. simpl. reflexivity.
    + done.
  - intros Hne.
    assert (step' Main (mkState tl (seed_pending tl) 0 AtLoop [] [] [] w [] [])
            = Some (mkState tl (seed_pending tl) 0 AtLoop [] [] [] w [] []))
      as H1.
    { simpl. unfold main_step. simpl. unfold ParallelMake_cycle. simpl.
      rewrite HT1. unfold ParallelMake_rest. simpl.
      by destruct tl. }
    assert (forall s, reachable' tl w s ->
              s = init tl w \/
              s = mkState tl (seed_pending tl) 0 AtLoop [] [] [] w [] []) as Hall.
    { induction 1 as [|l s s' _ IH Hstep]; [by left|]. right.
      destruct IH as [->| ->]; destruct l as [|i]; try congruence;
        by destruct i. }
    intros s Hre. split; [by apply Hall|].
    destruct (Hall s Hre) as [->| ->]; (split; [done|by intros [|i]]).
Qed.

(** ** ParallelMake and the order of dependencies *)

Lemma jt_prefix tl (a b : list event) :
  justified_trace tl (a ++ b) -> justified_trace tl a.
Proof.
  induction b as [|e b IH] using rev_ind.
  - by rewrite app_nil_r.
  - rewrite app_assoc. intros H. inversion H as [E|tr e0 Htr He0 E].
    + by destruct (a ++ b).
    + apply app_inj_tail in E as [-> ->]. by apply IH.
Qed.

Lemma replay_deleted (seed : gmap string nat) (tr : list event) (x : string) :
  is_Some (seed !! x) -> replay_pending seed tr !! x = None ->
  exists t, EvDelSkipped t x ∈ tr \/ EvDelDone t x ∈ tr.
Proof.
  revert seed. induction tr as [|e tr IH]; intros seed Hs Hr; simpl in *.
  - rewrite Hr in Hs. by destruct Hs.
  - assert (forall seed', is_Some (seed' !! x) ->
              replay_pending seed' tr !! x = None ->
              exists t, EvDelSkipped t x ∈ e :: tr \/ EvDelDone t x ∈ e :: tr)
      as Hgo.
    { intros seed' Hs' Hr'. destruct (IH _ Hs' Hr') as [t [H|H]];
        exists t; [left|right]; by right. }
    destruct e as [| | |t k| |t k| | | | |]; try (by apply (Hgo seed)).
    + destruct (decide (k = x)) as [->|Hne].
      * exists t. left. left.
      * apply (Hgo (delete k seed)); [|done]. by rewrite lookup_delete_ne.
    + destruct (decide (k = x)) as [->|Hne].
      * exists t. right. left.
      * apply (Hgo (delete k seed)); [|done]. by rewrite lookup_delete_ne.
Qed.

Lemma outputs_owner tl t t' (x : string) :
  NoDup (outputs tl) -> t ∈ tl -> t' ∈ tl -> x ∈ t_outs t -> x ∈ t_outs t' ->
  t = t'.
Proof.
  unfold outputs. induction tl as [|a l IH]; intros Hnd Ht Ht' Hx Hx'.
  - by apply not_elem_of_nil in Ht.
  - rewrite bind_cons in Hnd. apply NoDup_app in Hnd as (_ & Hdis & Hnd).
    apply elem_of_cons in Ht as [->|Ht]; apply elem_of_cons in Ht' as [->|Ht'].
    + done.
    + destruct (Hdis x Hx). apply list_elem_of_bind. eauto.
    + destruct (Hdis x Hx'). apply list_elem_of_bind. eauto.
    + by apply IH.
Qed.

(** Every deletion made for a finished task comes after its JustBuilt. *)
Definition dels_recorded (tr : list event) : Prop :=
  forall pre t k post, tr = pre ++ EvDelDone t k :: post ->
    EvJustBuilt (t_outs t) (t_deps t) ∈ pre.

Lemma dels_recorded_app (tr evs : list event) :
  dels_recorded tr -> (forall t k, EvDelDone t k ∉ evs) ->
  dels_recorded (tr ++ evs).
Proof.
  intros H Hevs pre t k post E.
  apply app_eq_inv in E as [(l & -> & E)|(l & -> & E)].
  - destruct l as [|e l]; simpl in E.
    + destruct (Hevs t k). rewrite <- E. left.
    + injection E as <- ->. by eapply H.
  - destruct (Hevs t k). rewrite E. apply elem_of_app. right. left.
Qed.

Lemma dels_recorded_done (tr : list event) t ds :
  dels_recorded tr ->
  dels_recorded (tr ++ [EvGet (Done t); EvJustBuilt (t_outs t) (t_deps t)]
                    ++ map (EvDelDone t) ds).
Proof.
  intros H pre t' k post E.
  apply app_eq_inv in E as [(l & -> & E)|(l & -> & E)].
  - destruct l as [|e l]; simpl in E; [done|].
    injection E as <- ->. by eapply H.
  - destruct l as [|e1 [|e2 l]]; simpl in E; try done.
    injection E as <- <- E.
    assert (EvDelDone t' k ∈ map (EvDelDone t) ds) as Hin.
    { rewrite E. apply elem_of_app. right. left. }
    apply list_elem_of_fmap in Hin as (k' & [= -> ->] & _).
    rewrite !elem_of_app, !elem_of_cons. auto.
Qed.

Lemma mreach_recorded tl w vt s : mreach' tl w vt s -> dels_recorded (trace s).
Proof.
  revert vt s. apply cases'.
  - intros pre t k post E. by destruct pre.
  - by intros s _ I _ _.
  - intros s o w' evs _ I _ _ Hseq. simpl. apply dels_recorded_app; [done|].
    intros t k Hin. apply seq_from_events in Hseq.
    rewrite Forall_forall in Hseq. by apply Hseq in Hin.
  - intros ex t rest s _ I _ _ _ _. simpl.
    rewrite <- app_assoc. apply dels_recorded_app; [done|].
    intros t' k Hin. simpl in Hin. rewrite !elem_of_cons in Hin.
    destruct Hin as [[=]|[[=]|Hin]]. by apply not_elem_of_nil in Hin.
  - intros ex t rest s p ds err _ I _ _ _ _ _.
    assert (dels_recorded
              ((trace s ++ [EvNeedsBuild (t_outs t) (t_deps t) false])
                 ++ map (EvDelSkipped t) ds)) as H.
    { rewrite <- app_assoc. apply dels_recorded_app; [done|].
      intros t' k Hin. simpl in Hin. apply elem_of_cons in Hin as [[=]|Hin].
      by apply list_elem_of_fmap in Hin as (k' & [=] & _). }
    by destruct err.
  - intros vt s _ I _. unfold ParallelMake_rest, ParallelMake_exit. simpl.
    destruct (tasksqueued s =? 0); [|done].
    destruct (0 <? Z.of_nat (length vt)); simpl; [done|].
    apply dels_recorded_app; [done|]. intros t k Hin.
    by apply elem_of_replicate in Hin as [[=] _].
  - intros vt s d dq _ I _ _. destruct d as [|t]; simpl.
    + rewrite <- app_assoc. apply dels_recorded_app; [done|].
      intros t' k Hin. simpl in Hin. rewrite !elem_of_cons in Hin.
      destruct Hin as [[=]|[[=]|Hin]]. by apply not_elem_of_nil in Hin.
    + destruct (del_targets (t_outs t) (pending s)) as [[p ds] err]. simpl.
      by apply dels_recorded_done.
  - intros vt s o _ I _. simpl. apply dels_recorded_app; [done|].
    intros t k Hin. by apply list_elem_of_singleton in Hin.
  - by intros vt s i q _ I _ _.
  - by intros vt s i t q _ I _ _.
  - intros vt s i t ok w' _ I _ _. simpl. apply dels_recorded_app; [done|].
    intros t' k Hin. rewrite !elem_of_cons in Hin.
    destruct Hin as [[=]|[[=]|Hin]]. by apply not_elem_of_nil in Hin.
Qed.

Lemma ran_length_le (tr : list event) : (length (ran tr) <= length (calls tr))%nat.
Proof.
  induction tr as [|e tr IH]; simpl; [done|].
  destruct e as [| | | | | |t p ok| | | |]; simpl; try done.
  destruct p; simpl; lia.
Qed.

Lemma calls_all_ran (tr : list event) t p ok :
  calls tr = ran tr -> EvCall t p ok ∈ tr -> p = None.
Proof.
  induction tr as [|e tr IH]; intros E Hin; [by apply not_elem_of_nil in Hin|].
  apply elem_of_cons in Hin as [<-|Hin].
  - destruct p as [pr|]; [|done]. simpl in E.
    pose proof (ran_length_le tr) as Hle. rewrite <- E in Hle. simpl in Hle. lia.
  - apply IH; [|done].
    destruct e as [| | | | | |t0 p0 ok0| | | |]; simpl in E; try done.
    destruct p0; simpl in E.
    + pose proof (ran_length_le tr) as Hle. rewrite <- E in Hle. simpl in Hle. lia.
    + by injection E.
Qed.

(** X19. ParallelMake respects the order of dependencies.  With a
    THREADCOUNT other than 0 and distinct output names, whenever the action
    of a task starts, every task of the list that produces one of its
    explicit deps, inputs or alternate deps is through: it was found up to
    date, or its action returned, the main thread took it from the
    completion queue and JustBuilt was called for it.  (In a diamond, the
    task at the bottom never starts before the two in the middle are
    through, and those never before the one at the top.) *)
Theorem parallel_respects_deps tl w s :
  THREADCOUNT <> 0 ->
  NoDup (outputs tl) ->
  reachable' tl w s ->
  respects_deps tl (trace s) /\
  (forall pre t p ok post t', trace s = pre ++ EvCall t p ok :: post ->
     t' ∈ tl -> feeds t' t ->
     EvNeedsBuild (t_outs t') (t_deps t') false ∈ pre \/
     (EvCall t' None true ∈ pre /\ EvGet (Done t') ∈ pre /\
      EvJustBuilt (t_outs t') (t_deps t') ∈ pre)).
Proof.
  intros HT Hnd Hre. apply to_mreach in Hre.
  destruct (just' _ _ _ _ Hre) as (_ & _ & _ & _ & _ & _ & Hj & _).
  destruct (mreach_flow _ _ _ _ Hre) as (_ & _ & _ & F4 & _).
  pose proof (mreach_recorded _ _ _ _ Hre) as Hrec.
  assert (forall pre t p ok post t', trace s = pre ++ EvCall t p ok :: post ->
            t' ∈ tl -> feeds t' t ->
            EvNeedsBuild (t_outs t') (t_deps t') false ∈ pre \/
            (EvCall t' None true ∈ pre /\ EvGet (Done t') ∈ pre /\
             EvJustBuilt (t_outs t') (t_deps t') ∈ pre)) as Hmain.
  { intros pre t p ok post t' E Ht' (x & Hx & Hs).
    assert (p = None) as ->.
    { eapply calls_all_ran; [by apply F4|]. rewrite E.
      apply elem_of_app. right. left. }
    pose proof (jt_split _ _ _ _ _ Hj E) as (_ & q & Hput). simpl in Hput.
    apply list_elem_of_split in Hput as (pre1 & post1 & ->).
    rewrite <- app_assoc in E. simpl in E.
    pose proof (jt_split _ _ _ _ _ Hj E) as (_ & -> & Hr & _).
    pose proof (proj1 (AllSourcesReady_spec _ _) Hr x Hs) as Hnone.
    destruct (replay_deleted (seed_pending tl) pre1 x) as [t'' Hdel]; [|done|].
    { apply seed_pending_lookup. eauto. }
    assert (justified_trace tl pre1) as Hj1.
    { rewrite E in Hj. by apply jt_prefix in Hj. }
    assert (forall e : event, e ∈ pre1 ->
              e ∈ pre1 ++ EvPut t (replay_pending (seed_pending tl) pre1) :: post1)
      as Hup by (intros e He; apply elem_of_app; by left).
    destruct Hdel as [Hdel|Hdel].
    - destruct (jt_elem _ _ _ Hj1 Hdel) as (a & b & -> & Ht'' & Hx'' & Hn).
      assert (t'' = t') as -> by (by eapply outputs_owner).
      left. apply Hup. apply elem_of_app. by left.
    - pose proof Hdel as Hdel'.
      apply list_elem_of_split in Hdel' as (a0 & b0 & E0).
      assert (EvJustBuilt (t_outs t'') (t_deps t'') ∈ pre1) as Hjb.
      { rewrite E0. apply elem_of_app. left. eapply (Hrec a0 t'' x).
        rewrite E, E0. rewrite <- app_assoc. done. }
      destruct (jt_elem _ _ _ Hj1 Hdel) as (a & b & -> & Ht'' & Hx'' & Hg).
      assert (t'' = t') as -> by (by eapply outputs_owner).
      assert (justified_trace tl a) as Hja by (by apply jt_prefix in Hj1).
      destruct (jt_elem _ _ _ Hja Hg) as (a1 & b1 & -> & Hdp). simpl in Hdp.
      assert (justified_trace tl a1) as Hja1 by (by apply jt_prefix in Hja).
      destruct (jt_elem _ _ _ Hja1 Hdp) as (a2 & b2 & -> & Hcall).
      simpl in Hcall. right. split_and!.
      + apply Hup. rewrite !elem_of_app. auto.
      + apply Hup. rewrite !elem_of_app, !elem_of_cons. auto.
      + by apply Hup. }
  split; [|done].
  intros pre t p ok post E t' Ht' Hf.
  destruct (Hmain _ _ _ _ _ _ E Ht' Hf) as [H|(_ & _ & H)]; [by left|by right].
Qed.

(** ** Acyclic dependencies: the loop never spins *)

(** The first task of [order] that is still in [vt]. *)
Lemma first_unfinished (order vt : list task) t :
  t ∈ order -> t ∈ vt ->
  exists pre t0 post, order = pre ++ t0 :: post /\ t0 ∈ vt /\
                      forall t', t' ∈ pre -> t' ∉ vt.
Proof.
  induction order as [|a l IH]; intros Hin Hvt.
  - by apply not_elem_of_nil in Hin.
  - destruct (decide (a ∈ vt)) as [Ha|Ha].
    + exists [], a, l. split_and!; try done. intros t' H.
      by apply not_elem_of_nil in H.
    + apply elem_of_cons in Hin as [->|Hin]; [done|].
      destruct (IH Hin Hvt) as (pre & t0 & post & -> & H0 & Hpre).
      exists (a :: pre), t0, post. split_and!; try done.
      intros t' H. apply elem_of_cons in H as [->|H]; [done|]. by apply Hpre.
Qed.

Lemma scan_monotone todo ex s s' ex' err :
  scan' todo ex s = (s', ex', err) ->
  tasksqueued s <= tasksqueued s' /\
  (length ex' <= length ex + length todo)%nat.
Proof.
  revert ex s. induction todo as [|t rest IH]; intros ex s; simpl.
  - intros [= <- <- <-]. lia.
  - destruct ((tasksqueued s <? THREADCOUNT) && AllSourcesReady t (pending s)).
    + destruct (NeedsBuild (world s) (t_outs t) (t_deps t)).
      * intros H. apply IH in H. simpl in H. lia.
      * destruct (del_targets (t_outs t) (pending s)) as [[p ds] [k|]]; simpl.
        -- intros [= <- <- <-]. simpl. lia.
        -- intros H. apply IH in H. simpl in H. lia.
    + intros H. apply IH in H. rewrite length_app in H. simpl in H. lia.
Qed.

Lemma scan_progress todo ex s s' ex' t :
  scan' todo ex s = (s', ex', None) ->
  tasksqueued s < THREADCOUNT -> t ∈ todo ->
  AllSourcesReady t (pending s) = true ->
  tasksqueued s < tasksqueued s' \/
  (length ex' < length ex + length todo)%nat.
Proof.
  revert ex s. induction todo as [|h rest IH]; intros ex s Hscan Hq Hin Hr.
  - by apply not_elem_of_nil in Hin.
  - simpl in Hscan. pose proof Hq as Hq'. apply Z.ltb_lt in Hq'.
    rewrite Hq' in Hscan. simpl in Hscan.
    destruct (AllSourcesReady h (pending s)) eqn:Hh.
    + destruct (NeedsBuild (world s) (t_outs h) (t_deps h)).
      * apply scan_monotone in Hscan. simpl in Hscan. left. lia.
      * destruct (del_targets (t_outs h) (pending s)) as [[p ds] [k|]];
          simpl in Hscan; [done|].
        apply scan_monotone in Hscan. simpl in *. right. lia.
    + apply elem_of_cons in Hin as [->|Hin]; [congruence|].
      destruct (IH _ _ Hscan Hq Hin Hr) as [H|H]; [by left|].
      rewrite length_app in H. simpl in *. right. lia.
Qed.

Definition acyclic (tl : list task) : Prop :=
  exists order, order ≡ₚ tl /\ producers_first order.

Lemma starving_has_ready tl w s :
  NoDup (outputs tl) -> acyclic tl -> reachable' tl w s ->
  at_pc s = AtLoop -> tasksqueued s = 0 -> tasklist s <> [] ->
  exists t, t ∈ tasklist s /\ AllSourcesReady t (pending s) = true.
Proof.
  intros Hnd (order & Hperm & Hord) Hre Hpc Hq Hne.
  pose proof Hre as Hm. apply to_mreach in Hm.
  destruct (count' _ _ _ _ Hm) as (_ & _ & _ & _ & C5 & _).
  destruct (just' _ _ _ _ Hm) as (_ & J2 & _).
  destruct (mreach_keys _ _ Hnd _ _ Hm) as [_ Hk].
  destruct Hk as [K1 K2]; [by left|].
  rewrite Hq in C5. specialize (C5 (or_introl Hpc)).
  assert (jobs (taskqueue s) = [] /\ busy (workers s) = [] /\ donequeue s = [])
    as (Ej & Eb & Ed).
  { split_and!; apply nil_length_inv; lia. }
  unfold unfinished in *. rewrite Ej, Eb, Ed in *. simpl in *.
  rewrite app_nil_r in *.
  specialize (K2 ltac:(intros H; by apply not_elem_of_nil in H)).
  destruct (tasklist s) as [|t1 l] eqn:Etl; [done|].
  destruct (first_unfinished order (t1 :: l) t1) as (pre & t0 & post & E & H0 & Hpre).
  { rewrite Hperm. apply J2. left. }
  { left. }
  exists t0. split; [done|]. apply (ready_iff_unfed _ _ _ K1 K2).
  intros t' Ht' Hf.
  assert (t' ∈ order) as Hin.
  { rewrite Hperm. by apply J2. }
  rewrite E in Hin. apply elem_of_app in Hin as [Hin|Hin].
  - by apply (Hpre t').
  - by apply (Hord pre t0 post E t').
Qed.

Lemma cycle_no_key_error tl w s :
  NoDup (outputs tl) -> reachable' tl w s -> at_pc s = AtLoop ->
  forall s1 ex k, scan' (tasklist s) [] s = (s1, ex, Some k) ->
  (tasksqueued s <? THREADCOUNT) = false.
Proof.
  intros Hnd Hre Hpc s1 ex k Hscan.
  destruct (tasksqueued s <? THREADCOUNT) eqn:Hq; [|done].
  assert (reachable' tl w (cycle' s)) as Hre'.
  { eapply (reach_step _ _ _ _ _ _ _ Main); [done|].
    simpl. unfold main_step. by rewrite Hpc. }
  apply to_mreach in Hre'. destruct (mreach_keys _ _ Hnd _ _ Hre') as [Hnk _].
  destruct Hnk. exists k. left. unfold ParallelMake_cycle.
  by rewrite Hq, Hscan.
Qed.

(** X20. Acyclic dependencies never starve the loop.  When the output
    names are distinct and the tasks can be listed with every producer
    before its consumers, every state in which the main thread is at the top
    of the loop with nothing in flight and tasks left has a task that is
    ready, and the pass that follows dispatches a task or retires one: the
    main thread does not come back to the top of the loop in the same
    state. *)
Theorem acyclic_build_never_starves tl w s :
  0 < THREADCOUNT ->
  NoDup (outputs tl) ->
  acyclic tl ->
  reachable' tl w s ->
  at_pc s = AtLoop -> tasksqueued s = 0 -> tasklist s <> [] ->
  (exists t, t ∈ tasklist s /\ AllSourcesReady t (pending s) = true) /\
  exists s', step' Main s = Some s' /\
    (0 < tasksqueued s' \/ (length (tasklist s') < length (tasklist s))%nat).
Proof.
  intros HT Hnd Hacyc Hre Hpc Hq Hne.
  destruct (starving_has_ready _ _ _ Hnd Hacyc Hre Hpc Hq Hne) as (t0 & Ht0 & Hr0).
  split; [by exists t0|].
  exists (cycle' s). split; [simpl; unfold main_step; by rewrite Hpc|].
  pose proof (cycle_no_key_error _ _ _ Hnd Hre Hpc) as Hnk.
  unfold ParallelMake_cycle in *. rewrite Hq in *.
  assert ((0 <? THREADCOUNT) = true) as HT' by (by apply Z.ltb_lt).
  rewrite HT' in *.
  destruct (scan' (tasklist s) [] s) as [[s1 ex] [k|]] eqn:Hscan.
  { by specialize (Hnk _ _ _ eq_refl). }
  destruct (scan_progress _ _ _ _ _ t0 Hscan) as [H|H]; try done; try lia.
  - left. unfold ParallelMake_rest, ParallelMake_exit. simpl.
    assert ((tasksqueued s1 =? 0) = false) as -> by (apply Z.eqb_neq; lia).
    simpl. lia.
  - right. simpl in H.
    assert (tasklist (rest' (set_tasklist ex s1)) = ex) as ->; [|done].
    unfold ParallelMake_rest, ParallelMake_exit. simpl. by repeat case_match.
Qed.

(** ** Termination *)

Lemma scan_account todo ex s s' ex' :
  scan' todo ex s = (s', ex', None) ->
  exists d k : nat,
    (length ex' + d + k = length ex + length todo)%nat /\
    length (jobs (taskqueue s')) = (length (jobs (taskqueue s)) + d)%nat /\
    stops (taskqueue s') = stops (taskqueue s) /\
    tasksqueued s' = tasksqueued s + Z.of_nat d /\
    donequeue s' = donequeue s /\ workers s' = workers s /\
    at_pc s' = at_pc s.
Proof.
  revert ex s. induction todo as [|t rest IH]; intros ex s; simpl.
  - intros [= <- <-]. exists 0%nat, 0%nat. split_and!; try done; lia.
  - destruct ((tasksqueued s <? THREADCOUNT) && AllSourcesReady t (pending s)).
    + destruct (NeedsBuild (world s) (t_outs t) (t_deps t)).
      * intros H. apply IH in H as (d & k & H1 & H2 & H3 & H4 & H5 & H6 & H7).
        simpl in *. rewrite jobs_app, length_app in H2.
        rewrite stops_app in H3. change (stops [Job t]) with 0%nat in H3.
        change (length (jobs [Job t])) with 1%nat in H2.
        exists (S d), k. split_and!; try done; lia.
      * destruct (del_targets (t_outs t) (pending s)) as [[p ds] [k0|]]; simpl;
          [done|].
        intros H. apply IH in H as (d & k & H1 & H2 & H3 & H4 & H5 & H6 & H7).
        simpl in *. exists d, (S k). split_and!; try done; lia.
    + intros H. apply IH in H as (d & k & H1 & H2 & H3 & H4 & H5 & H6 & H7).
      rewrite length_app in H1. simpl in *.
      exists d, k. split_and!; try done; lia.
Qed.

Lemma step_decreases tl w l s s' :
  0 <= THREADCOUNT -> NoDup (outputs tl) -> acyclic tl ->
  reachable' tl w s -> step' l s = Some s' ->
  (steps_left (Z.to_nat THREADCOUNT) s' < steps_left (Z.to_nat THREADCOUNT) s)%nat.
Proof.
  intros HT Hnd Hacyc Hre Hstep. pose proof Hre as Hm. apply to_mreach in Hm.
  destruct (mode' _ _ _ _ Hm) as (M1 & M2 & M3).
  destruct (count' _ _ _ _ Hm) as (C1 & C2 & C3 & C4 & C5 & C6 & C7).
  unfold steps_left. destruct l as [|i]; simpl in Hstep.
  - unfold main_step in Hstep. destruct (at_pc s) eqn:Hpc.
    + injection Hstep as <-. destruct (M1 eq_refl) as [-> _].
      unfold RunDependencyQueue. destruct (THREADCOUNT =? 0) eqn:E0; simpl.
      * destruct (seq' tl w) as [[o w'] evs]. simpl. lia.
      * rewrite busy_replicate_idle. simpl. lia.
    + injection Hstep as <-.
      assert (0 < THREADCOUNT) as HT1.
      { assert (THREADCOUNT <> 0) by (apply M2; by left). lia. }
      pose proof (cycle_no_key_error _ _ _ Hnd Hre Hpc) as Hnk.
      unfold ParallelMake_cycle.
      destruct (tasksqueued s <? THREADCOUNT) eqn:Hq.
      * destruct (scan' (tasklist s) [] s) as [[s1 ex] [k|]] eqn:Hscan.
        { by specialize (Hnk _ _ _ eq_refl). }
        destruct (scan_account _ _ _ _ _ Hscan)
          as (d & k & H1 & H2 & H3 & H4 & H5 & H6 & H7).
        simpl in H1. unfold ParallelMake_rest, ParallelMake_exit. simpl.
        destruct (tasksqueued s1 =? 0) eqn:E1.
        -- apply Z.eqb_eq in E1.
           assert (d = 0%nat) as -> by lia.
           assert (tasksqueued s = 0) as E0 by lia.
           destruct ex as [|t1 ex]; simpl.
           ++ rewrite stops_app, stops_replicate, jobs_app, jobs_replicate_Stop,
                app_nil_r, H2, H3, H5, H6. simpl. lia.
           ++ rewrite H2, H3, H5, H6. simpl.
              destruct (tasklist s) as [|t0' l0] eqn:Etl; [simpl in H1; lia|].
              destruct (starving_has_ready _ _ _ Hnd Hacyc Hre Hpc E0)
                as (t0 & Ht0 & Hr0); [by rewrite Etl|].
              rewrite Etl in Ht0.
              destruct (scan_progress _ _ _ _ _ t0 Hscan) as [H|H];
                try done; try lia.
              simpl in *. lia.
        -- simpl. rewrite H2, H3, H5, H6. simpl. lia.
      * unfold ParallelMake_rest. apply Z.ltb_ge in Hq.
        assert ((tasksqueued s =? 0) = false) as -> by (apply Z.eqb_neq; lia).
        simpl. lia.
    + destruct (donequeue s) as [|d dq] eqn:Hdq; [done|].
      injection Hstep as <-. destruct d as [|t]; simpl; [lia|].
      destruct (del_targets (t_outs t) (pending s)) as [[p ds] [k|]]; simpl; lia.
    + injection Hstep as <-. simpl. lia.
    + done.
  - apply BuildWorker_inv in Hstep
      as [(q & Hwi & Hq & ->)
         |[(t & q & Hwi & Hq & ->)|(t & ok & w' & Hwi & Hcall & ->)]];
      cbn [tasklist taskqueue workers donequeue at_pc set_worker].
    + pose proof (busy_insert_length _ _ _ WReturned Hwi) as Hb. simpl in Hb.
      rewrite Hq. change (stops (Stop :: q)) with (S (stops q)).
      change (jobs (Stop :: q)) with (jobs q). lia.
    + pose proof (busy_insert_length _ _ _ (WBusy t) Hwi) as Hb. simpl in Hb.
      rewrite Hq. change (stops (Job t :: q)) with (stops q).
      change (jobs (Job t :: q)) with (t :: jobs q). rewrite length_cons. lia.
    + pose proof (busy_insert_length _ _ _ WIdle Hwi) as Hb. simpl in Hb.
      rewrite length_app, length_cons. simpl length. lia.
Qed.

Lemma some_step_enabled tl w s :
  reachable' tl w s ->
  (exists o, at_pc s = AtEnd o) \/ exists l s', step' l s = Some s'.
Proof.
  intros Hre. pose proof Hre as Hm. apply to_mreach in Hm.
  pose proof (count' _ _ _ _ Hm) as (C1 & C2 & C3 & C4 & C5 & _).
  pose proof (mreach_threads _ _ _ _ Hm) as (T1 & _).
  destruct (at_pc s) eqn:Hpc.
  - right. exists Main. simpl. unfold main_step. rewrite Hpc. eauto.
  - right. exists Main. simpl. unfold main_step. rewrite Hpc. eauto.
  - right. destruct (donequeue s) as [|d dq] eqn:Hdq.
    + use_pc. simpl in C5.
      destruct T1 as [S0 G0]; [by intros [|]|].
      destruct (busy (workers s)) as [|t bs] eqn:Hb.
      * destruct (taskqueue s) as [|[|t] q] eqn:Hq.
        -- simpl in C5. lia.
        -- unfold stops in S0. done.
        -- assert (workers s !! 0%nat = Some WIdle) as Hw.
           { apply workers_split; [done..|]. apply lookup_lt_is_Some. lia. }
           exists (Worker 0). simpl. unfold BuildWorker. rewrite Hw, Hq. eauto.
      * assert (t ∈ busy (workers s)) as Ht by (rewrite Hb; left).
        apply elem_of_busy, list_elem_of_lookup in Ht as [i Hi].
        exists (Worker i). simpl. unfold BuildWorker. rewrite Hi.
        destruct (act' t None (world s)). eauto.
    + exists Main. simpl. unfold main_step. rewrite Hpc, Hdq. eauto.
  - right. exists Main. simpl. unfold main_step. rewrite Hpc. eauto.
  - left. eauto.
Qed.

Lemma run_app (ls1 ls2 : list label) s :
  run' (ls1 ++ ls2) s
  = match run' ls1 s with Some s1 => run' ls2 s1 | None => None end.
Proof.
  revert s. induction ls1 as [|l ls1 IH]; intros s; simpl; [done|].
  destruct (step' l s); [apply IH|done].
Qed.

(** X21. Termination.  With a THREADCOUNT of 0 or more, distinct output
    names and acyclic dependencies, every step of the main thread or of a
    worker uses up some of a bounded budget, whatever the actions return: no
    execution is longer than 5 steps per task plus THREADCOUNT plus 4.  And
    since some thread can always take a step until the [finally] clause is
    done, every execution can be carried on to the end of the program,
    which is a return or the abort after a failed action. *)
Theorem acyclic_build_terminates tl w :
  0 <= THREADCOUNT -> NoDup (outputs tl) -> acyclic tl ->
  (forall ls s, run' ls (init tl w) = Some s ->
     (length ls + steps_left (Z.to_nat THREADCOUNT) s
      <= 5 * length tl + Z.to_nat THREADCOUNT + 4)%nat) /\
  (forall s, reachable' tl w s ->
     exists ls s' o, run' ls s = Some s' /\ at_pc s' = AtEnd o /\
       (length ls <= steps_left (Z.to_nat THREADCOUNT) s)%nat).
Proof.
  intros HT Hnd Hacyc. split.
  - assert (forall ls s s', reachable' tl w s -> run' ls s = Some s' ->
              (length ls + steps_left (Z.to_nat THREADCOUNT) s'
               <= steps_left (Z.to_nat THREADCOUNT) s)%nat) as Hrun.
    { induction ls as [|l ls IH]; intros s s' Hre; simpl.
      - intros [= <-]. lia.
      - destruct (step' l s) as [s1|] eqn:E; [|done]. intros Hrun.
        pose proof (step_decreases _ _ _ _ _ HT Hnd Hacyc Hre E).
        assert (reachable' tl w s1) as Hre1 by (by eapply reach_step).
        specialize (IH _ _ Hre1 Hrun). lia. }
    intros ls s H. specialize (Hrun ls _ _ (reach_init _ _ _ _ _ _ _) H).
    unfold steps_left in Hrun at 2. simpl in Hrun. unfold stops in Hrun.
    simpl in Hrun. lia.
  - assert (forall n s, reachable' tl w s ->
              (steps_left (Z.to_nat THREADCOUNT) s <= n)%nat ->
              exists ls s' o, run' ls s = Some s' /\ at_pc s' = AtEnd o /\
                (length ls <= steps_left (Z.to_nat THREADCOUNT) s)%nat) as Hend.
    { induction n as [|n IH]; intros s Hre Hn.
      - destruct (some_step_enabled _ _ _ Hre) as [[o Ho]|(l & s1 & E)].
        + exists [], s, o. simpl. split_and!; try done. lia.
        + pose proof (step_decreases _ _ _ _ _ HT Hnd Hacyc Hre E). lia.
      - destruct (some_step_enabled _ _ _ Hre) as [[o Ho]|(l & s1 & E)].
        + exists [], s, o. simpl. split_and!; try done. lia.
        + pose proof (step_decreases _ _ _ _ _ HT Hnd Hacyc Hre E) as Hd.
          assert (reachable' tl w s1) as Hre1 by (by eapply reach_step).
          destruct (IH s1 Hre1) as (ls & s2 & o & Hrun & Ho & Hlen); [lia|].
          exists (l :: ls), s2, o. simpl. rewrite E. split_and!; try done.
          lia. }
    intros s Hre. by eapply Hend.
Qed.

End Progress.

(** X6. [for target in task[2]: del pending[target]] goes through exactly
    when the targets are distinct keys of the table; it then deletes them
    all.  Otherwise it raises KeyError at the first target that is absent
    or repeated, with the targets before that one already deleted. *)
Theorem del_targets_raises_iff (ts : list string) (p : gmap string nat) :
  (forall p' ds, del_targets ts p = (p', ds, None) <->
     NoDup ts /\ (forall k, k ∈ ts -> is_Some (p !! k)) /\ ds = ts /\
     p' = foldl (fun q k => delete k q) p ts) /\
  (forall p' ds k, del_targets ts p = (p', ds, Some k) ->
     exists rest, ts = ds ++ k :: rest /\ NoDup ds /\
       (forall x, x ∈ ds -> is_Some (p !! x)) /\
       (k ∈ ds \/ p !! k = None) /\
       p' = foldl (fun q k => delete k q) p ds).
Proof.
  split.
  - intros p' ds. split.
    + intros H. pose proof (del_targets_prefix _ _ _ _ _ H) as [_ Hds].
      specialize (Hds eq_refl). subst ds.
      pose proof (del_targets_replay _ _ _ _ _ H) as Hp'. split_and!; try done.
      * clear Hp'. revert p p' H. induction ts as [|a ts IH]; intros p p';
          simpl; [constructor|].
        destruct (p !! a) eqn:Ha; [|done].
        destruct (del_targets ts (delete a p)) as [[q ds'] e'] eqn:E.
        intros [= <- -> ->]. apply NoDup_cons. split; [|by eapply IH].
        intros Hin.
        pose proof (del_targets_count _ _ _ _ _ a E) as Hc.
        rewrite lookup_delete_eq in Hc.
        apply list_elem_of_split in Hin as (l1 & l2 & ->).
        rewrite filter_app, filter_cons_True, length_app in Hc by done.
        simpl in Hc. lia.
      * clear Hp'. revert p p' H. induction ts as [|a ts IH]; intros p p';
          simpl; [by intros _ k Hk; inversion Hk|].
        destruct (p !! a) eqn:Ha; [|done].
        destruct (del_targets ts (delete a p)) as [[q ds'] e'] eqn:E.
        intros [= <- -> ->] k Hk.
        apply elem_of_cons in Hk as [->|Hk]; [by rewrite Ha|].
        specialize (IH _ _ E k Hk).
        destruct (decide (k = a)) as [->|Hne]; [by rewrite Ha|].
        by rewrite lookup_delete_ne in IH.
    + intros (Hnd & Hin & -> & ->).
      destruct (del_targets_ok ts p Hnd Hin) as [q Hq]. rewrite Hq.
      by rewrite (del_targets_replay _ _ _ _ _ Hq).
  - revert p. induction ts as [|a ts IH]; intros p p' ds k; simpl; [done|].
    destruct (p !! a) eqn:Ha.
    + destruct (del_targets ts (delete a p)) as [[q ds'] e'] eqn:E.
      intros [= <- <- ->].
      destruct (IH _ _ _ _ E) as (rest & -> & Hnd & Hin & Hk & Hq).
      exists rest. split_and!; try done.
      * apply NoDup_cons. split; [|done]. intros Ha'.
        specialize (Hin a Ha'). rewrite lookup_delete_eq in Hin.
        by destruct Hin.
      * intros x Hx. apply elem_of_cons in Hx as [->|Hx]; [by rewrite Ha|].
        specialize (Hin x Hx).
        destruct (decide (x = a)) as [->|Hne]; [by rewrite Ha|].
        by rewrite lookup_delete_ne in Hin.
      * destruct Hk as [Hk|Hk]; [left; by right|].
        destruct (decide (k = a)) as [->|Hne]; [left; left|].
        right. by rewrite lookup_delete_ne in Hk.
    + intros [= <- <- <-]. exists ts. split_and!; try done.
      * constructor.
      * intros x Hx. inversion Hx.
      * by right.
Qed.

(** X10. The first pass.  With the Pending Set as seeded at the entry of
    ParallelMake, a task is ready exactly when none of its explicit deps,
    inputs and alternate deps is an output of a task of the list (itself
    included): sources that are plain files never hold a task back, and a
    task without sources is ready whatever the table holds. *)
Theorem ready_at_first_pass (tl : list task) (t : task) :
  (AllSourcesReady t (seed_pending tl) = true
   <-> forall t', t' ∈ tl -> ~ feeds t' t) /\
  (sources t = [] -> forall p, AllSourcesReady t p = true).
Proof.
  split.
  - rewrite AllSourcesReady_spec. split.
    + intros H t' Ht' (x & Hx & Hs). specialize (H x Hs).
      assert (is_Some (seed_pending tl !! x)) as Hsome.
      { apply seed_pending_lookup. eauto. }
      rewrite H in Hsome. by destruct Hsome.
    + intros H x Hx. apply eq_None_not_Some. intros Hsome.
      apply seed_pending_lookup in Hsome as (t' & Ht' & Hx').
      apply (H t' Ht'). by exists x.
  - intros E p. apply AllSourcesReady_spec. rewrite E. intros x Hx.
    by apply not_elem_of_nil in Hx.
Qed.

(** * The other functions *)

(** ** Text *)

Lemma chars_app (a b : string) : chars (a +:+ b) = chars a ++ chars b.
Proof. unfold chars. induction a as [|c a IH]; simpl; [done|]. by rewrite IH. Qed.

Lemma text_chars (s : string) : text (chars s) = s.
Proof. apply String.string_of_list_ascii_of_string. Qed.

Lemma chars_text (l : list ascii) : chars (text l) = l.
Proof. apply String.list_ascii_of_string_of_list_ascii. Qed.

Lemma chars_inj (a b : string) : chars a = chars b -> a = b.
Proof. intros H. by rewrite <- (text_chars a), <- (text_chars b), H. Qed.

Lemma length_chars (s : string) : length (chars s) = String.length s.
Proof. unfold chars. induction s; simpl; auto. Qed.

Lemma startswith_spec (s pre : string) :
  startswith s pre = true <-> exists rest, s = pre +:+ rest.
Proof.
  unfold startswith. rewrite bool_decide_eq_true. split.
  - intros [k Hk]. exists (text k). apply chars_inj.
    by rewrite chars_app, chars_text.
  - intros [rest ->]. exists (chars rest). apply chars_app.
Qed.

Lemma endswith_spec (s suf : string) :
  endswith s suf = true <-> exists stem, s = stem +:+ suf.
Proof.
  unfold endswith. rewrite bool_decide_eq_true. split.
  - intros [k Hk]. exists (text k). apply chars_inj.
    by rewrite chars_app, chars_text.
  - intros [stem ->]. exists (chars stem). apply chars_app.
Qed.

Lemma drop_last_app (stem suf : string) :
  drop_last (String.length suf) (stem +:+ suf) = stem.
Proof.
  unfold drop_last. rewrite chars_app, length_app, <- length_chars.
  replace (length (chars stem) + length (chars suf) - length (chars suf))%nat
    with (length (chars stem)) by lia.
  by rewrite take_app_length, text_chars.
Qed.

Lemma append_assoc (a b c : string) : (a +:+ b) +:+ c = a +:+ b +:+ c.
Proof. apply chars_inj. by rewrite !chars_app, app_assoc. Qed.

Lemma append_length (a b : string) :
  String.length (a +:+ b) = (String.length a + String.length b)%nat.
Proof. by rewrite <- !length_chars, chars_app, length_app. Qed.

(** ** BracketNameWithQuotes *)

Lemma startswith_quoted (name pre : string) c rest :
  pre = String c rest -> c <> dquote ->
  startswith (QUOTE +:+ name +:+ QUOTE) pre = false.
Proof.
  intros -> Hc. unfold startswith. apply bool_decide_eq_false.
  intros H. simpl in H. by apply prefix_cons_inv_1 in H.
Qed.

Lemma quoted_is_bracketed (name : string) :
  startswith (QUOTE +:+ name +:+ QUOTE) QUOTE = true /\
  endswith (QUOTE +:+ name +:+ QUOTE) QUOTE = true.
Proof.
  split.
  - apply startswith_spec. by eexists.
  - apply endswith_spec. exists (QUOTE +:+ name). by rewrite append_assoc.
Qed.

Lemma contains_char_app c (a b : string) :
  contains_char c (a +:+ b) = contains_char c a || contains_char c b.
Proof.
  unfold contains_char. rewrite chars_app.
  apply eq_true_iff_eq. rewrite orb_true_iff, !bool_decide_eq_true, elem_of_app.
  done.
Qed.

Lemma BracketNameWithQuotes_cases (name : string) :
  BracketNameWithQuotes name
  = if contains_char " " name && negb (unquoted_flag name)
       && negb (startswith name QUOTE && endswith name QUOTE)
    then QUOTE +:+ name +:+ QUOTE else name.
Proof.
  unfold BracketNameWithQuotes, unquoted_flag.
  destruct (startswith name "-framework"); simpl; [by rewrite andb_false_r|].
  destruct (startswith name "-dylib_file"); simpl; [by rewrite andb_false_r|].
  destruct (startswith name "-undefined "); simpl; [by rewrite andb_false_r|].
  destruct (contains_char " " name); simpl; [|done].
  by destruct (startswith name QUOTE && endswith name QUOTE).
Qed.

Lemma BracketNameWithQuotes_quoted (name : string) :
  contains_char " " name = true ->
  BracketNameWithQuotes (QUOTE +:+ name +:+ QUOTE) = QUOTE +:+ name +:+ QUOTE.
Proof.
  intros E. unfold BracketNameWithQuotes.
  rewrite !(startswith_quoted name _ "-"%char _ eq_refl) by done.
  rewrite !contains_char_app, E, orb_true_r. cbn [orb negb].
  by destruct (quoted_is_bracketed name) as [-> ->].
Qed.

(** X12. BracketNameWithQuotes is idempotent: a name that went through it
    once is left as it is by a second pass, so quoting an argument that is
    already bracketed never stacks quotes. *)
Theorem BracketNameWithQuotes_idempotent (name : string) :
  BracketNameWithQuotes (BracketNameWithQuotes name) = BracketNameWithQuotes name.
Proof.
  rewrite (BracketNameWithQuotes_cases name).
  destruct (contains_char " " name && negb (unquoted_flag name)
            && negb (startswith name QUOTE && endswith name QUOTE)) eqn:E.
  - apply BracketNameWithQuotes_quoted.
    apply andb_true_iff in E as [E _]. by apply andb_true_iff in E as [E _].
  - by rewrite BracketNameWithQuotes_cases, E.
Qed.

(** X13. What comes out of BracketNameWithQuotes: the name itself or the
    name between two double quotes, the latter exactly for a name with a
    space that is none of the three flags and is not already bracketed.  So
    a result that contains a space is one of those flags or begins and ends
    with a double quote. *)
Theorem BracketNameWithQuotes_brackets_spaces (name : string) :
  (BracketNameWithQuotes name
   = if contains_char " " name && negb (unquoted_flag name)
        && negb (startswith name QUOTE && endswith name QUOTE)
     then QUOTE +:+ name +:+ QUOTE else name) /\
  (contains_char " " (BracketNameWithQuotes name) = true ->
   unquoted_flag (BracketNameWithQuotes name) = true \/
   (startswith (BracketNameWithQuotes name) QUOTE = true /\
    endswith (BracketNameWithQuotes name) QUOTE = true)).
Proof.
  split; [apply BracketNameWithQuotes_cases|].
  rewrite BracketNameWithQuotes_cases.
  destruct (contains_char " " name) eqn:E1; simpl; [|by rewrite E1].
  destruct (unquoted_flag name) eqn:E2; simpl; [auto|].
  destruct (startswith name QUOTE && endswith name QUOTE) eqn:E3; simpl.
  - apply andb_true_iff in E3. auto.
  - intros _. right. apply quoted_is_bracketed.
Qed.

(** ** The versioned name of a dynamic library *)

Lemma drop_last_suffix (k : nat) (stem suf : string) :
  k = String.length suf -> drop_last k (stem +:+ suf) = stem.
Proof. intros ->. apply drop_last_app. Qed.

Lemma lower_app (a b : string) : lower (a +:+ b) = lower a +:+ lower b.
Proof.
  apply chars_inj. unfold lower.
  by rewrite chars_text, !chars_app, !chars_text, map_app.
Qed.

Lemma endswith_last (s suf : string) c :
  endswith s (suf +:+ String c EmptyString) = true -> last (chars s) = Some c.
Proof.
  intros H. apply endswith_spec in H as [stem ->].
  rewrite !chars_app. simpl. by rewrite app_assoc, last_snoc.
Qed.

Lemma append_neq (a b : string) : b <> EmptyString -> a +:+ b <> a.
Proof.
  intros Hb E. apply (f_equal String.length) in E. rewrite append_length in E.
  destruct b; [done|]. simpl in E. lia.
Qed.

(** X14. The symbolic link restores the declared name.  CompileAnything
    links a dynamic library under a name that carries MAJOR_VERSION
    (libpanda.so.1.2, libpanda.1.2.dylib), which is not the target the task
    declares as its output; CompileLink then makes a symbolic link whose
    name is computed back from the versioned one.  On every platform where a
    version is added, the name of the link is exactly the declared target
    (for macOS: when the target ends in [.dylib] as written), provided
    MAJOR_VERSION does not end in the letter b. *)
Theorem newdll_is_the_declared_target (tplatform MAJOR_VERSION target : string) :
  endswith MAJOR_VERSION "b" = false ->
  tplatform ∉ ["windows"; "android"; "emscripten"] ->
  (tplatform = "darwin" -> endswith target ".dylib" = true) ->
  versioned_target tplatform MAJOR_VERSION target <> target /\
  newdll MAJOR_VERSION (versioned_target tplatform MAJOR_VERSION target)
  = Some target.
Proof.
  intros Hb Hplat Hdylib. unfold versioned_target.
  destruct (String.eqb tplatform "darwin") eqn:Hd.
  - apply String.eqb_eq in Hd. specialize (Hdylib Hd).
    apply endswith_spec in Hdylib as [stem ->].
    assert (endswith (lower (stem +:+ ".dylib")) ".dylib" = true) as ->.
    { rewrite lower_app. apply endswith_spec. by eexists. }
    assert (drop_last 5 (stem +:+ ".dylib") = stem +:+ ".") as ->.
    { change (stem +:+ ".dylib") with (stem +:+ "." +:+ "dylib").
      rewrite <- append_assoc. by apply drop_last_suffix. }
    split.
    + rewrite append_assoc. intros E. apply (f_equal String.length) in E.
      rewrite !append_length in E. simpl in E. lia.
    + unfold newdll.
      assert (endswith ((stem +:+ ".") +:+ MAJOR_VERSION +:+ ".dylib")
                ("." +:+ MAJOR_VERSION +:+ ".dylib") = true) as ->.
      { apply endswith_spec. exists stem. by rewrite append_assoc. }
      f_equal.
      rewrite drop_last_suffix.
      * by rewrite append_assoc.
      * rewrite append_length. simpl. lia.
  - assert (bool_decide (tplatform ∈ ["windows"; "android"; "emscripten"]) = false)
      as -> by (by apply bool_decide_eq_false).
    simpl. split.
    + apply append_neq. done.
    + unfold newdll.
      assert (endswith (target +:+ "." +:+ MAJOR_VERSION)
                ("." +:+ MAJOR_VERSION +:+ ".dylib") = false) as ->.
      { apply not_true_is_false. intros H.
        assert (endswith (target +:+ "." +:+ MAJOR_VERSION)
                  (("." +:+ MAJOR_VERSION +:+ ".dyli") +:+ "b") = true) as H'.
        { by rewrite !append_assoc. }
        apply endswith_last in H'.
        destruct (decide (MAJOR_VERSION = EmptyString)) as [->|Hne].
        - rewrite chars_app in H'. simpl in H'.
          rewrite last_snoc in H'. done.
        - assert (endswith MAJOR_VERSION "b" = true); [|congruence].
          unfold endswith. apply bool_decide_eq_true.
          rewrite !chars_app in H'. rewrite app_assoc in H'.
          destruct (chars MAJOR_VERSION) as [|c l] eqn:E using rev_ind.
          + destruct MAJOR_VERSION; done.
          + rewrite app_assoc, last_snoc in H'. injection H' as ->.
            by apply suffix_app_r. }
      assert (endswith (target +:+ "." +:+ MAJOR_VERSION) ("." +:+ MAJOR_VERSION)
              = true) as ->.
      { apply endswith_spec. by exists target. }
      f_equal. apply drop_last_suffix. rewrite append_length. simpl. lia.
Qed.

(** ** The numeric version *)

Lemma split_nonempty sep m s : str_split sep m s <> [].
Proof.
  revert m. induction s as [|c rest IH]; intros m; simpl; [done|].
  destruct ((c =? sep) && _); [done|].
  specialize (IH m). by destruct (str_split sep m rest).
Qed.

Lemma join_cons sep p q ps : str_join sep (p :: q :: ps) = p ++ sep ++ str_join sep (q :: ps).
Proof. done. Qed.

Lemma join_split sep m s : str_join [sep] (str_split sep m s) = s.
Proof.
  revert m. induction s as [|c rest IH]; intros m; simpl; [done|].
  destruct (c =? sep) eqn:Hc; simpl.
  - apply Z.eqb_eq in Hc as ->.
    destruct (if m is Some n then (0 <? n)%nat else true) eqn:Hm.
    + pose proof (split_nonempty sep (if m is Some n then Some (pred n) else None)
                    rest) as Hne.
      specialize (IH (if m is Some n then Some (pred n) else None)).
      destruct (str_split sep _ rest) as [|q qs]; [done|].
      rewrite join_cons, IH. done.
    + pose proof (split_nonempty sep m rest) as Hne. specialize (IH m).
      destruct (str_split sep m rest) as [|q qs]; [done|].
      destruct qs; simpl in *; by rewrite <- IH.
  - pose proof (split_nonempty sep m rest) as Hne. specialize (IH m).
    destruct (str_split sep m rest) as [|q qs]; [done|].
    destruct qs; simpl in *; by rewrite <- IH.
Qed.

Lemma split_no_sep sep m s : sep ∉ s -> str_split sep m s = [s].
Proof.
  induction s as [|c rest IH]; simpl; [done|]. intros H.
  apply not_elem_of_cons in H as [Hc H].
  assert ((c =? sep) = false) as -> by (apply Z.eqb_neq; congruence).
  simpl. by rewrite IH.
Qed.

Lemma split_sep sep m a rest :
  sep ∉ a -> (if m is Some n then (0 < n)%nat else True) ->
  str_split sep m (a ++ sep :: rest)
  = a :: str_split sep (if m is Some n then Some (pred n) else None) rest.
Proof.
  intros Ha Hm. induction a as [|c a IH]; simpl.
  - rewrite Z.eqb_refl. simpl.
    assert ((if m is Some n then (0 <? n)%nat else true) = true) as ->.
    { destruct m; [|done]. by apply Nat.ltb_lt. }
    done.
  - apply not_elem_of_cons in Ha as [Hc Ha].
    assert ((c =? sep) = false) as -> by (apply Z.eqb_neq; congruence).
    simpl. by rewrite IH.
Qed.




(** X16. The numeric version orders versions as long as the second and
    third numbers stay below 1000: it can be decoded back into the three
    numbers, a later version gets a larger number, and the number of a
    build that is not official (DISTRIBUTOR other than "cmu") lies just
    below that of the official build of the same version and not below any
    earlier official one.  A third number of 1000 or more runs into the
    second: [a.b.(c+1000)] and [a.(b+1).c] get the same number. *)
Theorem numeric_version_order (a1 a2 a3 b1 b2 b3 : Z) (D : string) :
  0 <= a2 < 1000 -> 0 <= a3 < 1000 -> 0 <= b2 < 1000 -> 0 <= b3 < 1000 ->
  (numeric_version a1 a2 a3 D < numeric_version b1 b2 b3 D
   <-> version_lt (a1, a2, a3) (b1, b2, b3)) /\
  (numeric_version a1 a2 a3 "cmu" / 1000000 = a1 /\
   numeric_version a1 a2 a3 "cmu" / 1000 mod 1000 = a2 /\
   numeric_version a1 a2 a3 "cmu" mod 1000 = a3) /\
  (D <> "cmu" ->
   numeric_version b1 b2 b3 D = numeric_version b1 b2 b3 "cmu" - 1 /\
   (version_lt (a1, a2, a3) (b1, b2, b3) ->
    numeric_version a1 a2 a3 "cmu" <= numeric_version b1 b2 b3 D)) /\
  numeric_version a1 a2 (a3 + 1000) D = numeric_version a1 (a2 + 1) a3 D.
Proof.
  intros Ha2 Ha3 Hb2 Hb3. unfold numeric_version, version_lt. simpl.
  split_and!.
  - destruct (String.eqb D "cmu"); lia.
  - Z.div_mod_to_equations. lia.
  - Z.div_mod_to_equations. lia.
  - Z.div_mod_to_equations. lia.
  - intros HD. apply String.eqb_neq in HD. rewrite HD. split; lia.
  - destruct (String.eqb D "cmu"); lia.
Qed.

(** X17. MAJOR_VERSION and the parts CreatePandaVersionFiles reads.
    Splitting at the full stops and joining again gives the version back,
    with or without a limit on the number of splits; MAJOR_VERSION is the
    text of the version up to its second full stop (all of it when there
    are fewer than two), and its two components are the very texts
    [parts[0]] and [parts[1]] that CreatePandaVersionFiles hands to [int],
    whose third part is the whole rest of the version. *)
Theorem MAJOR_VERSION_is_the_head_of_VERSION (VERSION : list Z) :
  str_join [DOT] (str_split DOT None VERSION) = VERSION /\
  str_join [DOT] (str_split DOT (Some 2%nat) VERSION) = VERSION /\
  MAJOR_VERSION_of VERSION `prefix_of` VERSION /\
  (forall a b rest, DOT ∉ a -> DOT ∉ b ->
     VERSION = a ++ DOT :: b ++ DOT :: rest ->
     MAJOR_VERSION_of VERSION = a ++ DOT :: b /\
     str_split DOT (Some 2%nat) VERSION = [a; b; rest]) /\
  (forall a b, DOT ∉ a -> DOT ∉ b -> VERSION = a ++ DOT :: b ->
     MAJOR_VERSION_of VERSION = VERSION /\
     str_split DOT (Some 2%nat) VERSION = [a; b]) /\
  (DOT ∉ VERSION -> MAJOR_VERSION_of VERSION = VERSION /\
                    str_split DOT (Some 2%nat) VERSION = [VERSION]).
Proof.
  assert (forall l : list (list Z), str_join [DOT] (take 2 l) `prefix_of` str_join [DOT] l)
    as Htake.
  { intros [|p [|q [|r l]]]; simpl; try done.
    exists (DOT :: str_join [DOT] (r :: l)). by rewrite <- !app_assoc. }
  split_and!.
  - apply join_split.
  - apply join_split.
  - unfold MAJOR_VERSION_of. rewrite <- (join_split DOT None VERSION) at 2.
    apply Htake.
  - intros a b rest Ha Hb ->. unfold MAJOR_VERSION_of.
    rewrite (split_sep DOT None a) by done.
    rewrite (split_sep DOT None b) by done.
    rewrite (split_sep DOT (Some 2%nat) a) by (done || lia). simpl pred.
    rewrite (split_sep DOT (Some 1%nat) b) by (done || lia). simpl pred.
    split.
    + pose proof (split_nonempty DOT None rest).
      destruct (str_split DOT None rest); done.
    + do 2 f_equal. clear. induction rest as [|c l IH]; simpl; [done|].
      rewrite andb_false_r. by rewrite IH.
  - intros a b Ha Hb ->. unfold MAJOR_VERSION_of.
    rewrite (split_sep DOT None a) by done.
    rewrite (split_sep DOT (Some 2%nat) a) by (done || lia).
    by rewrite !(split_no_sep DOT _ b) by done.
  - intros H. unfold MAJOR_VERSION_of. by rewrite !(split_no_sep DOT _ VERSION).
Qed.

(** ** The platform tag on macOS *)

Lemma frozenset_replicate (n : nat) (a : string) :
  frozenset (replicate (S n) a) = {[a]}.
Proof.
  induction n as [|n IH].
  - unfold frozenset. simpl. apply (right_id_L ∅ (∪)).
  - change (frozenset (replicate (S (S n)) a))
      with ({[a]} ∪ frozenset (replicate (S n) a)).
    rewrite IH. apply (idemp_L (∪)).
Qed.

Lemma frozenset_two_distinct (x y : string) (l : list string) (S : gset string) :
  x <> y -> x ∈ l -> y ∈ l -> S = frozenset l -> forall a, S <> {[a]}.
Proof.
  intros Hxy Hx Hy -> a E.
  assert (x ∈ frozenset l) as Hx' by (by apply elem_of_list_to_set).
  assert (y ∈ frozenset l) as Hy' by (by apply elem_of_list_to_set).
  rewrite E in Hx', Hy'. apply elem_of_singleton in Hx', Hy'. congruence.
Qed.

(** X18. With two or more architectures the macOS tag depends on the set of
    architectures only: the order of the [--arch] options and the target
    architecture play no part.  But the one-architecture case is decided on
    the length of the list, so an architecture named twice or more is not
    taken as that architecture: no tag fits and RuntimeError is raised.
    [--universal] alone always gives [universal2]. *)
Theorem arch_tag_depends_on_the_set (l k : list string) (ta ta' : string) :
  (2 <= length l)%nat -> (2 <= length k)%nat -> frozenset l = frozenset k ->
  arch_tag l ta = arch_tag k ta' /\
  (forall l', l ≡ₚ l' -> arch_tag l ta = arch_tag l' ta') /\
  (forall n a, arch_tag (replicate (2 + n) a) ta = None /\
               arch_tag [a] ta = Some a) /\
  (forall target arch py,
     parseopts_OSX_ARCHS true [] target arch = Some ["x86_64"; "arm64"] /\
     PLATFORM_darwin ["x86_64"; "arm64"] arch py
     = Some (if py then "macosx-10.13-universal2" else "macosx-10.9-universal2")).
Proof.
  intros Hl Hk E.
  assert (forall l k : list string, (2 <= length l)%nat -> (2 <= length k)%nat ->
            frozenset l = frozenset k -> arch_tag l ta = arch_tag k ta') as Hset.
  { clear. intros l k Hl Hk E.
    destruct l as [|x [|y l]]; simpl in Hl; try lia.
    destruct k as [|x' [|y' k]]; simpl in Hk; try lia.
    unfold arch_tag. by rewrite E. }
  split_and!.
  - by apply Hset.
  - intros l' Hp. apply Hset; [done| |].
    + by rewrite <- Hp.
    + unfold frozenset. by rewrite Hp.
  - intros n a. split; [|done].
    change (replicate (2 + n) a) with (a :: a :: replicate n a).
    unfold arch_tag.
    assert (frozenset (a :: a :: replicate n a) = {[a]}) as ->.
    { apply (frozenset_replicate (S n)). }
    repeat (rewrite bool_decide_eq_false_2;
            [|intros E'; symmetry in E'; revert E';
              (eapply (frozenset_two_distinct "x86_64" "i386"); [done| | |done];
                 by (repeat first [left|right]))
              || (eapply (frozenset_two_distinct "x86_64" "ppc64");
                    [done| | |done]; by (repeat first [left|right]))
              || (eapply (frozenset_two_distinct "x86_64" "arm64");
                    [done| | |done]; by (repeat first [left|right]))
              || (eapply (frozenset_two_distinct "i386" "ppc");
                    [done| | |done]; by (repeat first [left|right]))]).
    done.
  - intros target arch py. split; [done|]. by destruct py.
Qed.

(** * The test cases *)

Import Examples.


Lemma examples_from_TARGET_LIST :
  DEPENDENCYQUEUE
    [mkTarget "b" ["a"] [] ["a"; "b.h"]; mkTarget "a" ["a.cxx"] [] ["a.cxx"; "a.h"]]
  = [tB; tA] /\
  DEPENDENCYQUEUE [mkTarget "x" ["y"] [] ["y"]; mkTarget "y" ["x"] [] ["x"]]
  = [tX; tY].
Proof. split; reflexivity. Qed.

(** C2. On two targets that wait for each other the loop of ParallelMake
    neither aborts nor returns.  After the entry every pass of the main
    thread ends in the same starved state (tasks left, none ready, none in
    flight), at the top of the loop, and no worker can take a step; so
    whatever the schedule, the program is either still at its start or in
    that starved state, and the "Dependency problems" exit after the loop is
    never reached. *)
Theorem cyclic_dependency_never_aborts :
  (forall n, build_cycle (replicate (S n) Main) = Some starved) /\
  (forall i, step built always_stale record compiles 1 (Worker i) starved = None) /\
  (forall ls, build_cycle ls = None \/ build_cycle ls = Some (init [tX; tY] []) \/
              build_cycle ls = Some starved) /\
  at_pc starved = AtLoop /\
  tasksqueued starved = 0 /\
  tasklist starved = [tX; tY] /\
  AllSourcesReady tX (pending starved) = false /\
  AllSourcesReady tY (pending starved) = false.
Proof.
  assert (step built always_stale record compiles 1 Main starved = Some starved)
    as Hpass.
  { apply starved_pass_changes_nothing; try done.
    intros t Ht. simpl in Ht.
    apply elem_of_cons in Ht as [->|Ht]; [reflexivity|].
    apply list_elem_of_singleton in Ht as ->. reflexivity. }
  assert (forall i, step built always_stale record compiles 1 (Worker i) starved
                    = None) as Hidle.
  { intros [|i]; reflexivity. }
  assert (forall ls, run built always_stale record compiles 1 ls starved = None \/
                     run built always_stale record compiles 1 ls starved
                     = Some starved) as Hstay.
  { induction ls as [|[|i] ls IH]; cbn [run].
    - by right.
    - by rewrite Hpass.
    - rewrite Hidle. by left. }
  split_and!; try reflexivity; try done.
  - intros n. unfold build_cycle. cbn [replicate run].
    change (step built always_stale record compiles 1 Main (init [tX; tY] []))
      with (Some starved).
    induction n as [|n IH]; [done|]. cbn [replicate run]. by rewrite Hpass.
  - intros [|[|i] ls]; unfold build_cycle; cbn [run].
    + right. by left.
    + change (step built always_stale record compiles 1 Main (init [tX; tY] []))
        with (Some starved).
      destruct (Hstay ls) as [->| ->]; auto.
    + by left.
Qed.

(** C1, on the build of [b] from [a]: [b] is put on the task queue after
    [a] has left the Pending Set. *)
Lemma dispatch_only_when_ready_witness :
  trace (build_ab schedule_ab)
  = take 8 (trace (build_ab schedule_ab))
      ++ EvPut tB (delete "a" (seed_pending [tB; tA]))
      :: drop 9 (trace (build_ab schedule_ab)) /\
  (tB ∈ [tB; tA] /\
   delete "a" (seed_pending [tB; tA])
   = replay_pending (seed_pending [tB; tA]) (take 8 (trace (build_ab schedule_ab))) /\
   (forall x, x ∈ t_deps tB -> delete "a" (seed_pending [tB; tA]) !! x = None) /\
   (forall x, x ∈ t_inputs tB -> delete "a" (seed_pending [tB; tA]) !! x = None) /\
   (forall x, x ∈ t_alts tB -> delete "a" (seed_pending [tB; tA]) !! x = None)).
Proof.
  assert (trace (build_ab schedule_ab)
          = take 8 (trace (build_ab schedule_ab))
              ++ EvPut tB (delete "a" (seed_pending [tB; tA]))
              :: drop 9 (trace (build_ab schedule_ab))) as Htr
    by (vm_compute; reflexivity).
  split; [exact Htr|].
  exact (dispatch_only_when_ready always_stale record compiles 1
           [tB; tA] [] (build_ab schedule_ab) _ _ _ _
           (exec_reachable always_stale record compiles 1 schedule_ab [tB; tA] [])
           Htr).
Defined.

(** C8, in the state where the one slot of a width-1 build is taken. *)
Lemma tasksqueued_bounded_witness :
  0 < 1 /\
  (0 <= tasksqueued (build_ab [Main; Main]) <= 1 /\
   tasksqueued (build_ab [Main; Main])
   = Z.of_nat (length (puts (trace (build_ab [Main; Main]))))
     - Z.of_nat (length (gets_done (trace (build_ab [Main; Main])))) /\
   (at_pc (build_ab [Main; Main]) <> AtStart ->
    Z.of_nat (length (workers (build_ab [Main; Main]))) = 1) /\
   Z.of_nat (length (busy (workers (build_ab [Main; Main])))) <= 1 /\
   (forall todo rest,
      at_pc (build_ab [Main; Main]) = AtLoop ->
      tasklist (build_ab [Main; Main]) = todo ++ rest ->
      0 <= tasksqueued
             (scan built always_stale 1 todo [] (build_ab [Main; Main])).1.1
        <= 1)).
Proof.
  split; [reflexivity|].
  exact (tasksqueued_bounded always_stale record compiles 1 [tB; tA] []
           (build_ab [Main; Main]) eq_refl
           (exec_reachable always_stale record compiles 1 [Main; Main] [tB; tA] [])).
Defined.



(** C7, at the end of the broken build: the cache is saved although the
    build was aborted. *)
Lemma cache_saved_once_witness :
  at_pc (build_broken "a" schedule_broken) = AtEnd (SystemExit BuildAborting) /\
  ((forall o, at_pc (build_broken "a" schedule_broken) = AtFinally o ->
      exists s',
        step built always_stale record (breaks_on "a") 2 Main
          (build_broken "a" schedule_broken) = Some s' /\
        at_pc s' = AtEnd o /\
        saved s' = [world (build_broken "a" schedule_broken)] /\
        saves (trace s') = 1%nat) /\
   (saves (trace (build_broken "a" schedule_broken)) <= 1)%nat /\
   (forall o, at_pc (build_broken "a" schedule_broken) = AtEnd o ->
      exists pre post,
        trace (build_broken "a" schedule_broken) = pre ++ EvSave :: post /\
        saves pre = 0%nat /\ saves post = 0%nat /\ justbuilts post = [] /\
        saved (build_broken "a" schedule_broken)
        = [replay_world record (breaks_on "a") [] pre] /\
        saves (trace (build_broken "a" schedule_broken)) = 1%nat) /\
   ((forall o, at_pc (build_broken "a" schedule_broken) <> AtEnd o) ->
    saved (build_broken "a" schedule_broken) = [] /\
    saves (trace (build_broken "a" schedule_broken)) = 0%nat)).
Proof.
  split; [reflexivity|].
  exact (cache_saved_once always_stale record (breaks_on "a") 2 [tA; tC] []
           (build_broken "a" schedule_broken)
           (exec_reachable always_stale record (breaks_on "a") 2
              schedule_broken [tA; tC] [])).
Defined.

(** C9, at the end of the build of [b] from [a]. *)
Lemma pending_entries_removed_once_witness :
  1 <> 0 /\
  returned (at_pc (build_ab schedule_ab)) /\
  pending (build_ab schedule_ab) = ∅ /\
  removals "a" (trace (build_ab schedule_ab)) = 1%nat /\
  removals "b" (trace (build_ab schedule_ab)) = 1%nat.
Proof.
  assert (1 <> 0) as H10 by discriminate.
  assert (returned (at_pc (build_ab schedule_ab))) as Hret by (by right).
  pose proof (pending_entries_removed_once always_stale record compiles 1
                [tB; tA] [] (build_ab schedule_ab) H10
                (exec_reachable always_stale record compiles 1 schedule_ab
                   [tB; tA] [])) as (_ & _ & _ & _ & _ & Hend).
  destruct (Hend Hret) as [Hp Hr].
  split; [exact H10|]. split; [exact Hret|]. split; [exact Hp|].
  split; apply Hr; vm_compute; eauto.
Defined.



(** C4 as stated fails: when the failure of [a] is seen and the program
    ends, [c] is still being built by the other worker and has reported
    nothing; and the way the program ends is the same when it is [c] that
    fails, so it does not tell which target failed. *)
Lemma abort_leaves_work_in_flight :
  at_pc (build_broken "a" schedule_broken) = AtEnd (SystemExit BuildAborting) /\
  ~ drained (build_broken "a" schedule_broken) /\
  workers (build_broken "a" schedule_broken) = [WIdle; WBusy tC] /\
  puts (trace (build_broken "a" schedule_broken)) = [tA; tC] /\
  doneputs (trace (build_broken "a" schedule_broken)) = [Failed] /\
  gets (trace (build_broken "a" schedule_broken)) = [Failed] /\
  at_pc (build_broken "c" [Main; Main; Worker 0; Worker 1; Worker 1; Main; Main])
  = at_pc (build_broken "a" schedule_broken) /\
  exit_text BuildAborting = "Build process aborting."%string.
Proof.
  split_and!; try reflexivity.
  intros (_ & H & _). vm_compute in H. discriminate.
Qed.

(** C4 (amended), when the failure of [a] is at the head of the completion
    queue. *)
Lemma failure_aborts_at_once_witness :
  (at_pc (build_broken "a" [Main; Main; Worker 0; Worker 1; Worker 0]) = AtGet /\
   donequeue (build_broken "a" [Main; Main; Worker 0; Worker 1; Worker 0])
   = [Failed]) /\
  exists s1,
    step built always_stale record (breaks_on "a") 2 Main
      (build_broken "a" [Main; Main; Worker 0; Worker 1; Worker 0]) = Some s1 /\
    at_pc s1 = AtFinally (SystemExit BuildAborting) /\
    exit_status (SystemExit BuildAborting) = 1 /\
    exit_text BuildAborting = "Build process aborting."%string /\
    taskqueue s1
    = taskqueue (build_broken "a" [Main; Main; Worker 0; Worker 1; Worker 0]) /\
    workers s1
    = workers (build_broken "a" [Main; Main; Worker 0; Worker 1; Worker 0]) /\
    donequeue s1 = [] /\
    tasksqueued s1
    = tasksqueued (build_broken "a" [Main; Main; Worker 0; Worker 1; Worker 0]) /\
    pending s1
    = pending (build_broken "a" [Main; Main; Worker 0; Worker 1; Worker 0]) /\
    forall ls s2,
      run built always_stale record (breaks_on "a") 2 ls s1 = Some s2 ->
      puts (trace s2)
      = puts (trace (build_broken "a" [Main; Main; Worker 0; Worker 1; Worker 0])) /\
      gets (trace s2)
      = gets (trace (build_broken "a" [Main; Main; Worker 0; Worker 1; Worker 0]))
          ++ [Failed] /\
      (at_pc s2 = AtFinally (SystemExit BuildAborting) \/
       at_pc s2 = AtEnd (SystemExit BuildAborting)).
Proof.
  assert (at_pc (build_broken "a" [Main; Main; Worker 0; Worker 1; Worker 0])
          = AtGet) as H1 by reflexivity.
  assert (donequeue (build_broken "a" [Main; Main; Worker 0; Worker 1; Worker 0])
          = [Failed]) as H2 by reflexivity.
  split; [by split|].
  exact (failure_aborts_at_once always_stale record (breaks_on "a") 2
           [tA; tC] [] (build_broken "a" [Main; Main; Worker 0; Worker 1; Worker 0])
           []
           (exec_reachable always_stale record (breaks_on "a") 2
              [Main; Main; Worker 0; Worker 1; Worker 0] [tA; tC] [])
           H1 H2).
Defined.


Lemma producers_first_a_b : producers_first [tA; tB].
Proof.
  intros pre t post E t' Ht' (x & Hx & Hs).
  destruct pre as [|t1 [|t2 [|t3 pre]]]; simplify_eq/=.
  - vm_compute in Hs.
    repeat (apply elem_of_cons in Hs as [->|Hs]);
      try (by apply not_elem_of_nil in Hs);
      repeat (apply elem_of_cons in Ht' as [->|Ht']);
      try (by apply not_elem_of_nil in Ht');
      vm_compute in Hx; apply list_elem_of_singleton in Hx; discriminate.
  - apply list_elem_of_singleton in Ht' as ->.
    vm_compute in Hx. apply list_elem_of_singleton in Hx as ->.
    vm_compute in Hs.
    repeat (apply elem_of_cons in Hs as [Hs|Hs]; [discriminate|]).
    by apply not_elem_of_nil in Hs.
Qed.


(** ** More test cases *)

(** X1, in the width-1 build of [b] from [a] once [a] is on the task queue:
    the main thread waits, and two steps of worker 0 release it. *)
Lemma blocked_main_is_released_witness :
  step built always_stale record compiles 1 Main (build_ab [Main; Main]) = None /\
  ((exists o, at_pc (build_ab [Main; Main]) = AtEnd o) \/
   (at_pc (build_ab [Main; Main]) = AtGet /\
    donequeue (build_ab [Main; Main]) = [] /\
    (jobs (taskqueue (build_ab [Main; Main])) <> [] \/
     busy (workers (build_ab [Main; Main])) <> []) /\
    exists i ls s',
      (ls = [Worker i] \/ ls = [Worker i; Worker i]) /\
      run built always_stale record compiles 1 ls (build_ab [Main; Main])
      = Some s' /\
      donequeue s' <> [] /\
      is_Some (step built always_stale record compiles 1 Main s'))).
Proof.
  assert (step built always_stale record compiles 1 Main (build_ab [Main; Main])
          = None) as H by reflexivity.
  split; [exact H|].
  exact (blocked_main_is_released always_stale record compiles 1 [tB; tA] []
           (build_ab [Main; Main])
           (exec_reachable always_stale record compiles 1 [Main; Main] [tB; tA] [])
           H).
Defined.

(** X2, at the end of the same build: one stop value is queued for the one
    worker, which is still waiting. *)
Lemma one_stop_per_worker_witness :
  returned (at_pc (build_ab schedule_ab)) /\
  stops (taskqueue (build_ab schedule_ab)) = 1%nat /\
  (returned (at_pc (build_ab schedule_ab)) ->
   (stops (taskqueue (build_ab schedule_ab))
    + gone (workers (build_ab schedule_ab)))%nat = Z.to_nat 1 /\
   jobs (taskqueue (build_ab schedule_ab)) = [] /\
   busy (workers (build_ab schedule_ab)) = [] /\
   forall i, workers (build_ab schedule_ab) !! i = Some WIdle ->
     exists q, taskqueue (build_ab schedule_ab) = Stop :: q /\
       BuildWorker built compiles i (build_ab schedule_ab)
       = Some (set_worker built i WReturned q (build_ab schedule_ab))).
Proof.
  split; [right; reflexivity|]. split; [reflexivity|].
  exact (proj2 (one_stop_per_worker always_stale record compiles 1 [tB; tA] []
                  (build_ab schedule_ab)
                  (exec_reachable always_stale record compiles 1 schedule_ab
                     [tB; tA] []))).
Defined.

(** X3, at the end of the same build: both tasks were dispatched and run,
    once each. *)
Lemma no_task_runs_twice_witness :
  calls (trace (build_ab schedule_ab)) = [tA; tB] /\
  calls (trace (build_ab schedule_ab)) ⊆+ [tB; tA] /\
  puts (trace (build_ab schedule_ab)) ⊆+ [tB; tA].
Proof.
  pose proof (no_task_runs_twice always_stale record compiles 1 [tB; tA] []
                (build_ab schedule_ab)
                (exec_reachable always_stale record compiles 1 schedule_ab
                   [tB; tA] [])) as (_ & _ & H3 & H4 & _).
  split; [reflexivity|]. split; [exact H4|exact H3].
Defined.

Lemma outputs_a_b_distinct : NoDup (outputs [tB; tA]).
Proof. by apply (bool_decide_unpack _). Qed.

(** X4, on the build of [b] from [a]. *)
Lemma distinct_outputs_never_raise_witness :
  NoDup (outputs [tB; tA]) /\
  ~ key_error (at_pc (build_ab schedule_ab)) /\
  (forall o, at_pc (build_ab schedule_ab) = AtFinally o \/
             at_pc (build_ab schedule_ab) = AtEnd o ->
     o = Returns \/ o = SystemExit BuildAborting \/
     exists t, t ∈ [tB; tA] /\ o = ActionRaised t /\ 1 = 0).
Proof.
  split; [exact outputs_a_b_distinct|].
  exact (distinct_outputs_never_raise always_stale record compiles 1 [tB; tA] []
           (build_ab schedule_ab) outputs_a_b_distinct
           (exec_reachable always_stale record compiles 1 schedule_ab
              [tB; tA] [])).
Defined.

(** X5, while [a] is on the task queue and [b] waits on the list: both
    outputs are keys of the table, and [b] is not ready. *)
Lemma pending_is_unfinished_outputs_witness :
  NoDup (outputs [tB; tA]) /\
  running (at_pc (build_ab [Main; Main])) /\
  (Failed ∉ donequeue (build_ab [Main; Main])) /\
  unfinished (tasklist (build_ab [Main; Main])) (build_ab [Main; Main]) = [tB; tA] /\
  (forall k, is_Some (pending (build_ab [Main; Main]) !! k)
             <-> k ∈ outputs (unfinished (tasklist (build_ab [Main; Main]))
                                (build_ab [Main; Main]))) /\
  (forall t, AllSourcesReady t (pending (build_ab [Main; Main])) = true <->
             forall t', t' ∈ unfinished (tasklist (build_ab [Main; Main]))
                               (build_ab [Main; Main]) -> ~ feeds t' t).
Proof.
  assert (running (at_pc (build_ab [Main; Main]))) as Hrun by (right; reflexivity).
  assert (Failed ∉ donequeue (build_ab [Main; Main])) as HF
    by (intros H; vm_compute in H; inversion H).
  pose proof (pending_is_unfinished_outputs always_stale record compiles 1
                [tB; tA] [] (build_ab [Main; Main]) outputs_a_b_distinct
                (exec_reachable always_stale record compiles 1 [Main; Main]
                   [tB; tA] []) Hrun) as (_ & _ & H3).
  split; [exact outputs_a_b_distinct|]. split; [exact Hrun|].
  split; [exact HF|]. split; [reflexivity|]. exact (H3 HF).
Defined.

(** X7, on a width-1 build of [a] that is up to date, run to its end. *)
Lemma fresh_build_runs_nothing_witness :
  (forall t, t ∈ [tA] -> never_stale [] (t_outs t) (t_deps t) = false) /\
  at_pc (build_fresh [Main; Main; Main]) = AtEnd Returns /\
  calls (trace (build_fresh [Main; Main; Main])) = [] /\
  world (build_fresh [Main; Main; Main]) = [].
Proof.
  assert (forall t, t ∈ [tA] -> never_stale [] (t_outs t) (t_deps t) = false)
    as Hfresh by reflexivity.
  pose proof (fresh_build_runs_nothing never_stale record compiles 1 [tA] []
                (build_fresh [Main; Main; Main]) Hfresh
                (exec_reachable never_stale record compiles 1 [Main; Main; Main]
                   [tA] [])) as (_ & H2 & _ & H4 & _).
  split; [exact Hfresh|]. split; [reflexivity|]. split; [exact H2|exact H4].
Defined.

(** X8, on [a] and [b] listed in that order, both up to date, two workers. *)
Lemma fresh_build_one_pass_witness :
  0 < 2 /\ NoDup (outputs [tA; tB]) /\ producers_first [tA; tB] /\
  (forall t, t ∈ [tA; tB] -> never_stale [] (t_outs t) (t_deps t) = false) /\
  exists s,
    run built never_stale record compiles 2 [Main; Main; Main] (init [tA; tB] [])
    = Some s /\
    at_pc s = AtEnd Returns /\ tasklist s = [] /\ pending s = ∅ /\
    tasksqueued s = 0 /\ world s = [] /\ saved s = [[]] /\
    taskqueue s = replicate (Z.to_nat 2) Stop /\
    trace s = ([tA; tB] ≫= skip_events)
                ++ replicate (Z.to_nat 2) EvPutStop ++ [EvSave] /\
    checks (trace s) = map (fun t => (t_outs t, t_deps t, false)) [tA; tB].
Proof.
  assert (0 < 2) as H1 by reflexivity.
  assert (NoDup (outputs [tA; tB])) as H2 by (by apply (bool_decide_unpack _)).
  assert (forall t, t ∈ [tA; tB] -> never_stale [] (t_outs t) (t_deps t) = false)
    as H4 by reflexivity.
  split; [exact H1|]. split; [exact H2|]. split; [exact producers_first_a_b|].
  split; [exact H4|].
  exact (fresh_build_one_pass never_stale record compiles 2 [tA; tB] []
           H1 H2 producers_first_a_b H4).
Defined.

(** X9, on [a], [c], [b] where the action of [c] raises: [a] is built and
    recorded, the call for [c] is the last event, [b] is never checked. *)
Lemma sequential_stops_at_first_failure_witness :
  SequentialMake built always_stale record (breaks_on "c") [tA; tC; tB] []
  = (ActionRaised tC, ["a"],
     [EvNeedsBuild ["a"] ["a.cxx"; "a.h"] true; EvCall tA (Some (0, 3)%nat) true;
      EvJustBuilt ["a"] ["a.cxx"; "a.h"];
      EvNeedsBuild ["c"] ["c.cxx"] true; EvCall tC (Some (1, 3)%nat) false]) /\
  run built always_stale record (breaks_on "c") 0 [Main; Main]
    (init [tA; tC; tB] [])
  = Some (mkState [tA; tC; tB] ∅ 0 (AtEnd (ActionRaised tC)) [] [] [] ["a"]
            [["a"]]
            ([EvNeedsBuild ["a"] ["a.cxx"; "a.h"] true;
              EvCall tA (Some (0, 3)%nat) true;
              EvJustBuilt ["a"] ["a.cxx"; "a.h"];
              EvNeedsBuild ["c"] ["c.cxx"] true;
              EvCall tC (Some (1, 3)%nat) false] ++ [EvSave])).
Proof.
  assert (SequentialMake built always_stale record (breaks_on "c") [tA; tC; tB] []
          = (ActionRaised tC, ["a"],
             [EvNeedsBuild ["a"] ["a.cxx"; "a.h"] true;
              EvCall tA (Some (0, 3)%nat) true;
              EvJustBuilt ["a"] ["a.cxx"; "a.h"];
              EvNeedsBuild ["c"] ["c.cxx"] true;
              EvCall tC (Some (1, 3)%nat) false])) as H
    by (vm_compute; reflexivity).
  split; [exact H|].
  exact (proj2 (sequential_stops_at_first_failure always_stale record
                  (breaks_on "c") [tA; tC; tB] [] _ _ _ H)).
Defined.

(** X11, with THREADCOUNT = -1 and the one target [a]. *)
Lemma negative_threadcount_hangs_witness :
  -1 < 0 /\
  ([tA] <> [] ->
   forall s, reachable built always_stale record compiles (-1) [tA] [] s ->
     (s = init [tA] [] \/
      s = mkState [tA] (seed_pending [tA]) 0 AtLoop [] [] [] [] [] []) /\
     step built always_stale record compiles (-1) Main s
     = Some (mkState [tA] (seed_pending [tA]) 0 AtLoop [] [] [] [] [] []) /\
     forall i, step built always_stale record compiles (-1) (Worker i) s = None).
Proof.
  assert (-1 < 0) as H by reflexivity.
  split; [exact H|].
  exact (proj2 (negative_threadcount_hangs always_stale record compiles (-1)
                  [tA] [] H)).
Defined.

(** X19, on the build of [b] from [a]. *)
Lemma parallel_respects_deps_witness :
  1 <> 0 /\ NoDup (outputs [tB; tA]) /\
  calls (trace (build_ab schedule_ab)) = [tA; tB] /\
  respects_deps [tB; tA] (trace (build_ab schedule_ab)).
Proof.
  assert (1 <> 0) as H1 by discriminate.
  split; [exact H1|]. split; [exact outputs_a_b_distinct|].
  split; [reflexivity|].
  exact (proj1 (parallel_respects_deps always_stale record compiles 1 [tB; tA] []
                  (build_ab schedule_ab) H1 outputs_a_b_distinct
                  (exec_reachable always_stale record compiles 1 schedule_ab
                     [tB; tA] []))).
Defined.

Lemma acyclic_a_b : acyclic [tB; tA].
Proof. exists [tA; tB]. split; [apply perm_swap|exact producers_first_a_b]. Qed.

(** X20, at the entry of the loop in the build of [b] from [a]: [a] is
    ready, and the first pass puts it on the task queue. *)
Lemma acyclic_build_never_starves_witness :
  0 < 1 /\ NoDup (outputs [tB; tA]) /\ acyclic [tB; tA] /\
  at_pc (build_ab [Main]) = AtLoop /\ tasksqueued (build_ab [Main]) = 0 /\
  tasklist (build_ab [Main]) <> [] /\
  (exists t, t ∈ tasklist (build_ab [Main]) /\
             AllSourcesReady t (pending (build_ab [Main])) = true) /\
  exists s', step built always_stale record compiles 1 Main (build_ab [Main])
             = Some s' /\
    (0 < tasksqueued s' \/
     (length (tasklist s') < length (tasklist (build_ab [Main])))%nat).
Proof.
  assert (0 < 1) as H1 by reflexivity.
  assert (at_pc (build_ab [Main]) = AtLoop) as H4 by reflexivity.
  assert (tasksqueued (build_ab [Main]) = 0) as H5 by reflexivity.
  assert (tasklist (build_ab [Main]) <> []) as H6 by discriminate.
  split; [exact H1|]. split; [exact outputs_a_b_distinct|].
  split; [exact acyclic_a_b|]. split; [exact H4|]. split; [exact H5|].
  split; [exact H6|].
  exact (acyclic_build_never_starves always_stale record compiles 1 [tB; tA] []
           (build_ab [Main]) H1 outputs_a_b_distinct acyclic_a_b
           (exec_reachable always_stale record compiles 1 [Main] [tB; tA] [])
           H4 H5 H6).
Defined.

(** X21, on the build of [b] from [a] with one worker: no execution has
    more than 15 steps, and the schedule of 11 steps used above ends it. *)
Lemma acyclic_build_terminates_witness :
  0 <= 1 /\ NoDup (outputs [tB; tA]) /\ acyclic [tB; tA] /\
  run built always_stale record compiles 1 schedule_ab (init [tB; tA] [])
  = Some (build_ab schedule_ab) /\
  at_pc (build_ab schedule_ab) = AtEnd Returns /\
  (length schedule_ab
   + steps_left (Z.to_nat 1) (build_ab schedule_ab)
   <= 5 * length [tB; tA] + Z.to_nat 1 + 4)%nat.
Proof.
  assert (0 <= 1) as H1 by discriminate.
  assert (run built always_stale record compiles 1 schedule_ab (init [tB; tA] [])
          = Some (build_ab schedule_ab)) as H4 by (vm_compute; reflexivity).
  split; [exact H1|]. split; [exact outputs_a_b_distinct|].
  split; [exact acyclic_a_b|]. split; [exact H4|]. split; [reflexivity|].
  exact (proj1 (acyclic_build_terminates always_stale record compiles 1 [tB; tA] []
                  H1 outputs_a_b_distinct acyclic_a_b)
           schedule_ab (build_ab schedule_ab) H4).
Defined.

(** X14, for libpanda.dylib on macOS with MAJOR_VERSION 1.10: linked as
    libpanda.1.10.dylib, with a link named libpanda.dylib. *)
Lemma newdll_is_the_declared_target_witness :
  versioned_target "darwin" "1.10" "libpanda.dylib" = "libpanda.1.10.dylib" /\
  versioned_target "darwin" "1.10" "libpanda.dylib" <> "libpanda.dylib" /\
  newdll "1.10" (versioned_target "darwin" "1.10" "libpanda.dylib")
  = Some "libpanda.dylib".
Proof.
  assert (endswith "1.10" "b" = false) as H1 by reflexivity.
  assert ("darwin" ∉ ["windows"; "android"; "emscripten"]) as H2
    by (by apply (bool_decide_unpack _)).
  assert ("darwin" = "darwin" -> endswith "libpanda.dylib" ".dylib" = true) as H3
    by reflexivity.
  split; [reflexivity|].
  exact (newdll_is_the_declared_target "darwin" "1.10" "libpanda.dylib" H1 H2 H3).
Defined.


(** X16, for the versions 1.10.9 and 1.11.0. *)
Lemma numeric_version_order_witness :
  numeric_version 1 10 9 "cmu" = 1010009 /\
  numeric_version 1 11 0 "local" = 1010999 /\
  (numeric_version 1 10 9 "local" < numeric_version 1 11 0 "local"
   <-> version_lt (1, 10, 9) (1, 11, 0)) /\
  numeric_version 1 10 9 "cmu" / 1000 mod 1000 = 10.
Proof.
  pose proof (numeric_version_order 1 10 9 1 11 0 "local"
                ltac:(lia) ltac:(lia) ltac:(lia) ltac:(lia))
    as (H1 & (_ & H2 & _) & _).
  split; [reflexivity|]. split; [reflexivity|]. split; [exact H1|exact H2].
Defined.

(** X18, for [--arch arm64 --arch x86_64] and the other order. *)
Lemma arch_tag_depends_on_the_set_witness :
  arch_tag ["arm64"; "x86_64"] "arm64" = Some "universal2" /\
  arch_tag ["arm64"; "x86_64"] "arm64" = arch_tag ["x86_64"; "arm64"] "x86_64" /\
  arch_tag ["arm64"; "arm64"] "arm64" = None.
Proof.
  assert (frozenset ["arm64"; "x86_64"] = frozenset ["x86_64"; "arm64"]) as E
    by (by apply (bool_decide_unpack _)).
  pose proof (arch_tag_depends_on_the_set ["arm64"; "x86_64"] ["x86_64"; "arm64"]
                "arm64" "x86_64" ltac:(simpl; lia) ltac:(simpl; lia) E)
    as (H1 & _ & H3 & _).
  split; [by apply (bool_decide_unpack _)|]. split; [exact H1|].
  exact (proj1 (H3 0%nat "arm64")).
Defined.
